(** * The prompt-queue engine of [useChatCore]

    A shallow embedding of [src/shared-v5-ready/chat/use-chat-core.ts]:
    the optimistic transcript, the table of pending queue jobs, the
    shared poll timer with its failure counter, submission, cancellation
    and the session reset.

    The hook is asynchronous JavaScript running on one cooperative
    scheduler.  Every [async] function is therefore cut at its [await]s:
    the synchronous segment up to an [await] is one atomic transition,
    and the suspended rest of the function is kept as a [Task] that the
    environment resumes later with the value (or the rejection) of the
    awaited promise.  Segments of different functions interleave freely,
    exactly as they do on the JavaScript event loop.

    Collaborators that the hook only calls (toasts, [fetch], [regenerate],
    the attachment cleanup, the message cache, ...) are recorded as
    [Effect]s in the order the code performs them.

    What the model fixes about React and the browser:
    - the updater given to [updatePendingQueueJobs] runs when React
      processes the update, at the end of the segment that queued it: no
      segment reads the table after queueing an update, so the state
      [pendingQueueJobs] and [pendingQueueJobsRef] agree between turns,
      and the toasts of the filter callback of a poll tick come after
      the call of [regenerate] of the same segment;
    - every turn of the event loop is followed by a render, after which
      the effect with dependency [pendingQueueJobs.length] runs if that
      length changed;
    - the guest-id lookup at the top of [submit] settles in the turn of
      the call, so that the call and the resolution (or the rejection)
      of the lookup are one event;
    - in a session the transcript is written by [submit] and by the
      reset of lines 190-197 only: what the conversation layer streams
      into it is not part of the engine, and [handleSuggestion] and
      [handleReload] are modelled on their own, after the engine;
    - the clock readings of one synchronous segment are equal;
    - a [string] holds the UTF-8 bytes of a JavaScript string, and
      [jsLength] counts its UTF-16 code units as [.length] does. *)

From stdpp Require Import base decidable option list strings gmap pretty.
From Stdlib Require Import NArith Lia.

Set Default Proof Using "Type".

(** ** Data model *)

(** [createOptimisticAttachments] returns [{ name, contentType, url }]. *)
Record OptimisticAttachment := {
  oa_name : string;
  oa_contentType : string;
  oa_url : string;
}.

(** [Attachment] of [src/lib/file-handling.ts]. *)
Record Attachment := {
  at_name : string;
  at_contentType : string;
  at_url : string;
  at_storagePath : option string;
}.

(** What the hook reads of a browser [File]. *)
Record File := { file_name : string; file_type : string }.

(** The two fields of [UserProfile] the hook reads. *)
Record UserProfile := {
  user_id : string;
  user_system_prompt : option string;
}.

Inductive Role := RoleUser | RoleAssistant.

Inductive Part :=
| TextPart (text : string)
| FilePart (name contentType url : string).

(** [AppMessage], with [createdAt] kept as a clock reading. *)
Record AppMessage := {
  msg_id : string;
  msg_role : Role;
  msg_parts : list Part;
  msg_createdAt : N;
  msg_content : string;
  msg_experimental_attachments : option (list OptimisticAttachment);
}.

(** [PendingQueueMessage.status]. *)
Inductive PendingStatus := StPending | StProcessing.

(** [PendingQueueMessage]: [queueId] is the optional server identifier. *)
Record PendingQueueMessage := {
  clientId : string;
  queueId : option string;
  status : PendingStatus;
  content : string;
  createdAt : N;
  optimisticAttachments : list OptimisticAttachment;
}.

(** The status literals of [QueueStatusResponse]. *)
Inductive QueueStatus := pending | processing | completed | failed | cancelled.

Record QueueStatusItem := { qs_id : string; qs_status : QueueStatus }.

Record QueueStatusResponse := {
  sr_success : bool;
  sr_queue : list QueueStatusItem;
  sr_error : option string;
}.

Record EnqueuedJob := { eq_id : string; eq_status : string }.

Record EnqueueResponse := {
  er_success : bool;
  er_queue : option EnqueuedJob;
  er_error : option string;
}.

Record CancelResponse := { cr_success : bool; cr_error : option string }.

Global Instance PendingStatus_eq_dec : EqDecision PendingStatus.
Proof. solve_decision. Defined.
Global Instance QueueStatus_eq_dec : EqDecision QueueStatus.
Proof. solve_decision. Defined.

Definition QUEUE_STATUS_POLL_INTERVAL : N := 1500.
Definition MAX_QUEUE_POLL_FAILURES : nat := 5.

(** ** JavaScript truthiness of optional strings *)

(** [!!s] for [s : string | undefined]: the empty string is falsy. *)
Definition truthy (s : option string) : bool :=
  match s with
  | Some s => negb (bool_decide (s = ""))
  | None => false
  end.

(** [a || fallback] on strings. *)
Definition or_else (a : option string) (fallback : string) : string :=
  match a with
  | Some s => if bool_decide (s = "") then fallback else s
  | None => fallback
  end.

(** ** The length of a JavaScript string *)

(** [s.length] is the number of UTF-16 code units of [s]: one for every
    code point up to U+FFFF, two for every code point above.  A [string]
    holds the UTF-8 encoding of the JavaScript string (a lone surrogate
    as the three bytes of its code point), so the units are counted at
    the first byte of each code point: a byte below 0x80 is a code point
    of its own, a byte from 0x80 to 0xBF continues one, a byte from 0xC0
    to 0xEF starts one of the basic plane and a byte from 0xF0 on starts
    one that takes a surrogate pair. *)
Definition codeUnits (byte : Ascii.ascii) : nat :=
  let n := Ascii.nat_of_ascii byte in
  if bool_decide (n < 128) then 1
  else if bool_decide (n < 192) then 0
  else if bool_decide (n < 240) then 1
  else 2.

Fixpoint jsLength (s : string) : nat :=
  match s with
  | EmptyString => 0
  | String byte s => codeUnits byte + jsLength s
  end.

(** ** [postJson] *)

(** The body of a non-2xx reply as [postJson] reads it. *)
Record ErrorPayload := {
  payload_error : option string;
  payload_message : option string;
}.

(** What [fetch] and [response.json()] can do for one request. *)
Inductive HttpReply (T : Type) :=
| FetchRejected (reason : string)
| NotOk (payload : option ErrorPayload)
| OkJson (body : T)
| OkNoJson (reason : string).
Arguments FetchRejected {T} reason.
Arguments NotOk {T} payload.
Arguments OkJson {T} body.
Arguments OkNoJson {T} reason.

(** Either the message of the thrown [Error] or the parsed body. *)
Definition postJson {T} (r : HttpReply T) : string + T :=
  match r with
  | FetchRejected reason => inl reason
  | NotOk payload =>
      inl (or_else (payload ≫= payload_error)
             (or_else (payload ≫= payload_message) "Request failed"))
  | OkJson body => inr body
  | OkNoJson reason => inl reason
  end.

(** ** Effects *)

Inductive ToastStatus := ToastError | ToastWarning.

Record EnqueueBody := {
  eb_userId : string;
  eb_chatId : string;
  eb_model : string;
  eb_isAuthenticated : bool;
  eb_systemPrompt : string;
  eb_enableSearch : bool;
  eb_messages : list AppMessage;
  eb_attachments : list Attachment;
}.

Record StatusBody := {
  sb_userId : string;
  sb_isAuthenticated : bool;
  sb_queueIds : list string;
}.

Record CancelBody := {
  cb_queueId : string;
  cb_userId : option string;
  cb_isAuthenticated : bool;
}.

Record RegenerateBody := {
  rb_chatId : string;
  rb_userId : string;
  rb_model : string;
  rb_isAuthenticated : bool;
  rb_systemPrompt : string;
}.

Inductive Effect :=
| Toast (title : string) (description : option string) (st : ToastStatus)
| ConsoleError (label : string) (message : string)
| PostEnqueue (body : EnqueueBody)
| PostStatus (body : StatusBody)
| PostCancel (body : CancelBody)
| Regenerate (body : RegenerateBody)
| CleanupOptimisticAttachments (urls : list string)
| CacheAndAddMessage (m : AppMessage)
| ClearDraft
| SetDraftValue (value : string)
| BumpChat (chat : string)
| SetFiles (fs : list File).

(** ** The state of one mounted hook *)

(** The props of [useChatCore] that the engine reads as data; the
    function-valued props are collaborators and appear as [Effect]s or as
    the awaited values of a [Task]. *)
Record Props := {
  chatId : option string;
  user : option UserProfile;
  files : list File;
  selectedModel : string;
}.

(** The variables of one [submit] call that its later segments read. *)
Record SubmitFrame := {
  sf_uid : string;
  sf_optimisticId : string;
  sf_input : string;
  sf_optimisticAttachments : list OptimisticAttachment;
  sf_optimisticMessage : AppMessage;
  sf_submittedFiles : list File;
  sf_messages : list AppMessage;
  sf_selectedModel : string;
  sf_isAuthenticated : bool;
  sf_systemPrompt : string;
  sf_enableSearch : bool;
}.

(** The variables captured by the [setInterval] callback: they are those
    of the [submit] call that armed the timer. *)
Record PollFrame := {
  pf_uid : string;
  pf_currentChatId : string;
  pf_selectedModel : string;
  pf_isAuthenticated : bool;
  pf_systemPrompt : string;
}.

(** A suspended [async] function, named after the call it awaits. *)
Inductive Task :=
| AwaitLimits (k : SubmitFrame)
| AwaitChat (k : SubmitFrame)
| AwaitUploads (k : SubmitFrame) (currentChatId : string)
| AwaitEnqueue (k : SubmitFrame) (currentChatId : string)
| AwaitStatus (k : PollFrame)
| AwaitCancel.

(** [pendingQueueJobs] stands for both the React state and
    [pendingQueueJobsRef]: [updatePendingQueueJobs] writes the two
    together.  [effectDep] is the value of [pendingQueueJobs.length] that
    the clearing effect saw when it last ran.  [tasks] holds the
    suspended calls, [nextTask] the next free handle. *)
Record Hook := {
  messages : list AppMessage;
  input : string;
  isSubmitting : bool;
  enableSearch : bool;
  pendingQueueJobs : list PendingQueueMessage;
  pollIntervalRef : option PollFrame;
  pollFailureCountRef : nat;
  hasSentFirstMessageRef : bool;
  prevChatIdRef : option string;
  props : Props;
  effectDep : nat;
  tasks : gmap nat Task;
  nextTask : nat;
}.

Definition setMessages (f : list AppMessage → list AppMessage) (s : Hook) : Hook :=
  {| messages := f (messages s); input := input s; isSubmitting := isSubmitting s;
     enableSearch := enableSearch s; pendingQueueJobs := pendingQueueJobs s;
     pollIntervalRef := pollIntervalRef s;
     pollFailureCountRef := pollFailureCountRef s;
     hasSentFirstMessageRef := hasSentFirstMessageRef s;
     prevChatIdRef := prevChatIdRef s; props := props s;
     effectDep := effectDep s; tasks := tasks s; nextTask := nextTask s |}.

Definition setInput (v : string) (s : Hook) : Hook :=
  {| messages := messages s; input := v; isSubmitting := isSubmitting s;
     enableSearch := enableSearch s; pendingQueueJobs := pendingQueueJobs s;
     pollIntervalRef := pollIntervalRef s;
     pollFailureCountRef := pollFailureCountRef s;
     hasSentFirstMessageRef := hasSentFirstMessageRef s;
     prevChatIdRef := prevChatIdRef s; props := props s;
     effectDep := effectDep s; tasks := tasks s; nextTask := nextTask s |}.

Definition setIsSubmitting (v : bool) (s : Hook) : Hook :=
  {| messages := messages s; input := input s; isSubmitting := v;
     enableSearch := enableSearch s; pendingQueueJobs := pendingQueueJobs s;
     pollIntervalRef := pollIntervalRef s;
     pollFailureCountRef := pollFailureCountRef s;
     hasSentFirstMessageRef := hasSentFirstMessageRef s;
     prevChatIdRef := prevChatIdRef s; props := props s;
     effectDep := effectDep s; tasks := tasks s; nextTask := nextTask s |}.

Definition setEnableSearch (v : bool) (s : Hook) : Hook :=
  {| messages := messages s; input := input s; isSubmitting := isSubmitting s;
     enableSearch := v; pendingQueueJobs := pendingQueueJobs s;
     pollIntervalRef := pollIntervalRef s;
     pollFailureCountRef := pollFailureCountRef s;
     hasSentFirstMessageRef := hasSentFirstMessageRef s;
     prevChatIdRef := prevChatIdRef s; props := props s;
     effectDep := effectDep s; tasks := tasks s; nextTask := nextTask s |}.

(** [updatePendingQueueJobs(updater)]. *)
Definition updatePendingQueueJobs
    (updater : list PendingQueueMessage → list PendingQueueMessage)
    (s : Hook) : Hook :=
  {| messages := messages s; input := input s; isSubmitting := isSubmitting s;
     enableSearch := enableSearch s;
     pendingQueueJobs := updater (pendingQueueJobs s);
     pollIntervalRef := pollIntervalRef s;
     pollFailureCountRef := pollFailureCountRef s;
     hasSentFirstMessageRef := hasSentFirstMessageRef s;
     prevChatIdRef := prevChatIdRef s; props := props s;
     effectDep := effectDep s; tasks := tasks s; nextTask := nextTask s |}.

Definition set_pollIntervalRef (v : option PollFrame) (s : Hook) : Hook :=
  {| messages := messages s; input := input s; isSubmitting := isSubmitting s;
     enableSearch := enableSearch s; pendingQueueJobs := pendingQueueJobs s;
     pollIntervalRef := v;
     pollFailureCountRef := pollFailureCountRef s;
     hasSentFirstMessageRef := hasSentFirstMessageRef s;
     prevChatIdRef := prevChatIdRef s; props := props s;
     effectDep := effectDep s; tasks := tasks s; nextTask := nextTask s |}.

Definition set_pollFailureCountRef (v : nat) (s : Hook) : Hook :=
  {| messages := messages s; input := input s; isSubmitting := isSubmitting s;
     enableSearch := enableSearch s; pendingQueueJobs := pendingQueueJobs s;
     pollIntervalRef := pollIntervalRef s;
     pollFailureCountRef := v;
     hasSentFirstMessageRef := hasSentFirstMessageRef s;
     prevChatIdRef := prevChatIdRef s; props := props s;
     effectDep := effectDep s; tasks := tasks s; nextTask := nextTask s |}.

Definition set_hasSentFirstMessageRef (v : bool) (s : Hook) : Hook :=
  {| messages := messages s; input := input s; isSubmitting := isSubmitting s;
     enableSearch := enableSearch s; pendingQueueJobs := pendingQueueJobs s;
     pollIntervalRef := pollIntervalRef s;
     pollFailureCountRef := pollFailureCountRef s;
     hasSentFirstMessageRef := v;
     prevChatIdRef := prevChatIdRef s; props := props s;
     effectDep := effectDep s; tasks := tasks s; nextTask := nextTask s |}.

Definition set_prevChatIdRef (v : option string) (s : Hook) : Hook :=
  {| messages := messages s; input := input s; isSubmitting := isSubmitting s;
     enableSearch := enableSearch s; pendingQueueJobs := pendingQueueJobs s;
     pollIntervalRef := pollIntervalRef s;
     pollFailureCountRef := pollFailureCountRef s;
     hasSentFirstMessageRef := hasSentFirstMessageRef s;
     prevChatIdRef := v; props := props s;
     effectDep := effectDep s; tasks := tasks s; nextTask := nextTask s |}.

Definition set_props (v : Props) (s : Hook) : Hook :=
  {| messages := messages s; input := input s; isSubmitting := isSubmitting s;
     enableSearch := enableSearch s; pendingQueueJobs := pendingQueueJobs s;
     pollIntervalRef := pollIntervalRef s;
     pollFailureCountRef := pollFailureCountRef s;
     hasSentFirstMessageRef := hasSentFirstMessageRef s;
     prevChatIdRef := prevChatIdRef s; props := v;
     effectDep := effectDep s; tasks := tasks s; nextTask := nextTask s |}.

Definition set_effectDep (v : nat) (s : Hook) : Hook :=
  {| messages := messages s; input := input s; isSubmitting := isSubmitting s;
     enableSearch := enableSearch s; pendingQueueJobs := pendingQueueJobs s;
     pollIntervalRef := pollIntervalRef s;
     pollFailureCountRef := pollFailureCountRef s;
     hasSentFirstMessageRef := hasSentFirstMessageRef s;
     prevChatIdRef := prevChatIdRef s; props := props s;
     effectDep := v; tasks := tasks s; nextTask := nextTask s |}.

(** Suspend the running function at an [await]. *)
Definition suspend (t : Task) (s : Hook) : Hook :=
  {| messages := messages s; input := input s; isSubmitting := isSubmitting s;
     enableSearch := enableSearch s; pendingQueueJobs := pendingQueueJobs s;
     pollIntervalRef := pollIntervalRef s;
     pollFailureCountRef := pollFailureCountRef s;
     hasSentFirstMessageRef := hasSentFirstMessageRef s;
     prevChatIdRef := prevChatIdRef s; props := props s;
     effectDep := effectDep s;
     tasks := <[nextTask s := t]> (tasks s); nextTask := S (nextTask s) |}.

(** Take a suspended function off the table when it is resumed. *)
Definition take (h : nat) (s : Hook) : Hook :=
  {| messages := messages s; input := input s; isSubmitting := isSubmitting s;
     enableSearch := enableSearch s; pendingQueueJobs := pendingQueueJobs s;
     pollIntervalRef := pollIntervalRef s;
     pollFailureCountRef := pollFailureCountRef s;
     hasSentFirstMessageRef := hasSentFirstMessageRef s;
     prevChatIdRef := prevChatIdRef s; props := props s;
     effectDep := effectDep s;
     tasks := delete h (tasks s); nextTask := nextTask s |}.

(** The hook as first mounted with props [p] and no prior messages. *)
Definition mount (p : Props) (initialMessages : list AppMessage)
    (draftValue : string) : Hook :=
  {| messages := initialMessages; input := draftValue; isSubmitting := false;
     enableSearch := false; pendingQueueJobs := [];
     pollIntervalRef := None; pollFailureCountRef := 0;
     hasSentFirstMessageRef := false;
     prevChatIdRef := chatId p; props := p;
     effectDep := 0; tasks := ∅; nextTask := 0 |}.

(** [isAuthenticated = !!user?.id]. *)
Definition isAuthenticated (s : Hook) : bool :=
  truthy (user_id <$> user (props s)).

(** ** Synchronous pieces shared by several paths *)

(** [clearPolling]. *)
Definition clearPolling (s : Hook) : Hook :=
  set_pollFailureCountRef 0 (set_pollIntervalRef None s).

(** The effect [if (!pendingQueueJobs.length) clearPolling()] with the
    dependency array [[pendingQueueJobs.length]]: it runs after a render
    in which the length differs from the one it last saw. *)
Definition commit (s : Hook) : Hook :=
  let n := length (pendingQueueJobs s) in
  if bool_decide (n = effectDep s) then s
  else set_effectDep n (if bool_decide (n = 0) then clearPolling s else s).

(** [prev.filter((m) => m.id !== optimisticId)]. *)
Definition evictMessage (optimisticId : string) (prev : list AppMessage) :=
  filter (λ m, msg_id m ≠ optimisticId) prev.

(** [prev.filter((item) => item.clientId !== optimisticId)]. *)
Definition evictJob (optimisticId : string) (prev : list PendingQueueMessage) :=
  filter (λ item, clientId item ≠ optimisticId) prev.

(** A settled promise. *)
Inductive Promise (A : Type) :=
| Fulfilled (value : A)
| Threw (reason : string).
Arguments Fulfilled {A} value.
Arguments Threw {A} reason.

(** What the environment hands back to a suspended function. *)
Inductive Outcome :=
| Limits (allowed : bool)
| Chat (currentChatId : option string)
| Uploads (attachments : option (list Attachment))
| EnqueueReply (r : HttpReply EnqueueResponse)
| StatusReply (r : HttpReply QueueStatusResponse)
| CancelReply (r : HttpReply CancelResponse)
| Rejected (reason : string).

(** What can happen to a mounted hook.  [ESubmit uid now created] is a
    call of [submit] whose guest-id lookup (line 216) resolves to [uid],
    taken together with that resolution; [ESubmitThrows reason] is a call
    of [submit] whose lookup rejects. *)
Inductive Event :=
| ERender (p : Props)
| EInputChange (value : string)
| ESetEnableSearch (value : bool)
| ESubmit (uid : option string) (now : N)
    (created : list OptimisticAttachment)
| ECancel (queueId : string)
| ETimer
| EResume (h : nat) (o : Outcome)
| ESubmitThrows (reason : string).

Section Engine.

(** The two constants imported from [@/lib/config], which is not part of
    the analysed sources. *)
Variable MESSAGE_MAX_LENGTH : N.
Variable SYSTEM_PROMPT_DEFAULT : string.

(** [systemPrompt = user?.system_prompt || SYSTEM_PROMPT_DEFAULT]. *)
Definition systemPrompt (s : Hook) : string :=
  or_else (user (props s) ≫= user_system_prompt) SYSTEM_PROMPT_DEFAULT.

(** ** Rendering *)

(** Lines 190-197: the only reaction of the hook to a change of
    [chatId]. *)
Definition render (p : Props) (s : Hook) : Hook * list Effect :=
  let s := set_props p s in
  let s :=
    if bool_decide (prevChatIdRef s ≠ None) && bool_decide (chatId p = None)
       && bool_decide (0 < length (messages s))
    then setMessages (λ _, []) s else s in
  (set_prevChatIdRef (chatId p) s, []).

(** [handleInputChange]. *)
Definition handleInputChange (value : string) (s : Hook) : Hook * list Effect :=
  (setInput value s, [SetDraftValue value]).

(** ** [submit] *)

Definition attachmentUrls (l : list OptimisticAttachment) : list string :=
  oa_url <$> l.

(** The synchronous head of [submit], from the resolved guest id to the
    first gate. *)
Definition submit (uid : option string) (now : N)
    (created : list OptimisticAttachment) (s : Hook) : Hook * list Effect :=
  let s := setIsSubmitting true s in
  match uid with
  | Some uid' =>
    if truthy uid then
      let optimisticId := "optimistic-" +:+ pretty now in
      let optimisticAttachments :=
        if bool_decide (0 < length (files (props s))) then created else [] in
      let parts :=
        TextPart (input s) ::
        ((λ a, FilePart (oa_name a) (oa_contentType a) (oa_url a))
           <$> optimisticAttachments) in
      let optimisticMessage :=
        {| msg_id := optimisticId; msg_role := RoleUser; msg_parts := parts;
           msg_createdAt := now; msg_content := input s;
           msg_experimental_attachments :=
             if bool_decide (0 < length optimisticAttachments)
             then Some optimisticAttachments else None |} in
      let queueMessage :=
        {| clientId := optimisticId; queueId := None; status := StPending;
           content := input s; createdAt := now;
           optimisticAttachments := optimisticAttachments |} in
      let k :=
        {| sf_uid := uid'; sf_optimisticId := optimisticId;
           sf_input := input s;
           sf_optimisticAttachments := optimisticAttachments;
           sf_optimisticMessage := optimisticMessage;
           sf_submittedFiles := files (props s);
           sf_messages := messages s;
           sf_selectedModel := selectedModel (props s);
           sf_isAuthenticated := isAuthenticated s;
           sf_systemPrompt := systemPrompt s;
           sf_enableSearch := enableSearch s |} in
      let s := setMessages (λ prev, prev ++ [optimisticMessage]) s in
      let s := set_hasSentFirstMessageRef true s in
      let s := setInput "" s in
      let s := updatePendingQueueJobs (λ prev, prev ++ [queueMessage]) s in
      (suspend (AwaitLimits k) s, [SetFiles []])
    else (setIsSubmitting false s, [])
  | None => (setIsSubmitting false s, [])
  end.

(** Lines 214-216 when [getOrCreateGuestUserId] rejects: the [await] is
    before the [try], so the call ends there in an unhandled rejection
    and neither the [catch] nor the [finally] runs. *)
Definition submit_lookup_rejected (s : Hook) : Hook * list Effect :=
  (setIsSubmitting true s, []).

(** The four early returns of [submit] (lines 267-272, 277-282, 290-295,
    302-307) and the [finally] that follows each. *)
Definition submit_reject (k : SubmitFrame) (s : Hook) : Hook * list Effect :=
  let s := setMessages (evictMessage (sf_optimisticId k)) s in
  let s := updatePendingQueueJobs (evictJob (sf_optimisticId k)) s in
  (setIsSubmitting false s,
   [CleanupOptimisticAttachments (attachmentUrls (sf_optimisticAttachments k))]).

Definition filePartUrls (parts : list Part) : list string :=
  omap (λ p, match p with FilePart _ _ url => Some url | TextPart _ => None end)
    parts.

(** The [catch] block of [submit] and its [finally]. *)
Definition submit_catch (k : SubmitFrame) (error : string) (s : Hook)
    : Hook * list Effect :=
  let s := setMessages (evictMessage (sf_optimisticId k)) s in
  let s := updatePendingQueueJobs (evictJob (sf_optimisticId k)) s in
  (setIsSubmitting false s,
   [ConsoleError "Failed to process queued submit" error;
    CleanupOptimisticAttachments
      (filePartUrls (msg_parts (sf_optimisticMessage k)));
    Toast "Failed to queue message" None ToastError]).

(** The request of lines 311-328, after which [submit] is suspended. *)
Definition submit_enqueue (k : SubmitFrame) (currentChatId : string)
    (attachments : list Attachment) (s : Hook) : Hook * list Effect :=
  (suspend (AwaitEnqueue k currentChatId) s,
   [PostEnqueue
      {| eb_userId := sf_uid k; eb_chatId := currentChatId;
         eb_model := sf_selectedModel k;
         eb_isAuthenticated := sf_isAuthenticated k;
         eb_systemPrompt := sf_systemPrompt k;
         eb_enableSearch := sf_enableSearch k;
         eb_messages :=
           sf_messages k ++
           [{| msg_id := sf_optimisticId k; msg_role := RoleUser;
               msg_parts := []; msg_createdAt := 0;
               msg_content := sf_input k;
               msg_experimental_attachments := None |}];
         eb_attachments := attachments |}]).

(** Lines 265-273. *)
Definition submit_after_limits (k : SubmitFrame) (allowed : bool) (s : Hook)
    : Hook * list Effect :=
  if allowed then (suspend (AwaitChat k) s, []) else submit_reject k s.

(** Lines 275-309. *)
Definition submit_after_chat (k : SubmitFrame) (currentChatId : option string)
    (s : Hook) : Hook * list Effect :=
  match currentChatId with
  | Some chat =>
    if negb (truthy currentChatId) then submit_reject k s
    else if bool_decide (MESSAGE_MAX_LENGTH < N.of_nat (jsLength (sf_input k)))%N then
      let '(s, effs) := submit_reject k s in
      (s,
       Toast ("The message you submitted was too long, please submit something shorter. (Max "
              +:+ pretty MESSAGE_MAX_LENGTH +:+ " characters)") None ToastError
       :: effs)
    else if bool_decide (0 < length (sf_submittedFiles k)) then
      (suspend (AwaitUploads k chat) s, [])
    else submit_enqueue k chat [] s
  | None => submit_reject k s
  end.

(** Lines 300-309. *)
Definition submit_after_uploads (k : SubmitFrame) (currentChatId : string)
    (attachments : option (list Attachment)) (s : Hook) : Hook * list Effect :=
  match attachments with
  | Some attachments => submit_enqueue k currentChatId attachments s
  | None => submit_reject k s
  end.

(** Lines 334-347: the job of this submission receives its server id. *)
Definition attachServerId (optimisticId : string) (q : EnqueuedJob)
    (prev : list PendingQueueMessage) : list PendingQueueMessage :=
  (λ item,
     if bool_decide (clientId item = optimisticId) then
       {| clientId := clientId item; queueId := Some (eq_id q);
          status := if bool_decide (eq_status q = "processing")
                    then StProcessing else StPending;
          content := content item; createdAt := createdAt item;
          optimisticAttachments := optimisticAttachments item |}
     else item) <$> prev.

(** Lines 349 and 428: [setInterval] is called only when no timer runs. *)
Definition armPolling (k : SubmitFrame) (currentChatId : string) (s : Hook)
    : Hook :=
  match pollIntervalRef s with
  | Some _ => s
  | None =>
      set_pollIntervalRef
        (Some {| pf_uid := sf_uid k; pf_currentChatId := currentChatId;
                 pf_selectedModel := sf_selectedModel k;
                 pf_isAuthenticated := sf_isAuthenticated k;
                 pf_systemPrompt := sf_systemPrompt k |}) s
  end.

(** Lines 330-439: what [submit] does with the parsed enqueue response. *)
Definition submit_after_enqueue (k : SubmitFrame) (currentChatId : string)
    (r : HttpReply EnqueueResponse) (s : Hook) : Hook * list Effect :=
  match postJson r with
  | inl error => submit_catch k error s
  | inr response =>
    match er_queue response with
    | Some q =>
      if negb (er_success response) || negb (truthy (Some (eq_id q))) then
        submit_catch k (or_else (er_error response) "Failed to enqueue prompt") s
      else
        let s := updatePendingQueueJobs (attachServerId (sf_optimisticId k) q) s in
        let s := armPolling k currentChatId s in
        let s := setMessages (evictMessage (sf_optimisticId k)) s in
        let s := setInput "" s in
        (setIsSubmitting false s,
         [CleanupOptimisticAttachments
            (attachmentUrls (sf_optimisticAttachments k));
          CacheAndAddMessage (sf_optimisticMessage k);
          ClearDraft]
         ++ (if bool_decide (0 < length (sf_messages k))
             then [BumpChat currentChatId] else []))
    | None =>
        submit_catch k (or_else (er_error response) "Failed to enqueue prompt") s
    end
  end.

(** ** The poll tick *)

(** Lines 358-360: the server ids of the jobs that have one. *)
Definition queueIdsOf (activeJobs : list PendingQueueMessage) : list string :=
  omap (λ job, if truthy (queueId job) then queueId job else None) activeJobs.

(** The synchronous head of the interval callback (lines 351-373). *)
Definition pollTick (k : PollFrame) (s : Hook) : Hook * list Effect :=
  let activeJobs := pendingQueueJobs s in
  if bool_decide (length activeJobs = 0) then (clearPolling s, [])
  else
    let queueIds := queueIdsOf activeJobs in
    if bool_decide (length queueIds = 0) then (s, [])
    else
      (suspend (AwaitStatus k) s,
       [PostStatus {| sb_userId := pf_uid k;
                      sb_isAuthenticated := pf_isAuthenticated k;
                      sb_queueIds := queueIds |}]).

(** The three exits of the [filter] callback of lines 391-401. *)
Inductive Verdict := Keep | DropFailed | DropCompleted.

Global Instance Verdict_eq_dec : EqDecision Verdict.
Proof. solve_decision. Defined.

Definition verdict (completedIds failedIds : gset string)
    (job : PendingQueueMessage) : Verdict :=
  match queueId job with
  | Some q =>
    if negb (truthy (queueId job)) then Keep
    else if bool_decide (q ∈ failedIds) then DropFailed
    else if bool_decide (q ∈ completedIds) then DropCompleted
    else Keep
  | None => Keep
  end.

(** Lines 379-384. *)
Definition completedOf (queue : list QueueStatusItem) : list QueueStatusItem :=
  filter (λ job, qs_status job = completed) queue.

Definition failedOf (queue : list QueueStatusItem) : list QueueStatusItem :=
  filter (λ job, qs_status job = failed ∨ qs_status job = cancelled) queue.

(** Lines 386-415.  The filter callback, and with it the toasts, runs
    when React processes the update, after [regenerate] was called. *)
Definition reconcile (k : PollFrame) (queue : list QueueStatusItem) (s : Hook)
    : Hook * list Effect :=
  let completed := completedOf queue in
  let failed := failedOf queue in
  if bool_decide (0 < length completed) || bool_decide (0 < length failed) then
    let completedIds : gset string := list_to_set (qs_id <$> completed) in
    let failedIds : gset string := list_to_set (qs_id <$> failed) in
    let prev := pendingQueueJobs s in
    (updatePendingQueueJobs
       (filter (λ job, verdict completedIds failedIds job = Keep)) s,
     (if bool_decide (0 < length completed)
      then [Regenerate
              {| rb_chatId := pf_currentChatId k; rb_userId := pf_uid k;
                 rb_model := pf_selectedModel k;
                 rb_isAuthenticated := pf_isAuthenticated k;
                 rb_systemPrompt := pf_systemPrompt k |}]
      else [])
     ++ ((λ _, Toast "Queued message failed" None ToastError)
           <$> filter (λ job, verdict completedIds failedIds job = DropFailed)
                 prev))
  else (s, []).

(** The [catch] block of the interval callback (lines 416-427). *)
Definition pollTick_catch (error : string) (s : Hook) : Hook * list Effect :=
  let s := set_pollFailureCountRef (pollFailureCountRef s + 1) s in
  if bool_decide (MAX_QUEUE_POLL_FAILURES ≤ pollFailureCountRef s) then
    (clearPolling s,
     [ConsoleError "Failed to poll queue status" error;
      Toast "Queue updates paused"
        (Some "Stopped polling after repeated failures.") ToastWarning])
  else (s, [ConsoleError "Failed to poll queue status" error]).

(** Lines 375-415 and the [catch]: the callback after its request. *)
Definition pollTick_after_status (k : PollFrame)
    (r : HttpReply QueueStatusResponse) (s : Hook) : Hook * list Effect :=
  match postJson r with
  | inl error => pollTick_catch error s
  | inr statusResponse =>
    if negb (sr_success statusResponse) then
      pollTick_catch
        (or_else (sr_error statusResponse) "Failed to fetch queue status") s
    else reconcile k (sr_queue statusResponse) s
  end.

(** ** [handleCancelQueuedJob] *)

(** The synchronous head (lines 574-586). *)
Definition handleCancelQueuedJob (q : string) (s : Hook) : Hook * list Effect :=
  let s := updatePendingQueueJobs (filter (λ job, queueId job ≠ Some q)) s in
  (suspend AwaitCancel s,
   [PostCancel {| cb_queueId := q;
                  cb_userId := user_id <$> user (props s);
                  cb_isAuthenticated := isAuthenticated s |}]).

(** Lines 587-590: only a thrown request is reported. *)
Definition cancel_after_reply (r : HttpReply CancelResponse) (s : Hook)
    : Hook * list Effect :=
  match postJson r with
  | inl error =>
      (s, [ConsoleError "Failed to cancel queue job" error;
           Toast "Failed to cancel job" None ToastError])
  | inr _ => (s, [])
  end.

(** ** The event loop *)

(** Resume a suspended function with what it awaited; [None] when the
    value is not one the awaited call can produce. *)
Definition resume (t : Task) (o : Outcome) (s : Hook)
    : option (Hook * list Effect) :=
  match t, o with
  | AwaitLimits k, Limits allowed => Some (submit_after_limits k allowed s)
  | AwaitChat k, Chat c => Some (submit_after_chat k c s)
  | AwaitUploads k c, Uploads a => Some (submit_after_uploads k c a s)
  | AwaitEnqueue k c, EnqueueReply r => Some (submit_after_enqueue k c r s)
  | AwaitLimits k, Rejected e
  | AwaitChat k, Rejected e
  | AwaitUploads k _, Rejected e => Some (submit_catch k e s)
  | AwaitStatus k, StatusReply r => Some (pollTick_after_status k r s)
  | AwaitCancel, CancelReply r => Some (cancel_after_reply r s)
  | _, _ => None
  end.

(** One turn of the event loop, before the render that follows it. *)
Definition handle (ev : Event) (s : Hook) : Hook * list Effect :=
  match ev with
  | ERender p => render p s
  | EInputChange v => handleInputChange v s
  | ESetEnableSearch v => (setEnableSearch v s, [])
  | ESubmit uid now created => submit uid now created s
  | ECancel q => handleCancelQueuedJob q s
  | ETimer =>
      match pollIntervalRef s with
      | Some k => pollTick k s
      | None => (s, [])
      end
  | EResume h o =>
      match tasks s !! h with
      | Some t => default (s, []) (resume t o (take h s))
      | None => (s, [])
      end
  | ESubmitThrows _ => submit_lookup_rejected s
  end.

(** One turn followed by the render it causes and the effect of that
    render. *)
Definition step (ev : Event) (s : Hook) : Hook * list Effect :=
  let '(s', effs) := handle ev s in (commit s', effs).

(** A whole trace, with everything it made the collaborators see. *)
Fixpoint run (evs : list Event) (s : Hook) : Hook * list Effect :=
  match evs with
  | [] => (s, [])
  | ev :: evs =>
      let '(s1, e1) := step ev s in
      let '(s2, e2) := run evs s1 in
      (s2, e1 ++ e2)
  end.

(** ** One submission driven to its end *)

(** How the collaborators of one [submit] call settle: each of the three
    awaited functions resolves to a value or rejects, and the enqueue
    request gets some reply. *)
Record Collaborators := {
  checkLimitsAndNotify : Promise bool;
  ensureChatExists : Promise (option string);
  handleFileUploads : Promise (option (list Attachment));
  enqueueEndpoint : HttpReply EnqueueResponse;
}.

(** The outcome of an awaited promise. *)
Definition settled {A} (value : A → Outcome) (p : Promise A) : Outcome :=
  match p with
  | Fulfilled v => value v
  | Threw reason => Rejected reason
  end.

(** What a suspended [submit] receives from these collaborators. *)
Definition answer (env : Collaborators) (t : Task) : option Outcome :=
  match t with
  | AwaitLimits _ => Some (settled Limits (checkLimitsAndNotify env))
  | AwaitChat _ => Some (settled Chat (ensureChatExists env))
  | AwaitUploads _ _ => Some (settled Uploads (handleFileUploads env))
  | AwaitEnqueue _ _ => Some (EnqueueReply (enqueueEndpoint env))
  | AwaitStatus _ | AwaitCancel => None
  end.

(** Resume the function suspended at [h] until it returns, with nothing
    else scheduled in between.  A segment that suspends again does so at
    the handle [nextTask] had before it ran. *)
Fixpoint settle (fuel : nat) (env : Collaborators) (h : nat) (s : Hook)
    : Hook * list Effect :=
  match fuel with
  | 0 => (s, [])
  | S fuel =>
    match tasks s !! h ≫= answer env with
    | Some o =>
      let '(s1, e1) := step (EResume h o) s in
      if bool_decide (nextTask s1 = nextTask s) then (s1, e1)
      else let '(s2, e2) := settle fuel env (nextTask s) s1 in (s2, e1 ++ e2)
    | None => (s, [])
    end
  end.

(** A whole [submit] call: its head, then its four awaits at most. *)
Definition submission (env : Collaborators) (uid : option string) (now : N)
    (created : list OptimisticAttachment) (s : Hook) : Hook * list Effect :=
  let '(s1, e1) := step (ESubmit uid now created) s in
  if bool_decide (nextTask s1 = nextTask s) then (s1, e1)
  else let '(s2, e2) := settle 4 env (nextTask s) s1 in (s2, e1 ++ e2).

(** ** Observations *)

Definition optimisticIdAt (now : N) : string := "optimistic-" +:+ pretty now.

Definition hasMessage (c : string) (s : Hook) : bool :=
  bool_decide (c ∈ msg_id <$> messages s).

Definition hasJob (c : string) (s : Hook) : bool :=
  bool_decide (c ∈ clientId <$> pendingQueueJobs s).

Definition isRegenerate (e : Effect) : bool :=
  match e with Regenerate _ => true | _ => false end.

Definition isPostEnqueue (e : Effect) : bool :=
  match e with PostEnqueue _ => true | _ => false end.

Definition isNetworkCall (e : Effect) : bool :=
  match e with
  | PostEnqueue _ | PostStatus _ | PostCancel _ => true
  | _ => false
  end.

Definition isToast (e : Effect) : bool :=
  match e with Toast _ _ _ => true | _ => false end.

Definition count (p : Effect → bool) (effs : list Effect) : nat :=
  length (filter (λ e, p e) effs).

(** The server statuses after which a job is dropped from the table. *)
Definition terminal (st : QueueStatus) : bool :=
  match st with
  | completed | failed | cancelled => true
  | pending | processing => false
  end.

(** A tick ends in an error when [postJson] throws or the body says
    [success: false]. *)
Definition tickFails (r : HttpReply QueueStatusResponse) : bool :=
  match postJson r with
  | inl _ => true
  | inr statusResponse => negb (sr_success statusResponse)
  end.

(** The frame of a suspended [submit]. *)
Definition frame_of (t : Task) : option SubmitFrame :=
  match t with
  | AwaitLimits k | AwaitChat k | AwaitUploads k _ | AwaitEnqueue k _ => Some k
  | AwaitStatus _ | AwaitCancel => None
  end.

(** ** Sessions *)

(** The clock is assumed to give a submission an identifier that no job
    in the table carries. *)
Definition fresh (ev : Event) (s : Hook) : Prop :=
  match ev with
  | ESubmit _ now _ => optimisticIdAt now ∉ clientId <$> pendingQueueJobs s
  | _ => True
  end.

Global Instance fresh_dec ev s : Decision (fresh ev s).
Proof. destruct ev; simpl; apply _. Defined.

(** The states a mounted hook can be in. *)
Inductive reachable : Hook → Prop :=
| reachable_mount p initialMessages draftValue :
    reachable (mount p initialMessages draftValue)
| reachable_step ev s :
    reachable s → fresh ev s → reachable (step ev s).1.

(** All submissions of a trace get fresh identifiers. *)
Fixpoint freshTrace (evs : list Event) (s : Hook) : bool :=
  match evs with
  | [] => true
  | ev :: evs => bool_decide (fresh ev s) && freshTrace evs (step ev s).1
  end.

(** What holds of the table, the transcript, the suspended submissions
    and the timer in every reachable state. *)
Record Inv (s : Hook) : Prop := {
  inv_evicted : ∀ job m,
    job ∈ pendingQueueJobs s → queueId job ≠ None →
    m ∈ messages s → msg_id m ≠ clientId job;
  inv_nodup : NoDup (clientId <$> pendingQueueJobs s);
  inv_server_id : ∀ job,
    job ∈ pendingQueueJobs s → queueId job ≠ Some "";
  inv_task_job : ∀ h t k,
    tasks s !! h = Some t → frame_of t = Some k →
    ∃ job, job ∈ pendingQueueJobs s ∧ clientId job = sf_optimisticId k
           ∧ queueId job = None;
  inv_task_ids : ∀ h1 h2 t1 t2 k1 k2,
    tasks s !! h1 = Some t1 → tasks s !! h2 = Some t2 →
    frame_of t1 = Some k1 → frame_of t2 = Some k2 →
    sf_optimisticId k1 = sf_optimisticId k2 → h1 = h2;
  inv_armed : pollIntervalRef s ≠ None → pendingQueueJobs s ≠ [];
  inv_dep : effectDep s = length (pendingQueueJobs s);
  inv_count : pollFailureCountRef s < MAX_QUEUE_POLL_FAILURES;
}.

(** ** Auxiliary notions of the proofs *)

(** The outcome of a submission: both optimistic entries gone and the
    enqueue endpoint not contacted. *)
Definition rejected (c : string) (r : Hook * list Effect) : Prop :=
  hasMessage c r.1 = false ∧ hasJob c r.1 = false ∧
  count isPostEnqueue r.2 = 0.

(** The chat bootstrap resolves without a chat id ([null] or the empty
    string). *)
Definition answersNoChat (p : Promise (option string)) : Prop :=
  ∃ currentChatId, p = Fulfilled currentChatId ∧ truthy currentChatId = false.

(** The gates still ahead of a suspended [submit], and whether one of
    them will fail. *)
Definition gateFails (env : Collaborators) (t : Task) : Prop :=
  match t with
  | AwaitLimits k =>
      checkLimitsAndNotify env = Fulfilled false
      ∨ answersNoChat (ensureChatExists env)
      ∨ (MESSAGE_MAX_LENGTH < N.of_nat (jsLength (sf_input k)))%N
      ∨ (0 < length (sf_submittedFiles k)
         ∧ handleFileUploads env = Fulfilled None)
  | AwaitChat k =>
      answersNoChat (ensureChatExists env)
      ∨ (MESSAGE_MAX_LENGTH < N.of_nat (jsLength (sf_input k)))%N
      ∨ (0 < length (sf_submittedFiles k)
         ∧ handleFileUploads env = Fulfilled None)
  | AwaitUploads k _ => handleFileUploads env = Fulfilled None
  | _ => False
  end.

(** The awaited value [o] makes the gate at which [t] waits fail. *)
Definition turnsDown (t : Task) (o : Outcome) : Prop :=
  match t, o with
  | AwaitLimits _, Limits allowed => allowed = false
  | AwaitChat k, Chat currentChatId =>
      truthy currentChatId = false
      ∨ (MESSAGE_MAX_LENGTH < N.of_nat (jsLength (sf_input k)))%N
  | AwaitUploads _ _, Uploads attachments => attachments = None
  | _, _ => False
  end.

(** The part of [Inv] that a turn keeps before the render. *)
Record Core (s : Hook) : Prop := {
  core_evicted : ∀ job m,
    job ∈ pendingQueueJobs s → queueId job ≠ None →
    m ∈ messages s → msg_id m ≠ clientId job;
  core_nodup : NoDup (clientId <$> pendingQueueJobs s);
  core_server_id : ∀ job,
    job ∈ pendingQueueJobs s → queueId job ≠ Some "";
  core_task_job : ∀ h t k,
    tasks s !! h = Some t → frame_of t = Some k →
    ∃ job, job ∈ pendingQueueJobs s ∧ clientId job = sf_optimisticId k
           ∧ queueId job = None;
  core_task_ids : ∀ h1 h2 t1 t2 k1 k2,
    tasks s !! h1 = Some t1 → tasks s !! h2 = Some t2 →
    frame_of t1 = Some k1 → frame_of t2 = Some k2 →
    sf_optimisticId k1 = sf_optimisticId k2 → h1 = h2;
  core_count : pollFailureCountRef s < MAX_QUEUE_POLL_FAILURES;
}.

(** What a turn that starts in [s] leaves for the render to settle. *)
Definition Turn (s s' : Hook) : Prop :=
  Core s' ∧ effectDep s' = effectDep s ∧
  (pollIntervalRef s' ≠ None →
   pollIntervalRef s ≠ None ∨ pendingQueueJobs s' ≠ []).

(** Suspended submissions of [s'] are suspended submissions of [s]. *)
Definition submissionsWithin (s' s : Hook) : Prop :=
  ∀ h t k, tasks s' !! h = Some t → frame_of t = Some k →
           tasks s !! h = Some t.

(** ** Transitions named by the properties *)

(** The turn [ev] removes the transcript entry [c]: it is there before
    and gone after. *)
Definition evicts (ev : Event) (s : Hook) (c : string) : Prop :=
  hasMessage c s = true ∧ hasMessage c (step ev s).1 = false.

(** [ev] is the end of a poll tick that fails and brings the failure
    counter to its ceiling. *)
Definition ceilingReached (ev : Event) (s : Hook) : Prop :=
  ∃ h k r, ev = EResume h (StatusReply r)
           ∧ tasks s !! h = Some (AwaitStatus k)
           ∧ tickFails r = true
           ∧ MAX_QUEUE_POLL_FAILURES ≤ pollFailureCountRef s + 1.

(** [ev] is the successful end of an enqueue request. *)
Definition enqueueSucceeds (ev : Event) (s : Hook) : Prop :=
  ∃ h k chat r response q,
    ev = EResume h (EnqueueReply r)
    ∧ tasks s !! h = Some (AwaitEnqueue k chat)
    ∧ postJson r = inr response
    ∧ er_success response = true
    ∧ er_queue response = Some q
    ∧ truthy (Some (eq_id q)) = true.

(** The poll tick that ends with reply [r] reports server id [q] in a
    terminal status. *)
Definition reportsTerminal (r : HttpReply QueueStatusResponse) (q : string)
    : Prop :=
  ∃ statusResponse item,
    postJson r = inr statusResponse ∧ sr_success statusResponse = true
    ∧ item ∈ sr_queue statusResponse ∧ qs_id item = q
    ∧ terminal (qs_status item) = true.

(** The user ids that the guest-id lookup resolved for the submissions of
    a trace. *)
Definition submittedUids (evs : list Event) : list string :=
  omap (λ ev, match ev with ESubmit uid _ _ => uid | _ => None end) evs.

(** The props a trace renders the hook with. *)
Definition renderedProps (evs : list Event) : list Props :=
  omap (λ ev, match ev with ERender p => Some p | _ => None end) evs.

(** The user id a suspended call will put in its next request. *)
Definition taskUid (t : Task) : option string :=
  match t with
  | AwaitLimits k | AwaitChat k | AwaitUploads k _ | AwaitEnqueue k _ =>
      Some (sf_uid k)
  | AwaitStatus k => Some (pf_uid k)
  | AwaitCancel => None
  end.

(** Every user id held by a suspended call or by the timer is in [U]. *)
Definition UidsFrom (U : list string) (s : Hook) : Prop :=
  (∀ h t u, tasks s !! h = Some t → taskUid t = Some u → u ∈ U) ∧
  (∀ k, pollIntervalRef s = Some k → pf_uid k ∈ U).

(** The requests among [effs] carry user ids of [U], the cancel requests
    carry [profileId]. *)
Definition requestsUse (U : list string) (profileId : option string)
    (effs : list Effect) : Prop :=
  (∀ b, PostEnqueue b ∈ effs → eb_userId b ∈ U) ∧
  (∀ b, PostStatus b ∈ effs → sb_userId b ∈ U) ∧
  (∀ b, PostCancel b ∈ effs → cb_userId b = profileId).

(** ** The rest of the hook *)

(** The entry that [submit] appends to the table (lines 252-258). *)
Definition queueMessageOf (now : N) (created : list OptimisticAttachment)
    (s : Hook) : PendingQueueMessage :=
  {| clientId := optimisticIdAt now; queueId := None; status := StPending;
     content := input s; createdAt := now;
     optimisticAttachments :=
       if bool_decide (0 < length (files (props s))) then created else [] |}.

(** What of an entry is fixed when it is created. *)
Definition entryData (job : PendingQueueMessage)
    : string * string * N * list OptimisticAttachment :=
  (clientId job, content job, createdAt job, optimisticAttachments job).

(** The reply reports the server id of [job] as failed or cancelled. *)
Definition reportedFailed (queue : list QueueStatusItem)
    (job : PendingQueueMessage) : bool :=
  match queueId job with
  | Some q =>
      negb (bool_decide (q = ""))
      && existsb (λ item, bool_decide (qs_id item = q)
                          && (bool_decide (qs_status item = failed)
                              || bool_decide (qs_status item = cancelled)))
           queue
  | None => false
  end.

(** The reply reports the server id of [job] in a terminal status. *)
Definition reportedTerminal (queue : list QueueStatusItem)
    (job : PendingQueueMessage) : Prop :=
  ∃ q item, queueId job = Some q ∧ q ≠ "" ∧ item ∈ queue ∧ qs_id item = q
            ∧ terminal (qs_status item) = true.

(** [handleError], the [onError] callback of [useChat] (lines 146-159),
    on the message of the error. *)
Definition errorTitle (message : string) : string :=
  let errorMsg := or_else (Some message) "Something went wrong." in
  if bool_decide (errorMsg = "An error occurred")
     || bool_decide (errorMsg = "fetch failed")
  then "Something went wrong. Please try again."
  else errorMsg.

Definition handleError (message : string) : list Effect :=
  [ConsoleError "Chat error:" message;
   ConsoleError "Error message:" message;
   Toast (errorTitle message) None ToastError].

(** The body that [handleReload] passes to [regenerate]: its [chatId] is
    the prop, which may be [null]. *)
Record ReloadBody := {
  lb_chatId : option string;
  lb_userId : string;
  lb_model : string;
  lb_isAuthenticated : bool;
  lb_systemPrompt : string;
}.

(** The calls into the conversation layer that [handleSuggestion] and
    [handleReload] make. *)
Inductive ChatCall :=
| SendMessage (text : string) (body : RegenerateBody)
| Reload (body : ReloadBody).

(** What these two functions do, in order: effects of the engine and
    calls into the conversation layer. *)
Definition Act : Type := Effect + ChatCall.

(** [handleReload] after its guest-id lookup (lines 555-569). *)
Definition handleReload (uid : option string) (s : Hook) : list Act :=
  match uid with
  | Some uid' =>
    if truthy uid then
      [inr (Reload {| lb_chatId := chatId (props s); lb_userId := uid';
                      lb_model := selectedModel (props s);
                      lb_isAuthenticated := isAuthenticated s;
                      lb_systemPrompt :=
                        or_else (Some (systemPrompt s))
                          SYSTEM_PROMPT_DEFAULT |})]
    else []
  | None => []
  end.

(** The variables of one [handleSuggestion] call that its later segments
    read. *)
Record SuggestionFrame := {
  gf_optimisticId : string;
  gf_suggestion : string;
  gf_selectedModel : string;
  gf_isAuthenticated : bool;
}.

(** A suspended [handleSuggestion], named after the call it awaits. *)
Inductive SuggestionTask :=
| SuggestAwaitUid (k : SuggestionFrame)
| SuggestAwaitLimits (k : SuggestionFrame) (uid : string)
| SuggestAwaitChat (k : SuggestionFrame) (uid : string)
| SuggestAwaitSend (k : SuggestionFrame).

(** What the environment hands back to a suspended [handleSuggestion]. *)
Inductive SuggestionOutcome :=
| GuestId (uid : option string)
| SuggestLimits (allowed : bool)
| SuggestChat (currentChatId : option string)
| Sent
| SuggestRejected (reason : string).

(** The synchronous head of [handleSuggestion] (lines 488-502). *)
Definition suggestion_head (suggestion : string) (now : N) (s : Hook)
    : Hook * list Act * option SuggestionTask :=
  let s := setIsSubmitting true s in
  let optimisticId := optimisticIdAt now in
  let optimisticMessage :=
    {| msg_id := optimisticId; msg_role := RoleUser;
       msg_parts := [TextPart suggestion]; msg_createdAt := now;
       msg_content := suggestion; msg_experimental_attachments := None |} in
  let k := {| gf_optimisticId := optimisticId; gf_suggestion := suggestion;
              gf_selectedModel := selectedModel (props s);
              gf_isAuthenticated := isAuthenticated s |} in
  let s := setMessages (λ prev, prev ++ [optimisticMessage]) s in
  let s := set_hasSentFirstMessageRef true s in
  (s, [], Some (SuggestAwaitUid k)).

(** The early returns of [handleSuggestion] and the end of its [try]
    block, each followed by the [finally]. *)
Definition suggestion_return (k : SuggestionFrame) (s : Hook)
    : Hook * list Act * option SuggestionTask :=
  (setIsSubmitting false
     (setMessages (evictMessage (gf_optimisticId k)) s), [], None).

(** The [catch] block of [handleSuggestion] and its [finally]. *)
Definition suggestion_catch (k : SuggestionFrame) (s : Hook)
    : Hook * list Act * option SuggestionTask :=
  (setIsSubmitting false
     (setMessages (evictMessage (gf_optimisticId k)) s),
   [inl (Toast "Failed to send suggestion" None ToastError)], None).

(** Resume a suspended [handleSuggestion] (lines 502-540); [None] when
    the value is not one the awaited call can produce. *)
Definition suggestion_resume (t : SuggestionTask) (o : SuggestionOutcome)
    (s : Hook) : option (Hook * list Act * option SuggestionTask) :=
  match t, o with
  | SuggestAwaitUid k, GuestId uid =>
      Some (match uid with
            | Some uid' =>
                if truthy uid then (s, [], Some (SuggestAwaitLimits k uid'))
                else suggestion_return k s
            | None => suggestion_return k s
            end)
  | SuggestAwaitLimits k uid, SuggestLimits allowed =>
      Some (if allowed then (s, [], Some (SuggestAwaitChat k uid))
            else suggestion_return k s)
  | SuggestAwaitChat k uid, SuggestChat currentChatId =>
      Some (match currentChatId with
            | Some chat =>
                if truthy currentChatId then
                  (s,
                   [inr (SendMessage (gf_suggestion k)
                           {| rb_chatId := chat; rb_userId := uid;
                              rb_model := gf_selectedModel k;
                              rb_isAuthenticated := gf_isAuthenticated k;
                              rb_systemPrompt := SYSTEM_PROMPT_DEFAULT |})],
                   Some (SuggestAwaitSend k))
                else suggestion_return k s
            | None => suggestion_return k s
            end)
  | SuggestAwaitSend k, Sent => Some (suggestion_return k s)
  | SuggestAwaitUid k, SuggestRejected _
  | SuggestAwaitLimits k _, SuggestRejected _
  | SuggestAwaitChat k _, SuggestRejected _
  | SuggestAwaitSend k, SuggestRejected _ => Some (suggestion_catch k s)
  | _, _ => None
  end.

(** The frame of a suspended [handleSuggestion]. *)
Definition suggestionFrame (t : SuggestionTask) : SuggestionFrame :=
  match t with
  | SuggestAwaitUid k | SuggestAwaitLimits k _ | SuggestAwaitChat k _
  | SuggestAwaitSend k => k
  end.

(** The values the collaborators of one [handleSuggestion] call
    produce. *)
Record SuggestionCollaborators := {
  getOrCreateGuestUserId : Promise (option string);
  suggestionLimits : Promise bool;
  suggestionChat : Promise (option string);
  sendMessage : Promise unit;
}.

Definition suggestionAnswer (env : SuggestionCollaborators)
    (t : SuggestionTask) : SuggestionOutcome :=
  match t with
  | SuggestAwaitUid _ =>
      match getOrCreateGuestUserId env with
      | Fulfilled uid => GuestId uid | Threw e => SuggestRejected e end
  | SuggestAwaitLimits _ _ =>
      match suggestionLimits env with
      | Fulfilled b => SuggestLimits b | Threw e => SuggestRejected e end
  | SuggestAwaitChat _ _ =>
      match suggestionChat env with
      | Fulfilled c => SuggestChat c | Threw e => SuggestRejected e end
  | SuggestAwaitSend _ =>
      match sendMessage env with
      | Fulfilled _ => Sent | Threw e => SuggestRejected e end
  end.

(** Resume a suspended [handleSuggestion] until it returns, with nothing
    else scheduled in between. *)
Fixpoint suggestion_settle (fuel : nat) (env : SuggestionCollaborators)
    (t : option SuggestionTask) (s : Hook) : Hook * list Act :=
  match fuel, t with
  | S fuel, Some t =>
    match suggestion_resume t (suggestionAnswer env t) s with
    | Some (s1, a1, t1) =>
        let '(s2, a2) := suggestion_settle fuel env t1 s1 in (s2, a1 ++ a2)
    | None => (s, [])
    end
  | _, _ => (s, [])
  end.

(** A whole [handleSuggestion] call: its head, then its four awaits at
    most. *)
Definition handleSuggestion (env : SuggestionCollaborators)
    (suggestion : string) (now : N) (s : Hook) : Hook * list Act :=
  let '(s1, a1, t1) := suggestion_head suggestion now s in
  let '(s2, a2) := suggestion_settle 4 env t1 s1 in (s2, a1 ++ a2).

Definition isSendMessage (a : Act) : bool :=
  match a with inr (SendMessage _ _) => true | _ => false end.

Definition isActToast (a : Act) : bool :=
  match a with inl (Toast _ _ _) => true | _ => false end.

(** The awaits a suspended [submit] has ahead of it at most. *)
Definition awaitsLeft (t : Task) : nat :=
  match t with
  | AwaitLimits _ => 4
  | AwaitChat _ => 3
  | AwaitUploads _ _ => 2
  | AwaitEnqueue _ _ => 1
  | AwaitStatus _ | AwaitCancel => 0
  end.






(** The awaits a suspended [handleSuggestion] has ahead of it at most. *)
Definition suggestionAwaits (t : option SuggestionTask) : nat :=
  match t with
  | Some (SuggestAwaitUid _) => 4
  | Some (SuggestAwaitLimits _ _) => 3
  | Some (SuggestAwaitChat _ _) => 2
  | Some (SuggestAwaitSend _) => 1
  | None => 0
  end.

(** ** Example sessions *)

(** A guest: no user profile, no chat yet, no files picked. *)
Definition guest : Props :=
  {| chatId := None; user := None; files := [];
     selectedModel := "gpt-4.1-nano" |}.

Definition session0 : Hook := mount guest [] "".

Definition enqueued (id st : string) : Outcome :=
  EnqueueReply
    (OkJson {| er_success := true;
               er_queue := Some {| eq_id := id; eq_status := st |};
               er_error := None |}).

Definition refused (error : string) : HttpReply EnqueueResponse :=
  OkJson {| er_success := false; er_queue := None; er_error := Some error |}.

Definition statusOk (queue : list QueueStatusItem)
    : HttpReply QueueStatusResponse :=
  OkJson {| sr_success := true; sr_queue := queue; sr_error := None |}.

Definition offline : HttpReply QueueStatusResponse :=
  FetchRejected "Failed to fetch".

(** The prompt "Hello" typed, submitted at clock reading 1700000000000
    and passed through the gates, up to the enqueue request. *)
Definition helloSubmitted : list Event :=
  [EInputChange "Hello"; ESubmit (Some "guest-1") 1700000000000 [];
   EResume 0 (Limits true); EResume 1 (Chat (Some "chat-1"))].

(** The same, enqueued as [q1]. *)
Definition helloEnqueued : list Event :=
  helloSubmitted ++ [EResume 2 (enqueued "q1" "pending")].

(** A second prompt submitted one millisecond later, still at its first
    gate. *)
Definition secondSubmitted : list Event :=
  [EInputChange "And again"; ESubmit (Some "guest-1") 1700000000001 []].

(** A second prompt enqueued as [q2] by the functions suspended at
    handles [h], [h + 1] and [h + 2]. *)
Definition secondEnqueued (h : nat) : list Event :=
  secondSubmitted ++
  [EResume h (Limits true); EResume (h + 1) (Chat (Some "chat-1"));
   EResume (h + 2) (enqueued "q2" "pending")].

(** [n] poll ticks that all fail in transport; the first one is the
    function suspended at handle [h]. *)
Fixpoint failedTicks (n h : nat) : list Event :=
  match n with
  | 0 => []
  | S n => ETimer :: EResume h (StatusReply offline) :: failedTicks n (S h)
  end.

(** The table entry of "Hello" once it is enqueued as [q1]. *)
Definition helloJob : PendingQueueMessage :=
  {| clientId := "optimistic-1700000000000"; queueId := Some "q1";
     status := StPending; content := "Hello"; createdAt := 1700000000000;
     optimisticAttachments := [] |}.

(** The props once the chat of the first prompt exists. *)
Definition inChat : Props :=
  {| chatId := Some "chat-1"; user := None; files := [];
     selectedModel := "gpt-4.1-nano" |}.

(** Collaborators of a submission that the rate limit turns down. *)
Definition limitReached : Collaborators :=
  {| checkLimitsAndNotify := Fulfilled false;
     ensureChatExists := Fulfilled (Some "chat-1");
     handleFileUploads := Fulfilled (Some []);
     enqueueEndpoint := refused "unreachable" |}.

(** Collaborators of a submission that passes every gate and is enqueued
    as [q1]. *)
Definition accepting : Collaborators :=
  {| checkLimitsAndNotify := Fulfilled true;
     ensureChatExists := Fulfilled (Some "chat-1");
     handleFileUploads := Fulfilled (Some []);
     enqueueEndpoint :=
       OkJson {| er_success := true;
                 er_queue := Some {| eq_id := "q1"; eq_status := "pending" |};
                 er_error := None |} |}.

(** Collaborators of a submission whose limit check rejects. *)
Definition limitCheckThrows : Collaborators :=
  {| checkLimitsAndNotify := Threw "Failed to fetch";
     ensureChatExists := Fulfilled (Some "chat-1");
     handleFileUploads := Fulfilled (Some []);
     enqueueEndpoint := refused "unreachable" |}.

(** The table entry of "Hello" while its submission waits at a gate. *)
Definition helloWaiting : PendingQueueMessage :=
  {| clientId := "optimistic-1700000000000"; queueId := None;
     status := StPending; content := "Hello"; createdAt := 1700000000000;
     optimisticAttachments := [] |}.

(** The poll frame of the submission of "Hello". *)
Definition helloFrame (systemPrompt : string) : PollFrame :=
  {| pf_uid := "guest-1"; pf_currentChatId := "chat-1";
     pf_selectedModel := "gpt-4.1-nano"; pf_isAuthenticated := false;
     pf_systemPrompt := systemPrompt |}.

(** The state and the effects of a session that starts in [session0]. *)
Definition after (evs : list Event) : Hook := (run evs session0).1.
Definition seen (evs : list Event) : list Effect := (run evs session0).2.

(** Values for the two constants of [@/lib/config] in the examples. *)
Definition exampleMaxLength : N := 10000.
Definition examplePrompt : string := "You are a helpful assistant.".

(** * Properties *)

(** ** The render that follows a turn *)

Lemma commit_messages s : messages (commit s) = messages s.
Proof. unfold commit. repeat case_bool_decide; reflexivity. Qed.

Lemma commit_jobs s : pendingQueueJobs (commit s) = pendingQueueJobs s.
Proof. unfold commit. repeat case_bool_decide; reflexivity. Qed.

Lemma commit_tasks s : tasks (commit s) = tasks s.
Proof. unfold commit. repeat case_bool_decide; reflexivity. Qed.

Lemma commit_nextTask s : nextTask (commit s) = nextTask s.
Proof. unfold commit. repeat case_bool_decide; reflexivity. Qed.

Lemma commit_props s : props (commit s) = props s.
Proof. unfold commit. repeat case_bool_decide; reflexivity. Qed.

Lemma commit_dep s : effectDep (commit s) = length (pendingQueueJobs s).
Proof. unfold commit. repeat case_bool_decide; simpl; congruence. Qed.

(** A render whose table length is the one the effect last saw changes
    nothing. *)
Lemma commit_settled s :
  effectDep s = length (pendingQueueJobs s) → commit s = s.
Proof. intros H. unfold commit. rewrite bool_decide_true; auto. Qed.

Lemma commit_timer s :
  pollIntervalRef (commit s) = None ∨
  pollIntervalRef (commit s) = pollIntervalRef s.
Proof. unfold commit. repeat case_bool_decide; simpl; auto. Qed.

Lemma step_handle ev s :
  step ev s = (commit (handle ev s).1, (handle ev s).2).
Proof. unfold step. destruct (handle ev s); reflexivity. Qed.

Lemma step_resume s h t o r :
  tasks s !! h = Some t → resume t o (take h s) = Some r →
  step (EResume h o) s = (commit r.1, r.2).
Proof. intros Hl Hr. rewrite step_handle. simpl. rewrite Hl, Hr. reflexivity. Qed.

(** ** Evictions *)

Lemma evictMessage_spec c m l : m ∈ evictMessage c l ↔ m ∈ l ∧ msg_id m ≠ c.
Proof. unfold evictMessage. rewrite list_elem_of_filter. tauto. Qed.

Lemma evictJob_spec c j l : j ∈ evictJob c l ↔ j ∈ l ∧ clientId j ≠ c.
Proof. unfold evictJob. rewrite list_elem_of_filter. tauto. Qed.

Lemma hasMessage_false c s :
  hasMessage c s = false ↔ ∀ m, m ∈ messages s → msg_id m ≠ c.
Proof.
  unfold hasMessage. rewrite bool_decide_eq_false, list_elem_of_fmap. split.
  - intros H m Hm Heq. apply H. exists m. auto.
  - intros H (m & -> & Hm). exact (H m Hm eq_refl).
Qed.

Lemma hasJob_false c s :
  hasJob c s = false ↔ ∀ j, j ∈ pendingQueueJobs s → clientId j ≠ c.
Proof.
  unfold hasJob. rewrite bool_decide_eq_false, list_elem_of_fmap. split.
  - intros H m Hm Heq. apply H. exists m. auto.
  - intros H (m & -> & Hm). exact (H m Hm eq_refl).
Qed.

(** ** The regeneration request *)

Lemma count_app p l1 l2 : count p (l1 ++ l2) = count p l1 + count p l2.
Proof. unfold count. rewrite filter_app, length_app. reflexivity. Qed.

Lemma count_failure_toasts (l : list PendingQueueMessage) :
  count isRegenerate
    ((λ _, Toast "Queued message failed" None ToastError) <$> l) = 0.
Proof. induction l as [|j l IH]; [reflexivity|exact IH]. Qed.

Lemma completedOf_nonempty queue :
  0 < length (completedOf queue) ↔
  ∃ item, item ∈ queue ∧ qs_status item = completed.
Proof.
  unfold completedOf. split.
  - destruct (filter _ queue) as [|item l] eqn:E; simpl; [lia|]. intros _.
    assert (item ∈ filter (λ job, qs_status job = completed) queue) as H
      by (rewrite E; left).
    apply list_elem_of_filter in H. exists item. tauto.
  - intros (item & Hin & Hst).
    assert (item ∈ filter (λ job, qs_status job = completed) queue) as H
      by (apply list_elem_of_filter; auto).
    destruct (filter _ queue); [inversion H | simpl; lia].
Qed.

Lemma reconcile_regenerations k queue s :
  count isRegenerate (reconcile k queue s).2 =
  if bool_decide (0 < length (completedOf queue)) then 1 else 0.
Proof.
  unfold reconcile.
  destruct (bool_decide (0 < length (completedOf queue))) eqn:E;
    cbn [orb fst snd].
  - rewrite count_app, count_failure_toasts. reflexivity.
  - destruct (bool_decide (0 < length (failedOf queue))); cbn [fst snd];
      [rewrite count_app, count_failure_toasts|]; reflexivity.
Qed.

Lemma pollTick_catch_regenerations e s :
  count isRegenerate (pollTick_catch e s).2 = 0.
Proof. unfold pollTick_catch. case_bool_decide; reflexivity. Qed.

(** C2. In one poll tick the regeneration request is issued at most
    once, and it is issued exactly when the status response reports at
    least one job as completed; the head of the tick, before the request,
    never issues it. *)
Theorem regenerate_at_most_once_per_tick k r s :
  count isRegenerate (pollTick k s).2 = 0 ∧
  count isRegenerate (pollTick_after_status k r s).2 ≤ 1 ∧
  (0 < count isRegenerate (pollTick_after_status k r s).2 ↔
   ∃ statusResponse item,
     postJson r = inr statusResponse ∧ sr_success statusResponse = true ∧
     item ∈ sr_queue statusResponse ∧ qs_status item = completed).
Proof.
  split; [|split].
  - unfold pollTick. repeat case_bool_decide; reflexivity.
  - unfold pollTick_after_status. destruct (postJson r) as [e|resp].
    + rewrite pollTick_catch_regenerations. lia.
    + destruct (sr_success resp); simpl.
      * rewrite reconcile_regenerations. case_bool_decide; lia.
      * rewrite pollTick_catch_regenerations. lia.
  - unfold pollTick_after_status. destruct (postJson r) as [e|resp].
    + rewrite pollTick_catch_regenerations. split; [lia|].
      intros (? & ? & ? & _); congruence.
    + destruct (sr_success resp) eqn:Hs; simpl.
      * rewrite reconcile_regenerations. case_bool_decide as Hc.
        -- split; [intros _|lia]. apply completedOf_nonempty in Hc.
           destruct Hc as (item & ? & ?). exists resp, item. auto.
        -- split; [lia|]. intros (resp' & item & Heq & _ & Hin & Hst).
           exfalso. apply Hc. apply completedOf_nonempty.
           exists item. split; congruence.
      * rewrite pollTick_catch_regenerations. split; [lia|].
        intros (resp' & ? & Heq & Hs' & _). congruence.
Qed.

(** ** Submission gates *)

Lemma suspend_lookup t s : tasks (suspend t s) !! nextTask s = Some t.
Proof. simpl. apply lookup_insert_eq. Qed.

(** Resuming the function that was suspended last. *)
Lemma step_resume_last t o s r :
  resume t o (take (nextTask s) (commit (suspend t s))) = Some r →
  step (EResume (nextTask s) o) (commit (suspend t s)) = (commit r.1, r.2).
Proof.
  intros Hr. rewrite step_handle. simpl.
  rewrite commit_tasks, suspend_lookup, Hr. reflexivity.
Qed.

Lemma submit_reject_rejected k s :
  rejected (sf_optimisticId k)
    (commit (submit_reject k s).1, (submit_reject k s).2).
Proof.
  split; [|split]; simpl.
  - apply hasMessage_false. intros m. rewrite commit_messages. simpl.
    rewrite evictMessage_spec. tauto.
  - apply hasJob_false. intros j. rewrite commit_jobs. simpl.
    rewrite evictJob_spec. tauto.
  - reflexivity.
Qed.

Lemma rejected_prepend c e r :
  isPostEnqueue e = false → rejected c r → rejected c (r.1, e :: r.2).
Proof.
  intros He (Hm & Hj & Hc). repeat split; auto. simpl.
  unfold count in *. rewrite filter_cons.
  destruct (decide (isPostEnqueue e)) as [H|H].
  - rewrite He in H. destruct H.
  - exact Hc.
Qed.

Lemma settle_last fuel env t s o r :
  answer env t = Some o →
  resume t o (take (nextTask s) (commit (suspend t s))) = Some r →
  settle (S fuel) env (nextTask s) (commit (suspend t s)) =
    if bool_decide (nextTask r.1 = S (nextTask s)) then (commit r.1, r.2)
    else let '(s2, e2) := settle fuel env (S (nextTask s)) (commit r.1) in
         (s2, r.2 ++ e2).
Proof.
  intros Ha Hr. unfold settle; fold settle.
  rewrite commit_tasks, suspend_lookup. simpl. rewrite Ha.
  rewrite (step_resume_last _ _ _ _ Hr).
  rewrite !commit_nextTask. reflexivity.
Qed.

Lemma submit_catch_rejected k e s :
  rejected (sf_optimisticId k)
    (commit (submit_catch k e s).1, (submit_catch k e s).2).
Proof.
  split; [|split]; simpl.
  - apply hasMessage_false. intros m. rewrite commit_messages. simpl.
    rewrite evictMessage_spec. tauto.
  - apply hasJob_false. intros j. rewrite commit_jobs. simpl.
    rewrite evictJob_spec. tauto.
  - reflexivity.
Qed.

Lemma settle_uploads_gate fuel env k chat s :
  gateFails env (AwaitUploads k chat) →
  rejected (sf_optimisticId k)
    (settle (S fuel) env (nextTask s) (commit (suspend (AwaitUploads k chat) s))).
Proof.
  simpl gateFails. intros Hu.
  erewrite settle_last; [|reflexivity|rewrite Hu; reflexivity].
  simpl. rewrite commit_nextTask, bool_decide_true by reflexivity.
  apply submit_reject_rejected.
Qed.

Lemma submit_after_chat_cases k c s :
  ((truthy c = false
    ∨ (MESSAGE_MAX_LENGTH < N.of_nat (jsLength (sf_input k)))%N)
   ∧ ∃ effs, submit_after_chat k c s = ((submit_reject k s).1, effs)
             ∧ count isPostEnqueue effs = 0
             ∧ count isNetworkCall effs = 0)
  ∨ (∃ chat, c = Some chat ∧ truthy c = true
       ∧ ¬ (MESSAGE_MAX_LENGTH < N.of_nat (jsLength (sf_input k)))%N
       ∧ ((0 < length (sf_submittedFiles k)
           ∧ submit_after_chat k c s = (suspend (AwaitUploads k chat) s, []))
          ∨ (¬ 0 < length (sf_submittedFiles k)
             ∧ submit_after_chat k c s = submit_enqueue k chat [] s))).
Proof.
  unfold submit_after_chat. destruct c as [chat|].
  - destruct (truthy (Some chat)) eqn:Ht; simpl negb; cbv iota.
    + case_bool_decide as Hlen.
      * left. split; [auto|]. eexists. repeat split; reflexivity.
      * right. exists chat. repeat split; auto.
        case_bool_decide; [left|right]; auto.
    + left. split; [auto|]. eexists. repeat split; reflexivity.
  - left. split; [auto|]. eexists. repeat split; reflexivity.
Qed.

Lemma settle_chat_gate fuel env k s :
  gateFails env (AwaitChat k) →
  rejected (sf_optimisticId k)
    (settle (S (S fuel)) env (nextTask s) (commit (suspend (AwaitChat k) s))).
Proof.
  simpl gateFails. intros Hg.
  remember (take (nextTask s) (commit (suspend (AwaitChat k) s))) as s0 eqn:Es.
  assert (nextTask s0 = S (nextTask s)) as Hn
    by (rewrite Es; simpl; apply commit_nextTask).
  destruct (ensureChatExists env) as [c|e] eqn:Hc.
  - erewrite settle_last; [|simpl; rewrite Hc; reflexivity|reflexivity].
    rewrite <- Es. clear Es.
    destruct (submit_after_chat_cases k c s0)
      as [(_ & effs & -> & Hcount & _)|(chat & Hchat & Ht & Hlen & Hf)].
    + simpl. rewrite Hn, bool_decide_true by reflexivity.
      destruct (submit_reject_rejected k s0) as (Hm & Hj & _).
      repeat split; assumption.
    + destruct Hf as [(Hf & ->)|(Hf & _)].
      * cbn [fst snd suspend nextTask]. rewrite Hn, bool_decide_false by lia.
        pose proof (settle_uploads_gate fuel env k chat s0) as H.
        rewrite Hn in H. destruct (settle _ _ _ _) as [s2 e2]. apply H.
        simpl. destruct Hg as [(c' & Hc' & Hno)|[Hg|[_ Hg]]];
          [congruence|tauto|exact Hg].
      * exfalso. destruct Hg as [(c' & Hc' & Hno)|[Hg|[Hg _]]];
          [congruence|tauto|tauto].
  - erewrite settle_last; [|simpl; rewrite Hc; reflexivity|reflexivity].
    rewrite <- Es. simpl. rewrite Hn, bool_decide_true by reflexivity.
    apply submit_catch_rejected.
Qed.

Lemma settle_limits_gate fuel env k s :
  gateFails env (AwaitLimits k) →
  rejected (sf_optimisticId k)
    (settle (S (S (S fuel))) env (nextTask s)
       (commit (suspend (AwaitLimits k) s))).
Proof.
  simpl gateFails. intros Hg.
  remember (take (nextTask s) (commit (suspend (AwaitLimits k) s))) as s0 eqn:Es.
  assert (nextTask s0 = S (nextTask s)) as Hn
    by (rewrite Es; simpl; apply commit_nextTask).
  destruct (checkLimitsAndNotify env) as [[|]|e] eqn:Hl;
    (erewrite settle_last; [|simpl; rewrite Hl; reflexivity|reflexivity]);
    rewrite <- Es; clear Es.
  - cbn [submit_after_limits fst snd suspend nextTask].
    rewrite Hn, bool_decide_false by lia.
    pose proof (settle_chat_gate fuel env k s0) as H.
    rewrite Hn in H. destruct (settle _ _ _ _) as [s2 e2]. apply H.
    simpl. destruct Hg as [Hg|Hg]; [congruence|exact Hg].
  - simpl. rewrite Hn, bool_decide_true by reflexivity.
    apply submit_reject_rejected.
  - simpl. rewrite Hn, bool_decide_true by reflexivity.
    apply submit_catch_rejected.
Qed.

(** C3. A submission in which a gate fails (the limit check answers
    [false], the chat bootstrap answers with no chat id, the prompt has
    more than [MESSAGE_MAX_LENGTH] UTF-16 code units, or files were
    attached and the upload answers [null]) ends with no optimistic
    message and no table entry under its client id, and never posts to
    the enqueue endpoint, whatever the other collaborators do. *)
Theorem gate_failure_evicts_without_enqueue env uid now created s :
  truthy uid = true →
  checkLimitsAndNotify env = Fulfilled false
  ∨ answersNoChat (ensureChatExists env)
  ∨ (MESSAGE_MAX_LENGTH < N.of_nat (jsLength (input s)))%N
  ∨ (0 < length (files (props s))
     ∧ handleFileUploads env = Fulfilled None) →
  let r := submission env uid now created s in
  hasMessage (optimisticIdAt now) r.1 = false ∧
  hasJob (optimisticIdAt now) r.1 = false ∧
  count isPostEnqueue r.2 = 0.
Proof.
  intros Hu Hg. unfold submission. rewrite step_handle.
  simpl handle. unfold submit. destruct uid as [uid|]; [|discriminate].
  rewrite Hu. cbv zeta. cbn [fst snd].
  rewrite commit_nextTask. simpl nextTask.
  rewrite bool_decide_false by lia.
  match goal with
  | |- context [settle 4 env _ (commit (suspend (AwaitLimits ?k) ?s0))] =>
      pose proof (settle_limits_gate 1 env k s0) as H
  end.
  simpl nextTask in H.
  destruct (settle _ _ _ _) as [s2 e2].
  apply (rejected_prepend _ (SetFiles []) (s2, e2)); [reflexivity|].
  apply H. exact Hg.
Qed.


(** The same gate by gate, whatever else the session did between the
    segments of the submission: the turn in which a gate fails evicts
    both optimistic entries, posts nothing to the enqueue endpoint, and
    is the last turn of that [submit] call. *)
Lemma gate_failure_turn s h t k o :
  tasks s !! h = Some t → frame_of t = Some k → turnsDown t o →
  rejected (sf_optimisticId k) (step (EResume h o) s) ∧
  tasks (step (EResume h o) s).1 !! h = None ∧
  nextTask (step (EResume h o) s).1 = nextTask s.
Proof.
  intros Hl Hf Hdown.
  assert (∃ effs, resume t o (take h s) = Some ((submit_reject k (take h s)).1, effs)
                  ∧ count isPostEnqueue effs = 0) as (effs & Hr & Hc).
  { destruct t as [k'|k'|k' chat|k' chat|k'|]; destruct o; simpl in Hdown;
      try contradiction; simpl in Hf; simplify_eq; simpl.
    - eexists. split; reflexivity.
    - destruct (submit_after_chat_cases k currentChatId (take h s))
        as [(_ & effs & -> & Hc & _)|(chat & _ & Ht & Hlen & _)].
      + eauto.
      + exfalso. destruct Hdown; [congruence|tauto].
    - eexists. split; reflexivity. }
  rewrite (step_resume s h t o _ Hl Hr). cbn [fst snd].
  destruct (submit_reject_rejected k (take h s)) as (Hm & Hj & _).
  split; [repeat split; assumption|].
  rewrite commit_tasks, commit_nextTask. simpl.
  split; [apply lookup_delete_eq|reflexivity].
Qed.

(** ** The session invariant *)

Lemma Inv_Core s : Inv s → Core s.
Proof. intros []; constructor; assumption. Qed.

Lemma Turn_refl s : Inv s → Turn s s.
Proof. intros H. split; [apply Inv_Core, H|]. split; auto. Qed.

Lemma Inv_mount p initialMessages draftValue :
  Inv (mount p initialMessages draftValue).
Proof.
  constructor; simpl; try done.
  - intros job m Hj. inversion Hj.
  - constructor.
  - intros job Hj. inversion Hj.
  - unfold MAX_QUEUE_POLL_FAILURES. lia.
Qed.

Lemma commit_Inv s s' : Inv s → Turn s s' → Inv (commit s').
Proof.
  intros Hs (Hc & Hdep & Ht). destruct Hc.
  pose proof (commit_messages s') as Em. pose proof (commit_jobs s') as Ej.
  pose proof (commit_tasks s') as Et.
  constructor.
  - rewrite Em, Ej. assumption.
  - rewrite Ej. assumption.
  - rewrite Ej. assumption.
  - rewrite Et, Ej. assumption.
  - rewrite Et. assumption.
  - rewrite Ej. unfold commit. repeat case_bool_decide; simpl; try done.
    + intros Harm Hnil. destruct (Ht Harm) as [Hx|Hx]; [|done].
      apply Hx. destruct (decide (pollIntervalRef s = None)) as [|Hne]; [done|].
      exfalso. apply (inv_armed s Hs Hne).
      apply length_zero_iff_nil. rewrite <- (inv_dep s Hs), <- Hdep.
      rewrite Hnil in *. simpl in *. congruence.
    + intros _ Hnil. rewrite Hnil in *. simpl in *. done.
  - rewrite Ej. apply commit_dep.
  - unfold commit. repeat case_bool_decide; simpl; try done.
    unfold MAX_QUEUE_POLL_FAILURES; lia.
Qed.

(** A turn that only drops messages, jobs and suspended functions, and
    keeps the job of every submission still suspended. *)
Lemma Core_shrink s s' :
  Core s →
  (∀ m, m ∈ messages s' → m ∈ messages s) →
  pendingQueueJobs s' `sublist_of` pendingQueueJobs s →
  (∀ h t k, tasks s' !! h = Some t → frame_of t = Some k →
     tasks s !! h = Some t ∧
     ∀ j, j ∈ pendingQueueJobs s → clientId j = sf_optimisticId k →
          queueId j = None → j ∈ pendingQueueJobs s') →
  pollFailureCountRef s' < MAX_QUEUE_POLL_FAILURES →
  Core s'.
Proof.
  intros [] Hm Hj Ht Hc. constructor; [| | | | |exact Hc].
  - intros job m Hjob Hq Hin. apply core_evicted0; auto.
    eapply elem_of_sublist; eauto.
  - eapply sublist_NoDup; [exact core_nodup0|]. by apply fmap_sublist.
  - intros job Hjob. apply core_server_id0. eapply elem_of_sublist; eauto.
  - intros h t k Hl Hf. destruct (Ht h t k Hl Hf) as (Hl' & Hkeep).
    destruct (core_task_job0 h t k Hl' Hf) as (job & Hin & Hid & Hq).
    exists job. auto.
  - intros h1 h2 t1 t2 k1 k2 H1 H2 F1 F2 E.
    destruct (Ht h1 t1 k1 H1 F1) as (H1' & _).
    destruct (Ht h2 t2 k2 H2 F2) as (H2' & _). eauto.
Qed.

(** A suspended [submit] that moves on to its next [await]. *)
Lemma Core_advance s s' h t t' k :
  Core s →
  tasks s !! h = Some t → frame_of t = Some k → frame_of t' = Some k →
  messages s' = messages s →
  pendingQueueJobs s' = pendingQueueJobs s →
  tasks s' = <[nextTask s := t']> (delete h (tasks s)) →
  pollFailureCountRef s' = pollFailureCountRef s →
  Core s'.
Proof.
  intros [] Hl Hf Hf' Em Ej Et Ec.
  assert (∀ h' t1 k1, tasks s' !! h' = Some t1 → frame_of t1 = Some k1 →
            (h' = nextTask s ∧ k1 = k) ∨
            (h' ≠ nextTask s ∧ h' ≠ h ∧ tasks s !! h' = Some t1)) as Hcase.
  { intros h' t1 k1. rewrite Et, lookup_insert.
    case_decide as Hd; intros Hl1 Hf1.
    - left. split; [done|]. simplify_eq. congruence.
    - right. rewrite lookup_delete_Some in Hl1.
      destruct Hl1 as (Hne & Hold). auto. }
  constructor.
  - rewrite Em, Ej. assumption.
  - rewrite Ej. assumption.
  - rewrite Ej. assumption.
  - rewrite Ej. intros h' t1 k1 Hl1 Hf1.
    destruct (Hcase _ _ _ Hl1 Hf1) as [(-> & ->)|(_ & _ & Hold)]; eauto.
  - intros h1 h2 t1 t2 k1 k2 H1 H2 F1 F2 E.
    destruct (Hcase _ _ _ H1 F1) as [(-> & ->)|(Hn1 & Hh1 & Hold1)];
    destruct (Hcase _ _ _ H2 F2) as [(-> & ->)|(Hn2 & Hh2 & Hold2)]; eauto.
    + exfalso. apply Hh2. symmetry. eauto.
    + exfalso. apply Hh1. eauto.
  - rewrite Ec. assumption.
Qed.

Lemma submissionsWithin_same s' s : tasks s' = tasks s → submissionsWithin s' s.
Proof. intros E h t k. rewrite E. auto. Qed.

Lemma submissionsWithin_suspend s' s t' :
  tasks s' = <[nextTask s := t']> (tasks s) → frame_of t' = None →
  submissionsWithin s' s.
Proof.
  intros E Hf h t k. rewrite E, lookup_insert. case_decide; [|auto].
  intros Hl Hk. congruence.
Qed.

Lemma submissionsWithin_take s' s h :
  tasks s' = delete h (tasks s) → submissionsWithin s' s.
Proof.
  intros E h' t k. rewrite E, lookup_delete_Some. tauto.
Qed.

(** Turns that drop jobs but keep every job without a server id. *)
Lemma Turn_shrink s s' :
  Inv s →
  (∀ m, m ∈ messages s' → m ∈ messages s) →
  pendingQueueJobs s' `sublist_of` pendingQueueJobs s →
  (∀ j, j ∈ pendingQueueJobs s → queueId j = None → j ∈ pendingQueueJobs s') →
  submissionsWithin s' s →
  effectDep s' = effectDep s →
  pollFailureCountRef s' < MAX_QUEUE_POLL_FAILURES →
  pollIntervalRef s' = pollIntervalRef s ∨ pollIntervalRef s' = None →
  Turn s s'.
Proof.
  intros Hs Hm Hsub Hkeep Ht Ed Hc Hp. split; [|split; [exact Ed|]].
  - eapply Core_shrink; [apply Inv_Core, Hs|exact Hm|exact Hsub| |exact Hc].
    intros h t k Hl Hf. split; [eauto|]. intros j Hin _ Hq. auto.
  - destruct Hp as [-> | ->]; [auto|done].
Qed.

Lemma Turn_filter s s' (P : PendingQueueMessage → Prop)
    `{!∀ j, Decision (P j)} :
  Inv s →
  (∀ j, queueId j = None → P j) →
  (∀ m, m ∈ messages s' → m ∈ messages s) →
  pendingQueueJobs s' = filter P (pendingQueueJobs s) →
  submissionsWithin s' s →
  effectDep s' = effectDep s →
  pollFailureCountRef s' < MAX_QUEUE_POLL_FAILURES →
  pollIntervalRef s' = pollIntervalRef s ∨ pollIntervalRef s' = None →
  Turn s s'.
Proof.
  intros Hs HP Hm Ej Ht Ed Hc Hp. apply Turn_shrink; auto.
  - rewrite Ej. apply sublist_filter.
  - intros j Hin Hq. rewrite Ej. apply list_elem_of_filter. auto.
Qed.

(** Turns that leave the table as it is. *)
Lemma Turn_keep s s' :
  Inv s →
  (∀ m, m ∈ messages s' → m ∈ messages s) →
  pendingQueueJobs s' = pendingQueueJobs s →
  submissionsWithin s' s →
  effectDep s' = effectDep s →
  pollFailureCountRef s' < MAX_QUEUE_POLL_FAILURES →
  pollIntervalRef s' = pollIntervalRef s ∨ pollIntervalRef s' = None →
  Turn s s'.
Proof.
  intros Hs Hm Ej Ht Ed Hc Hp. apply Turn_shrink; auto; rewrite Ej; auto.
Qed.

(** The early returns and the [catch] of [submit]. *)
Lemma Turn_evict s s' h t k :
  Inv s →
  tasks s !! h = Some t → frame_of t = Some k →
  messages s' = evictMessage (sf_optimisticId k) (messages s) →
  pendingQueueJobs s' = evictJob (sf_optimisticId k) (pendingQueueJobs s) →
  tasks s' = delete h (tasks s) →
  effectDep s' = effectDep s →
  pollFailureCountRef s' = pollFailureCountRef s →
  pollIntervalRef s' = pollIntervalRef s →
  Turn s s'.
Proof.
  intros Hs Hl Hf Em Ej Et Ed Ec Ep. split; [|split; [exact Ed|]].
  - eapply Core_shrink; [apply Inv_Core, Hs| | | |].
    + intros m. rewrite Em, evictMessage_spec. tauto.
    + rewrite Ej. apply sublist_filter.
    + intros h' t' k'. rewrite Et, lookup_delete_Some. intros (Hne & Hl') Hf'.
      split; [exact Hl'|]. intros j Hin Hid _. rewrite Ej.
      apply evictJob_spec. split; [exact Hin|]. intros Heq. apply Hne.
      eapply (inv_task_ids s Hs); eauto. congruence.
    + rewrite Ec. apply (inv_count s Hs).
  - rewrite Ep. auto.
Qed.

(** A [submit] that passes a gate and waits for the next call. *)
Lemma Turn_advance s s' h t t' k :
  Inv s →
  tasks s !! h = Some t → frame_of t = Some k → frame_of t' = Some k →
  s' = suspend t' (take h s) →
  Turn s s'.
Proof.
  intros Hs Hl Hf Hf' ->. split; [|split; [reflexivity|simpl; auto]].
  eapply (Core_advance s); eauto using Inv_Core.
Qed.

Lemma count_lt_max s : Inv s → pollFailureCountRef s < MAX_QUEUE_POLL_FAILURES.
Proof. apply inv_count. Qed.

Lemma Turn_render p s : Inv s → Turn s (render p s).1.
Proof.
  intros Hs. unfold render. simpl.
  destruct (_ && _); apply Turn_keep; simpl;
    auto using submissionsWithin_same, count_lt_max.
  intros m Hm. inversion Hm.
Qed.

Lemma Turn_submit uid now created s :
  Inv s → fresh (ESubmit uid now created) s →
  Turn s (submit uid now created s).1.
Proof.
  intros Hs Hfresh. simpl in Hfresh. unfold submit.
  destruct uid as [uid|];
    [destruct (truthy (Some uid))|];
    try solve [apply Turn_keep; simpl;
               auto using submissionsWithin_same, count_lt_max].
  cbv zeta. simpl fst. unfold optimisticIdAt in Hfresh.
  set (c := "optimistic-" +:+ pretty now) in *.
  unfold Turn. split; [|split; [reflexivity|simpl; auto]].
  assert (∀ j, j ∈ pendingQueueJobs s → clientId j ≠ c) as Hc.
  { intros j Hj Heq. apply Hfresh. apply list_elem_of_fmap. eauto. }
  constructor; simpl.
  - intros job m Hjob Hq Hm.
    apply elem_of_app in Hjob as [Hjob|Hjob];
      [|apply list_elem_of_singleton in Hjob; subst job; done].
    apply elem_of_app in Hm as [Hm|Hm].
    + eapply (inv_evicted s Hs); eauto.
    + apply list_elem_of_singleton in Hm. subst m. simpl.
      intros Heq. eapply Hc; eauto.
  - rewrite fmap_app. apply NoDup_app. split; [apply (inv_nodup s Hs)|].
    split; [|apply NoDup_singleton].
    intros x Hx Hx'. apply list_elem_of_singleton in Hx'. simpl in Hx'.
    subst x. apply Hfresh. exact Hx.
  - intros job Hjob.
    apply elem_of_app in Hjob as [Hjob|Hjob];
      [apply (inv_server_id s Hs), Hjob|].
    apply list_elem_of_singleton in Hjob. subst job. done.
  - intros h t k. rewrite lookup_insert. case_decide.
    + intros Ht Hk. simplify_eq. simpl in Hk. simplify_eq. simpl.
      eexists. split; [apply elem_of_app; right; apply list_elem_of_singleton;
                       reflexivity|]. auto.
    + intros Ht Hk. destruct (inv_task_job s Hs h t k Ht Hk) as (job & ? & ? & ?).
      exists job. split; [apply elem_of_app; auto|auto].
  - assert (∀ h t k, tasks s !! h = Some t → frame_of t = Some k →
              sf_optimisticId k ≠ c) as Hold.
    { intros h t k Ht Hk Heq.
      destruct (inv_task_job s Hs h t k Ht Hk) as (job & Hin & Hid & _).
      apply (Hc job Hin). congruence. }
    intros h1 h2 t1 t2 k1 k2. rewrite !lookup_insert.
    repeat case_decide; intros La Lb Fa Fb E; try congruence.
    all: try (injection La as <-; simpl in Fa; injection Fa as <-;
              simpl in E; exfalso; eapply (Hold h2 t2 k2); solve [eauto]).
    all: try (injection Lb as <-; simpl in Fb; injection Fb as <-;
              simpl in E; exfalso; eapply (Hold h1 t1 k1); solve [eauto]).
    eapply (inv_task_ids s Hs); eauto.
  - apply (inv_count s Hs).
Qed.

Lemma Turn_cancel q s : Inv s → Turn s (handleCancelQueuedJob q s).1.
Proof.
  intros Hs. unfold handleCancelQueuedJob. simpl.
  apply (Turn_filter s _ (λ job, queueId job ≠ Some q)); simpl;
    auto using count_lt_max.
  - intros j ->. done.
  - eapply submissionsWithin_suspend; reflexivity.
Qed.

Lemma Turn_pollTick k s : Inv s → Turn s (pollTick k s).1.
Proof.
  intros Hs. unfold pollTick. repeat case_bool_decide; simpl;
    apply Turn_keep; simpl; auto using submissionsWithin_same, count_lt_max.
  - unfold MAX_QUEUE_POLL_FAILURES. lia.
  - eapply submissionsWithin_suspend; reflexivity.
Qed.

Lemma Turn_reject s h t k :
  Inv s → tasks s !! h = Some t → frame_of t = Some k →
  Turn s (submit_reject k (take h s)).1.
Proof. intros. eapply Turn_evict; eauto; reflexivity. Qed.

Lemma Turn_catch s h t k e :
  Inv s → tasks s !! h = Some t → frame_of t = Some k →
  Turn s (submit_catch k e (take h s)).1.
Proof. intros. eapply Turn_evict; eauto; reflexivity. Qed.

Lemma Turn_enqueue s h t k chat atts :
  Inv s → tasks s !! h = Some t → frame_of t = Some k →
  Turn s (submit_enqueue k chat atts (take h s)).1.
Proof.
  intros Hs Hl Hf.
  apply (Turn_advance s _ h t (AwaitEnqueue k chat) k); auto.
Qed.

Lemma attachServerId_clientIds c q l :
  clientId <$> attachServerId c q l = clientId <$> l.
Proof.
  unfold attachServerId. rewrite <- list_fmap_compose.
  apply list_fmap_ext. intros i j _. simpl. case_bool_decide; reflexivity.
Qed.

Lemma attachServerId_elem c q l j' :
  j' ∈ attachServerId c q l →
  (clientId j' = c ∧ queueId j' = Some (eq_id q))
  ∨ (j' ∈ l ∧ clientId j' ≠ c).
Proof.
  unfold attachServerId. rewrite list_elem_of_fmap. intros (j & -> & Hj).
  case_bool_decide; simpl; auto.
Qed.

Lemma attachServerId_other c q l j :
  j ∈ l → clientId j ≠ c → j ∈ attachServerId c q l.
Proof.
  intros Hj Hne. unfold attachServerId. apply list_elem_of_fmap.
  exists j. split; [|exact Hj]. rewrite bool_decide_false; auto.
Qed.

(** The turn in which a job receives its server id, the timer is armed
    and the optimistic message leaves the transcript. *)
Lemma Turn_attach s h k chat q :
  Inv s → tasks s !! h = Some (AwaitEnqueue k chat) →
  truthy (Some (eq_id q)) = true →
  Turn s
    (setIsSubmitting false
       (setInput ""
          (setMessages (evictMessage (sf_optimisticId k))
             (armPolling k chat
                (updatePendingQueueJobs (attachServerId (sf_optimisticId k) q)
                   (take h s)))))).
Proof.
  intros Hs Hl Htruthy.
  set (c := sf_optimisticId k).
  assert (messages (armPolling k chat
            (updatePendingQueueJobs (attachServerId c q) (take h s)))
          = messages s) as Em by (unfold armPolling; simpl; destruct (pollIntervalRef s); reflexivity).
  assert (pendingQueueJobs (armPolling k chat
            (updatePendingQueueJobs (attachServerId c q) (take h s)))
          = attachServerId c q (pendingQueueJobs s)) as Ej
    by (unfold armPolling; simpl; destruct (pollIntervalRef s); reflexivity).
  assert (tasks (armPolling k chat
            (updatePendingQueueJobs (attachServerId c q) (take h s)))
          = delete h (tasks s)) as Et
    by (unfold armPolling; simpl; destruct (pollIntervalRef s); reflexivity).
  assert (pollFailureCountRef (armPolling k chat
            (updatePendingQueueJobs (attachServerId c q) (take h s)))
          = pollFailureCountRef s) as Ec
    by (unfold armPolling; simpl; destruct (pollIntervalRef s); reflexivity).
  assert (effectDep (armPolling k chat
            (updatePendingQueueJobs (attachServerId c q) (take h s)))
          = effectDep s) as Ed
    by (unfold armPolling; simpl; destruct (pollIntervalRef s); reflexivity).
  split; [|split; [exact Ed|]].
  - constructor; simpl; rewrite ?Em, ?Ej, ?Et, ?Ec.
    + intros job m Hjob Hq Hm. apply evictMessage_spec in Hm as (Hm & Hne).
      apply attachServerId_elem in Hjob as [(Hjob & _)|(Hjob & _)].
      * fold c in Hne. congruence.
      * eapply (inv_evicted s Hs); eauto.
    + rewrite attachServerId_clientIds. apply (inv_nodup s Hs).
    + intros job Hjob.
      apply attachServerId_elem in Hjob as [(_ & ->)|(Hjob & _)];
        [|apply (inv_server_id s Hs), Hjob].
      intros Heq. injection Heq as Heq. simpl in Htruthy.
      rewrite Heq in Htruthy. discriminate.
    + intros h' t' k'. rewrite lookup_delete_Some. intros (Hne & Hl') Hf'.
      destruct (inv_task_job s Hs h' t' k' Hl' Hf') as (job & Hin & Hid & Hq).
      exists job. split; [|auto]. apply attachServerId_other; [exact Hin|].
      rewrite Hid. intros Heq. apply Hne.
      eapply (inv_task_ids s Hs h h'); eauto; reflexivity.
    + intros h1 h2 t1 t2 k1 k2. rewrite !lookup_delete_Some.
      intros (_ & H1) (_ & H2). eapply (inv_task_ids s Hs); eauto.
    + apply (inv_count s Hs).
  - intros _. right. simpl. rewrite Ej.
    destruct (inv_task_job s Hs h _ k Hl eq_refl) as (job & Hin & _).
    intros Hnil. apply (f_equal length) in Hnil.
    unfold attachServerId in Hnil. rewrite length_fmap in Hnil.
    destruct (pendingQueueJobs s); [inversion Hin|discriminate].
Qed.

Lemma verdict_no_server_id completedIds failedIds j :
  queueId j = None → verdict completedIds failedIds j = Keep.
Proof. unfold verdict. intros ->. reflexivity. Qed.

Lemma Turn_after_status s h k r :
  Inv s → Turn s (pollTick_after_status k r (take h s)).1.
Proof.
  intros Hs. unfold pollTick_after_status.
  assert (∀ e, Turn s (pollTick_catch e (take h s)).1) as Hcatch.
  { intros e. unfold pollTick_catch. simpl. pose proof (count_lt_max s Hs).
    case_bool_decide; simpl; apply Turn_keep; simpl;
      eauto using submissionsWithin_take; unfold MAX_QUEUE_POLL_FAILURES in *; lia. }
  destruct (postJson r) as [e|resp]; [apply Hcatch|].
  destruct (sr_success resp); simpl; [|apply Hcatch].
  unfold reconcile. destruct (_ || _); simpl.
  - eapply Turn_filter; simpl; eauto using submissionsWithin_take, count_lt_max.
    intros j Hq. apply verdict_no_server_id. exact Hq.
  - apply Turn_keep; simpl; eauto using submissionsWithin_take, count_lt_max.
Qed.

Lemma Turn_resume s h t o r :
  Inv s → tasks s !! h = Some t → resume t o (take h s) = Some r →
  Turn s r.1.
Proof.
  intros Hs Hl Hr.
  destruct t as [k|k|k chat|k chat|k|]; destruct o; simpl in Hr;
    try discriminate; injection Hr as <-.
  - unfold submit_after_limits. destruct allowed.
    + apply (Turn_advance s _ h (AwaitLimits k) (AwaitChat k) k); auto.
    + eapply Turn_reject; eauto; reflexivity.
  - eapply Turn_catch; eauto; reflexivity.
  - destruct (submit_after_chat_cases k currentChatId (take h s))
      as [(_ & effs & -> & _)|(chat & -> & _ & _ & [(_ & ->)|(_ & ->)])].
    + eapply Turn_reject; eauto; reflexivity.
    + apply (Turn_advance s _ h (AwaitChat k) (AwaitUploads k chat) k); auto.
    + eapply Turn_enqueue; eauto; reflexivity.
  - eapply Turn_catch; eauto; reflexivity.
  - unfold submit_after_uploads. destruct attachments.
    + eapply Turn_enqueue; eauto; reflexivity.
    + eapply Turn_reject; eauto; reflexivity.
  - eapply Turn_catch; eauto; reflexivity.
  - unfold submit_after_enqueue. destruct (postJson r0) as [e|resp].
    + eapply Turn_catch; eauto; reflexivity.
    + destruct (er_queue resp) as [q|].
      * destruct (_ || _) eqn:Egate.
        -- eapply Turn_catch; eauto; reflexivity.
        -- simpl fst. apply orb_false_iff in Egate as (_ & Egate).
           apply negb_false_iff in Egate. eapply Turn_attach; eauto.
      * eapply Turn_catch; eauto; reflexivity.
  - apply Turn_after_status. exact Hs.
  - unfold cancel_after_reply. destruct (postJson r0); simpl;
      apply Turn_keep; simpl; eauto using submissionsWithin_take, count_lt_max.
Qed.

Lemma Turn_handle ev s : Inv s → fresh ev s → Turn s (handle ev s).1.
Proof.
  intros Hs Hf. destruct ev; simpl handle.
  - apply Turn_render, Hs.
  - apply Turn_keep; simpl; auto using submissionsWithin_same, count_lt_max.
  - apply Turn_keep; simpl; auto using submissionsWithin_same, count_lt_max.
  - apply Turn_submit; assumption.
  - apply Turn_cancel, Hs.
  - destruct (pollIntervalRef s); [apply Turn_pollTick, Hs|apply Turn_refl, Hs].
  - destruct (tasks s !! h) as [t|] eqn:Hl; [|apply Turn_refl, Hs].
    destruct (resume t o (take h s)) as [r|] eqn:Hr; simpl;
      [eapply Turn_resume; eauto|apply Turn_refl, Hs].
  - apply Turn_keep; simpl; auto using submissionsWithin_same, count_lt_max.
Qed.

Lemma Inv_step ev s : Inv s → fresh ev s → Inv (step ev s).1.
Proof.
  intros Hs Hf. rewrite step_handle. simpl.
  eapply commit_Inv; [exact Hs|]. apply Turn_handle; assumption.
Qed.

(** Every reachable state satisfies the invariant. *)
Lemma reachable_Inv s : reachable s → Inv s.
Proof.
  induction 1 as [p i d|ev s Hr IH Hf]; [apply Inv_mount|].
  apply Inv_step; assumption.
Qed.

Lemma reachable_run evs s :
  reachable s → freshTrace evs s = true → reachable (run evs s).1.
Proof.
  revert s. induction evs as [|ev evs IH]; intros s Hs Hf; [exact Hs|].
  simpl in Hf. apply andb_true_iff in Hf as (Hf1 & Hf2).
  apply bool_decide_eq_true in Hf1.
  pose proof (reachable_step ev s Hs Hf1) as Hr.
  simpl. destruct (step ev s) as [s1 e1]. simpl in *.
  specialize (IH s1 Hr Hf2). destruct (run evs s1). exact IH.
Qed.

(** ** Terminal jobs *)

Lemma NoDup_fmap_eq {A B} (f : A → B) (l : list A) x y :
  NoDup (f <$> l) → x ∈ l → y ∈ l → f x = f y → x = y.
Proof.
  induction l as [|a l IH]; intros Hnd Hx Hy Hf; [inversion Hx|].
  rewrite fmap_cons in Hnd. apply NoDup_cons in Hnd as (Hnotin & Hnd).
  apply elem_of_cons in Hx as [->|Hx]; apply elem_of_cons in Hy as [->|Hy];
    auto.
  - exfalso. apply Hnotin. rewrite Hf. apply list_elem_of_fmap. eauto.
  - exfalso. apply Hnotin. rewrite <- Hf. apply list_elem_of_fmap. eauto.
Qed.

Lemma same_clientId s j1 j2 :
  Inv s → j1 ∈ pendingQueueJobs s → j2 ∈ pendingQueueJobs s →
  clientId j1 = clientId j2 → j1 = j2.
Proof. intros Hs. apply NoDup_fmap_eq, (inv_nodup s Hs). Qed.

Lemma completedOf_elem item queue :
  item ∈ completedOf queue ↔ item ∈ queue ∧ qs_status item = completed.
Proof. unfold completedOf. rewrite list_elem_of_filter. tauto. Qed.

Lemma failedOf_elem item queue :
  item ∈ failedOf queue ↔
  item ∈ queue ∧ (qs_status item = failed ∨ qs_status item = cancelled).
Proof. unfold failedOf. rewrite list_elem_of_filter. tauto. Qed.

Lemma elem_length_pos {A} (x : A) l : x ∈ l → 0 < length l.
Proof. destruct l; [inversion 1|simpl; lia]. Qed.

(** A job whose server id the reply reports in a terminal status is
    dropped by the reconciliation. *)
Lemma reconcile_drops k queue item job s :
  item ∈ queue → terminal (qs_status item) = true →
  queueId job = Some (qs_id item) → qs_id item ≠ "" →
  job ∉ pendingQueueJobs (reconcile k queue s).1.
Proof.
  intros Hin Hterm Hq Hne. unfold reconcile.
  assert (item ∈ completedOf queue ∨ item ∈ failedOf queue) as Hcase.
  { rewrite completedOf_elem, failedOf_elem.
    destruct (qs_status item); try discriminate; auto. }
  assert (bool_decide (0 < length (completedOf queue))
          || bool_decide (0 < length (failedOf queue)) = true) as ->.
  { apply orb_true_iff. destruct Hcase as [Hx|Hx];
      [left|right]; apply bool_decide_eq_true; eapply elem_length_pos; eauto. }
  simpl. rewrite list_elem_of_filter. intros (Hkeep & _).
  unfold verdict in Hkeep. rewrite Hq in Hkeep. simpl in Hkeep.
  rewrite (bool_decide_false (qs_id item = "")) in Hkeep by exact Hne.
  simpl in Hkeep.
  repeat case_bool_decide; try discriminate.
  destruct Hcase as [Hx|Hx].
  - match goal with Hc : _ ∉ list_to_set (qs_id <$> completedOf queue) |- _ =>
      apply Hc end.
    apply elem_of_list_to_set, list_elem_of_fmap. eauto.
  - match goal with Hc : _ ∉ list_to_set (qs_id <$> failedOf queue) |- _ =>
      apply Hc end.
    apply elem_of_list_to_set, list_elem_of_fmap. eauto.
Qed.

Lemma reconcile_messages k queue s :
  messages (reconcile k queue s).1 = messages s.
Proof. unfold reconcile. destruct (_ || _); reflexivity. Qed.

Lemma reconcile_sublist k queue s :
  pendingQueueJobs (reconcile k queue s).1 `sublist_of` pendingQueueJobs s.
Proof.
  unfold reconcile. destruct (_ || _); simpl; [apply sublist_filter|done].
Qed.

Lemma pollTick_after_status_messages k r s :
  messages (pollTick_after_status k r s).1 = messages s.
Proof.
  unfold pollTick_after_status, pollTick_catch.
  destruct (postJson r) as [e|resp]; [case_bool_decide; reflexivity|].
  destruct (sr_success resp); simpl;
    [apply reconcile_messages|case_bool_decide; reflexivity].
Qed.

(** C1 (as the code has it). When a poll tick reports the server id of a
    job in a terminal status, then after that tick the table holds no
    entry under the job's client id and the transcript holds no
    optimistic message under it.  The tick itself leaves the transcript
    untouched: the message was already gone before the tick, evicted by
    [submit] in the very turn that attached the server id. *)
Theorem terminal_job_absent_after_tick s h k r job q :
  reachable s →
  tasks s !! h = Some (AwaitStatus k) →
  job ∈ pendingQueueJobs s → queueId job = Some q →
  reportsTerminal r q →
  let ev := EResume h (StatusReply r) in
  hasJob (clientId job) (step ev s).1 = false ∧
  hasMessage (clientId job) (step ev s).1 = false ∧
  messages (step ev s).1 = messages s ∧
  ¬ evicts ev s (clientId job).
Proof.
  intros Hreach Hl Hjob Hq (resp & item & Hr & Hok & Hin & Hid & Hterm) ev.
  pose proof (reachable_Inv s Hreach) as Hs.
  assert (hasMessage (clientId job) s = false) as Hgone.
  { apply hasMessage_false. intros m Hm.
    apply (inv_evicted s Hs job m); auto. congruence. }
  unfold ev. erewrite step_resume; [|exact Hl|reflexivity]. simpl.
  assert (messages (commit (pollTick_after_status k r (take h s)).1)
          = messages s) as Em
    by (rewrite commit_messages, pollTick_after_status_messages; reflexivity).
  split; [|split; [|split]].
  - apply hasJob_false. intros j. rewrite commit_jobs.
    unfold pollTick_after_status. rewrite Hr, Hok. simpl negb. cbv iota.
    intros Hj Heq.
    assert (j ∈ pendingQueueJobs s) as Hj'
      by (eapply elem_of_sublist;
          [exact Hj|apply (reconcile_sublist k _ (take h s))]).
    assert (j = job) as -> by (eapply same_clientId; eauto).
    revert Hj. apply reconcile_drops with (item := item); auto.
    + congruence.
    + rewrite Hid. intros ->. apply (inv_server_id s Hs job Hjob Hq).
  - apply hasMessage_false. rewrite Em. apply hasMessage_false, Hgone.
  - exact Em.
  - unfold evicts. rewrite Hgone. intros (Habs & _). discriminate.
Qed.

(** ** The poll timer *)

Lemma commit_timer_cleared s :
  pollIntervalRef (commit s) = pollIntervalRef s ∨
  (pollIntervalRef (commit s) = None ∧ pendingQueueJobs s = []).
Proof.
  unfold commit. repeat case_bool_decide; simpl; auto.
  right. split; [reflexivity|]. by apply length_zero_iff_nil.
Qed.

Lemma tickFails_catch k r s :
  tickFails r = true →
  ∃ e, pollTick_after_status k r s = pollTick_catch e s.
Proof.
  unfold tickFails, pollTick_after_status. destruct (postJson r) as [e|resp].
  - eauto.
  - intros ->. eauto.
Qed.

Lemma tickSucceeds_reconcile k r s :
  tickFails r = false →
  ∃ queue, pollTick_after_status k r s = reconcile k queue s.
Proof.
  unfold tickFails, pollTick_after_status. destruct (postJson r) as [e|resp].
  - discriminate.
  - intros ->. eauto.
Qed.

Lemma reconcile_timer k queue s :
  pollIntervalRef (reconcile k queue s).1 = pollIntervalRef s.
Proof. unfold reconcile. destruct (_ || _); reflexivity. Qed.

Lemma reconcile_count k queue s :
  pollFailureCountRef (reconcile k queue s).1 = pollFailureCountRef s.
Proof. unfold reconcile. destruct (_ || _); reflexivity. Qed.

Lemma reconcile_dep k queue s :
  effectDep (reconcile k queue s).1 = effectDep s.
Proof. unfold reconcile. destruct (_ || _); reflexivity. Qed.

(** What one turn, before its render, can do to the timer. *)
Lemma handle_timer ev s :
  pollIntervalRef (handle ev s).1 = pollIntervalRef s
  ∨ (pollIntervalRef (handle ev s).1 = None
     ∧ (pendingQueueJobs (handle ev s).1 = [] ∨ ceilingReached ev s))
  ∨ (pollIntervalRef s = None ∧ enqueueSucceeds ev s).
Proof.
  destruct ev; simpl handle.
  - left. unfold render. simpl. destruct (_ && _); reflexivity.
  - left. reflexivity.
  - left. reflexivity.
  - left. unfold submit. destruct uid as [uid|]; [|reflexivity].
    destruct (truthy (Some uid)); reflexivity.
  - left. reflexivity.
  - destruct (pollIntervalRef s) as [k|] eqn:Ek; [|left; simpl; exact Ek].
    unfold pollTick. case_bool_decide as Hlen.
    + right. left. simpl. split; [reflexivity|]. left.
      by apply length_zero_iff_nil.
    + left. case_bool_decide; simpl; exact Ek.
  - destruct (tasks s !! h) as [t|] eqn:Hl; [|left; reflexivity].
    destruct (resume t o (take h s)) as [r|] eqn:Hr; [|left; reflexivity].
    simpl.
    destruct t as [k|k|k chat|k chat|k|]; destruct o; simpl in Hr;
      try discriminate; injection Hr as <-.
    + left. unfold submit_after_limits. destruct allowed; reflexivity.
    + left. reflexivity.
    + left. destruct (submit_after_chat_cases k currentChatId (take h s))
        as [(_ & effs & -> & _)|(chat & -> & _ & _ & [(_ & ->)|(_ & ->)])];
        reflexivity.
    + left. reflexivity.
    + left. unfold submit_after_uploads. destruct attachments; reflexivity.
    + left. reflexivity.
    + unfold submit_after_enqueue. destruct (postJson r0) as [e|resp] eqn:Hp;
        [left; reflexivity|].
      destruct (er_queue resp) as [q|] eqn:Hq; [|left; reflexivity].
      destruct (_ || _) eqn:Egate; [left; reflexivity|].
      apply orb_false_iff in Egate as (Eok & Eid).
      apply negb_false_iff in Eok, Eid.
      simpl. unfold armPolling. simpl.
      destruct (pollIntervalRef s) eqn:Ek; [left; simpl; exact Ek|].
      right. right. split; [reflexivity|].
      exists h, k, chat, r0, resp, q. auto 10.
    + destruct (tickFails r0) eqn:Hfail.
      * destruct (tickFails_catch k r0 (take h s) Hfail) as (e & ->).
        unfold pollTick_catch. simpl. case_bool_decide as Hmax.
        -- right. left. simpl. split; [reflexivity|]. right.
           exists h, k, r0. auto.
        -- left. reflexivity.
      * destruct (tickSucceeds_reconcile k r0 (take h s) Hfail) as (queue & ->).
        left. rewrite reconcile_timer. reflexivity.
    + left. unfold cancel_after_reply. destruct (postJson r0); reflexivity.
  - left. reflexivity.
Qed.

(** The same for a whole turn, render included. *)
Lemma step_timer ev s :
  pollIntervalRef (step ev s).1 = pollIntervalRef s
  ∨ (pollIntervalRef (step ev s).1 = None
     ∧ (pendingQueueJobs (step ev s).1 = [] ∨ ceilingReached ev s))
  ∨ (pollIntervalRef s = None ∧ enqueueSucceeds ev s).
Proof.
  rewrite step_handle. simpl. rewrite commit_jobs.
  destruct (handle_timer ev s) as [E|[(E & Hwhy)|Harm]].
  - destruct (commit_timer_cleared (handle ev s).1) as [E'|(E' & Hnil)].
    + left. congruence.
    + right. left. auto.
  - right. left. split; [|exact Hwhy].
    destruct (commit_timer (handle ev s).1) as [E'|E']; congruence.
  - right. right. exact Harm.
Qed.

(** Every turn either only drops entries, or is a [submit] head that
    appends one entry, or is the end of a successful enqueue that
    attaches a server id. *)
Lemma step_jobs ev s :
  pendingQueueJobs (step ev s).1 `sublist_of` pendingQueueJobs s
  ∨ (∃ uid now created,
       ev = ESubmit (Some uid) now created ∧ uid ≠ ""
       ∧ pendingQueueJobs (step ev s).1 =
         pendingQueueJobs s ++ [queueMessageOf now created s])
  ∨ (∃ h k chat r response q,
       ev = EResume h (EnqueueReply r)
       ∧ tasks s !! h = Some (AwaitEnqueue k chat)
       ∧ postJson r = inr response ∧ er_success response = true
       ∧ er_queue response = Some q ∧ eq_id q ≠ ""
       ∧ pendingQueueJobs (step ev s).1 =
         attachServerId (sf_optimisticId k) q (pendingQueueJobs s)).
Proof.
  rewrite step_handle. cbn [fst]. rewrite commit_jobs.
  destruct ev; simpl handle.
  - left. unfold render. simpl. destruct (_ && _); reflexivity.
  - left. reflexivity.
  - left. reflexivity.
  - unfold submit. destruct uid as [uid|]; [|left; reflexivity].
    destruct (truthy (Some uid)) eqn:Hu; [|left; reflexivity].
    right. left. exists uid, now, created. split; [reflexivity|].
    split; [|reflexivity]. intros ->. discriminate.
  - left. simpl. apply sublist_filter.
  - left. destruct (pollIntervalRef s) as [k|]; [|reflexivity].
    unfold pollTick. repeat case_bool_decide; reflexivity.
  - destruct (tasks s !! h) as [t|] eqn:Hl; [|left; reflexivity].
    destruct (resume t o (take h s)) as [r|] eqn:Hr; [|left; reflexivity].
    simpl.
    destruct t as [k|k|k chat|k chat|k|]; destruct o; simpl in Hr;
      try discriminate; injection Hr as <-.
    + left. unfold submit_after_limits. destruct allowed; simpl;
        [reflexivity|apply sublist_filter].
    + left. simpl. apply sublist_filter.
    + left. destruct (submit_after_chat_cases k currentChatId (take h s))
        as [(_ & effs & -> & _)|(chat & -> & _ & _ & [(_ & ->)|(_ & ->)])];
        simpl; [apply sublist_filter|reflexivity|reflexivity].
    + left. simpl. apply sublist_filter.
    + left. unfold submit_after_uploads. destruct attachments; simpl;
        [reflexivity|apply sublist_filter].
    + left. simpl. apply sublist_filter.
    + unfold submit_after_enqueue.
      destruct (postJson r0) as [e|resp] eqn:Hp;
        [left; simpl; apply sublist_filter|].
      destruct (er_queue resp) as [q|] eqn:Hq;
        [|left; simpl; apply sublist_filter].
      destruct (_ || _) eqn:Egate; [left; simpl; apply sublist_filter|].
      apply orb_false_iff in Egate as (Eok & Eid).
      apply negb_false_iff in Eok, Eid.
      right. right. exists h, k, chat, r0, resp, q.
      repeat split; auto.
      * intros Heq. simpl in Eid. rewrite Heq in Eid. discriminate.
      * simpl. unfold armPolling. simpl.
        destruct (pollIntervalRef s); reflexivity.
    + left. destruct (tickFails r0) eqn:Hfail.
      * destruct (tickFails_catch k r0 (take h s) Hfail) as (e & ->).
        unfold pollTick_catch. simpl. case_bool_decide; reflexivity.
      * destruct (tickSucceeds_reconcile k r0 (take h s) Hfail) as (queue & ->).
        apply (reconcile_sublist k queue (take h s)).
    + left. unfold cancel_after_reply. destruct (postJson r0); reflexivity.
  - left. reflexivity.
Qed.

(** A successful enqueue leaves the timer armed. *)
Lemma enqueueSucceeds_arms ev s :
  effectDep s = length (pendingQueueJobs s) →
  enqueueSucceeds ev s → pollIntervalRef (step ev s).1 ≠ None.
Proof.
  intros Hdep (h & k & chat & r & response & q & -> & Hl & Hp & Hok & Hq & Hid).
  assert (resume (AwaitEnqueue k chat) (EnqueueReply r) (take h s)
          = Some (submit_after_enqueue k chat r (take h s))) as Hr
    by reflexivity.
  rewrite (step_resume s h _ _ _ Hl Hr). cbn [fst].
  unfold submit_after_enqueue. rewrite Hp, Hq, Hok, Hid. simpl.
  rewrite commit_settled.
  - unfold armPolling. simpl. destruct (pollIntervalRef s) eqn:Ek; simpl;
      [rewrite Ek|]; discriminate.
  - unfold armPolling. simpl. unfold attachServerId.
    destruct (pollIntervalRef s); simpl; rewrite length_fmap; exact Hdep.
Qed.

Lemma ceilingReached_disarms ev s :
  ceilingReached ev s → pollIntervalRef (step ev s).1 = None.
Proof.
  intros (h & k & r & -> & Hl & Hfail & Hmax).
  erewrite step_resume; [|exact Hl|reflexivity]. cbn [fst].
  destruct (tickFails_catch k r (take h s) Hfail) as (e & ->).
  destruct (commit_timer (pollTick_catch e (take h s)).1) as [E|E];
    [exact E|].
  rewrite E. unfold pollTick_catch. simpl.
  rewrite bool_decide_true by exact Hmax. reflexivity.
Qed.

(** C4 (as the code has it). In a session whose submissions get
    optimistic ids not yet in the table: an armed poll timer implies a
    non-empty table, whose entries need not carry a server id.  Every
    successful end of an enqueue request leaves the timer armed, and no
    turn other than the failing tick that reaches the failure ceiling
    breaks the implication from an entry with a server id to an armed
    timer.  A turn disarms an armed timer exactly when it leaves the
    table empty or is that failing tick, and a turn arms the timer only
    as the successful end of an enqueue request. *)
Theorem poll_timer_follows_table s ev :
  reachable s → fresh ev s →
  (pollIntervalRef s ≠ None → pendingQueueJobs s ≠ []) ∧
  (enqueueSucceeds ev s → pollIntervalRef (step ev s).1 ≠ None) ∧
  (((∃ job, job ∈ pendingQueueJobs s ∧ queueId job ≠ None) →
    pollIntervalRef s ≠ None) →
   ¬ ceilingReached ev s →
   (∃ job, job ∈ pendingQueueJobs (step ev s).1 ∧ queueId job ≠ None) →
   pollIntervalRef (step ev s).1 ≠ None) ∧
  (pollIntervalRef s ≠ None →
   (pollIntervalRef (step ev s).1 = None ↔
    pendingQueueJobs (step ev s).1 = [] ∨ ceilingReached ev s)) ∧
  (pollIntervalRef s = None → pollIntervalRef (step ev s).1 ≠ None →
   enqueueSucceeds ev s).
Proof.
  intros Hreach Hfresh.
  pose proof (reachable_Inv s Hreach) as Hs.
  pose proof (reachable_Inv _ (reachable_step ev s Hreach Hfresh)) as Hs'.
  assert (pollIntervalRef s ≠ None →
          (pollIntervalRef (step ev s).1 = None ↔
           pendingQueueJobs (step ev s).1 = [] ∨ ceilingReached ev s))
    as Hoff.
  { intros Harmed. split.
    - intros Hnone. destruct (step_timer ev s) as [E|[(_ & Hwhy)|(E & _)]].
      + congruence.
      + exact Hwhy.
      + congruence.
    - intros [Hnil|Hceil].
      + destruct (pollIntervalRef (step ev s).1) eqn:E; [|reflexivity].
        exfalso. apply (inv_armed _ Hs'); [congruence|exact Hnil].
      + apply ceilingReached_disarms, Hceil. }
  split; [apply (inv_armed s Hs)|].
  split; [apply enqueueSucceeds_arms, (inv_dep s Hs)|].
  split; [|split; [exact Hoff|]].
  - intros Hkept Hceil (job' & Hin' & Hq').
    destruct (pollIntervalRef s) as [running|] eqn:Ek.
    + intros Hnone. apply Hoff in Hnone; [|discriminate].
      destruct Hnone as [Hnil|Habs]; [|exact (Hceil Habs)].
      rewrite Hnil in Hin'. inversion Hin'.
    + assert (∀ job, job ∈ pendingQueueJobs s → queueId job = None) as Hnoid.
      { intros job Hin. destruct (queueId job) eqn:Eq; [|reflexivity].
        exfalso. apply Hkept; [|reflexivity]. exists job. split; [exact Hin|].
        congruence. }
      destruct (step_jobs ev s)
        as [Hsub|[(uid & now & created & -> & _ & Ej)
                 |(h & k & chat & r & resp & q & -> & Hl & Hp & Hok & Hq & Hid
                   & _)]].
      * exfalso. apply Hq', Hnoid. eapply elem_of_sublist; eauto.
      * exfalso. rewrite Ej in Hin'. apply elem_of_app in Hin' as [Hin'|Hin'].
        -- apply Hq', Hnoid, Hin'.
        -- apply list_elem_of_singleton in Hin'. subst job'. apply Hq'.
           reflexivity.
      * apply enqueueSucceeds_arms; [apply (inv_dep s Hs)|].
        exists h, k, chat, r, resp, q. repeat split; auto.
        simpl. rewrite bool_decide_false by exact Hid. reflexivity.
  - intros Hnone Hon. destruct (step_timer ev s) as [E|[(E & _)|(_ & Harm)]].
    + congruence.
    + congruence.
    + exact Harm.
Qed.

(** ** The failure counter *)

Lemma step_after_status s h k r :
  tasks s !! h = Some (AwaitStatus k) →
  step (EResume h (StatusReply r)) s =
  (commit (pollTick_after_status k r (take h s)).1,
   (pollTick_after_status k r (take h s)).2).
Proof. intros Hl. erewrite step_resume; [reflexivity|exact Hl|reflexivity]. Qed.

(** A failing tick seen from a settled state. *)
Lemma failing_tick s h k r :
  Inv s → tasks s !! h = Some (AwaitStatus k) → tickFails r = true →
  ∃ e,
    step (EResume h (StatusReply r)) s =
    pollTick_catch e (take h s).
Proof.
  intros Hs Hl Hfail. rewrite (step_after_status s h k r Hl).
  destruct (tickFails_catch k r (take h s) Hfail) as (e & ->).
  exists e. rewrite commit_settled.
  - destruct (pollTick_catch e (take h s)); reflexivity.
  - unfold pollTick_catch. simpl. case_bool_decide; simpl;
      apply (inv_dep s Hs).
Qed.

(** C5 (as the code has it). A tick that ends in an error (a thrown
    request or a body with [success: false]) adds one to the failure
    counter, and the counter goes back to zero when that brings it to
    the ceiling.  A tick that succeeds leaves the counter as it was;
    only when it empties the table does the clearing effect reset it. *)
Theorem failure_counter_after_tick s h k r :
  reachable s →
  tasks s !! h = Some (AwaitStatus k) →
  let s' := (step (EResume h (StatusReply r)) s).1 in
  (tickFails r = true →
   pollFailureCountRef s' =
   if bool_decide (MAX_QUEUE_POLL_FAILURES ≤ pollFailureCountRef s + 1)
   then 0 else pollFailureCountRef s + 1) ∧
  (tickFails r = false →
   pollFailureCountRef s' =
   if bool_decide (pendingQueueJobs s ≠ [] ∧ pendingQueueJobs s' = [])
   then 0 else pollFailureCountRef s).
Proof.
  intros Hreach Hl s'. pose proof (reachable_Inv s Hreach) as Hs.
  split; intros Hfail.
  - unfold s'. destruct (failing_tick s h k r Hs Hl Hfail) as (e & ->).
    unfold pollTick_catch. simpl. case_bool_decide; reflexivity.
  - unfold s'. rewrite (step_after_status s h k r Hl). simpl.
    destruct (tickSucceeds_reconcile k r (take h s) Hfail) as (queue & ->).
    rewrite commit_jobs.
    set (s0 := (reconcile k queue (take h s)).1).
    assert (pollFailureCountRef s0 = pollFailureCountRef s) as Ec
      by (unfold s0; rewrite reconcile_count; reflexivity).
    assert (effectDep s0 = length (pendingQueueJobs s)) as Ed
      by (unfold s0; rewrite reconcile_dep; apply (inv_dep s Hs)).
    unfold commit. rewrite Ed.
    destruct (pendingQueueJobs s) as [|j0 l0] eqn:Ejobs.
    + assert (pendingQueueJobs s0 = []) as ->.
      { pose proof (reconcile_sublist k queue (take h s)) as Hsub.
        simpl in Hsub. rewrite Ejobs in Hsub.
        apply sublist_nil_r in Hsub. exact Hsub. }
      rewrite (bool_decide_false (_ ∧ _)) by (intros (Hne & _); done).
      rewrite bool_decide_true by reflexivity. exact Ec.
    + destruct (pendingQueueJobs s0) as [|j1 l1] eqn:Ejobs0.
      * rewrite (bool_decide_true (_ ∧ _)) by done.
        rewrite (bool_decide_false (_ = length _)) by (simpl; lia).
        rewrite bool_decide_true by reflexivity. reflexivity.
      * rewrite (bool_decide_false (_ ∧ _)) by (intros (_ & Hnil); done).
        simpl. repeat case_bool_decide; simpl; try exact Ec; lia.
Qed.

(** C6 (as the code has it). The failing tick that brings the counter to
    the ceiling clears the timer, sets the counter back to zero, emits
    exactly one notification (the warning that queue updates are paused),
    makes no network call and leaves the table as it was.  From then on
    the timer does nothing, until the successful end of a later enqueue
    request arms a new one. *)
Theorem failure_ceiling_pauses_polling s h k r :
  reachable s →
  tasks s !! h = Some (AwaitStatus k) →
  tickFails r = true →
  MAX_QUEUE_POLL_FAILURES ≤ pollFailureCountRef s + 1 →
  let s' := (step (EResume h (StatusReply r)) s).1 in
  let effs := (step (EResume h (StatusReply r)) s).2 in
  pollIntervalRef s' = None ∧
  pollFailureCountRef s' = 0 ∧
  pendingQueueJobs s' = pendingQueueJobs s ∧
  count isToast effs = 1 ∧
  Toast "Queue updates paused"
    (Some "Stopped polling after repeated failures.") ToastWarning ∈ effs ∧
  count isNetworkCall effs = 0 ∧
  step ETimer s' = (s', []) ∧
  (∀ ev, pollIntervalRef (step ev s').1 ≠ None → enqueueSucceeds ev s').
Proof.
  intros Hreach Hl Hfail Hmax s' effs.
  pose proof (reachable_Inv s Hreach) as Hs.
  assert (reachable s') as Hreach'
    by (apply (reachable_step (EResume h (StatusReply r)) s Hreach); exact I).
  pose proof (reachable_Inv s' Hreach') as Hs'.
  assert (pollIntervalRef s' = None) as Hoff.
  { unfold s'. destruct (failing_tick s h k r Hs Hl Hfail) as (e & ->).
    unfold pollTick_catch. simpl. rewrite bool_decide_true by exact Hmax.
    reflexivity. }
  unfold s', effs in *.
  destruct (failing_tick s h k r Hs Hl Hfail) as (e & E).
  rewrite E in *. clear E. unfold pollTick_catch in *. simpl in *.
  rewrite bool_decide_true in * by exact Hmax. simpl in *.
  repeat split; try reflexivity.
  - apply elem_of_cons. right. apply elem_of_cons. left. reflexivity.
  - rewrite step_handle. simpl. rewrite commit_settled; [reflexivity|].
    apply (inv_dep _ Hs').
  - intros ev Hon.
    destruct (step_timer ev (clearPolling
      (set_pollFailureCountRef (pollFailureCountRef s + 1) (take h s))))
      as [E|[(E & _)|(_ & Harm)]].
    + simpl in E. congruence.
    + congruence.
    + exact Harm.
Qed.

(** ** Cancellation *)

(** C7 (as the code has it). Cancelling a job that has server id [q]
    takes its entry out of the table in the synchronous head of the
    handler, while the cancel request is still in flight.  The handler
    does not touch the transcript: no optimistic message of the job is
    there before or after, because it left the transcript when the
    server id was attached.  Whatever the reply, table and transcript
    then stay as they are, and a request that throws (no connection, a
    status outside 2xx, a body that does not parse) is reported by one
    notification.  The handler does not look at the job's status. *)
Theorem cancel_removes_before_reply s job q :
  reachable s →
  job ∈ pendingQueueJobs s → queueId job = Some q →
  let s1 := (step (ECancel q) s).1 in
  hasJob (clientId job) s1 = false ∧
  messages s1 = messages s ∧
  hasMessage (clientId job) s = false ∧
  hasMessage (clientId job) s1 = false ∧
  (step (ECancel q) s).2 =
    [PostCancel {| cb_queueId := q;
                   cb_userId := user_id <$> user (props s);
                   cb_isAuthenticated := isAuthenticated s |}] ∧
  tasks s1 !! nextTask s = Some AwaitCancel ∧
  ∀ r,
    let reply := EResume (nextTask s) (CancelReply r) in
    pendingQueueJobs (step reply s1).1 = pendingQueueJobs s1 ∧
    messages (step reply s1).1 = messages s1 ∧
    ∀ e, postJson r = inl e →
      (step reply s1).2 =
        [ConsoleError "Failed to cancel queue job" e;
         Toast "Failed to cancel job" None ToastError].
Proof.
  intros Hreach Hjob Hq s1. pose proof (reachable_Inv s Hreach) as Hs.
  assert (tasks s1 !! nextTask s = Some AwaitCancel) as Hl.
  { unfold s1. rewrite step_handle. simpl. rewrite commit_tasks. simpl.
    apply lookup_insert_eq. }
  assert (messages s1 = messages s) as Hm.
  { unfold s1. rewrite step_handle. simpl. rewrite commit_messages.
    reflexivity. }
  assert (hasMessage (clientId job) s = false) as Hgone.
  { apply hasMessage_false. intros m Hin.
    apply (inv_evicted s Hs job m); auto. congruence. }
  split; [|split; [exact Hm|split; [exact Hgone|split; [|split; [|split]]]]].
  - apply hasJob_false. intros j. unfold s1. rewrite step_handle. simpl.
    rewrite commit_jobs. simpl. rewrite list_elem_of_filter.
    intros (Hne & Hj) Heq.
    assert (j = job) as -> by (eapply same_clientId; eauto). congruence.
  - unfold hasMessage in *. rewrite Hm. exact Hgone.
  - rewrite step_handle. reflexivity.
  - exact Hl.
  - intros r reply. unfold reply.
    erewrite step_resume; [|exact Hl|reflexivity]. simpl.
    unfold cancel_after_reply. destruct (postJson r); simpl;
      rewrite commit_jobs, commit_messages;
      (split; [reflexivity|split; [reflexivity|]]);
      intros e' He'; [congruence|discriminate].
Qed.

(** A cancel reply that round-trips is not looked at: a body with
    [success: false] produces no notification. *)
Lemma cancel_reply_body_is_ignored body s :
  cancel_after_reply (OkJson body) s = (s, []).
Proof. reflexivity. Qed.

(** ** A refused enqueue *)

(** C8 (as the code has it). When the enqueue endpoint answers with
    [success: false], the optimistic message and the table entry of the
    submission are evicted and the turn arms no timer.  The error string
    of the server is the message of the thrown error and reaches the
    console only; the notification shown has the fixed title
    "Failed to queue message". *)
Theorem refused_enqueue_evicts s h k chat r response :
  tasks s !! h = Some (AwaitEnqueue k chat) →
  postJson r = inr response → er_success response = false →
  let s' := (step (EResume h (EnqueueReply r)) s).1 in
  hasMessage (sf_optimisticId k) s' = false ∧
  hasJob (sf_optimisticId k) s' = false ∧
  (pollIntervalRef s' = pollIntervalRef s ∨ pollIntervalRef s' = None) ∧
  (step (EResume h (EnqueueReply r)) s).2 =
    [ConsoleError "Failed to process queued submit"
       (or_else (er_error response) "Failed to enqueue prompt");
     CleanupOptimisticAttachments
       (filePartUrls (msg_parts (sf_optimisticMessage k)));
     Toast "Failed to queue message" None ToastError].
Proof.
  intros Hl Hr Hok s'.
  assert (submit_after_enqueue k chat r (take h s) =
          submit_catch k (or_else (er_error response) "Failed to enqueue prompt")
            (take h s)) as E.
  { unfold submit_after_enqueue. rewrite Hr, Hok.
    destruct (er_queue response); reflexivity. }
  unfold s'. erewrite step_resume; [|exact Hl|reflexivity]. simpl.
  rewrite E. simpl. split; [|split; [|split]].
  - apply hasMessage_false. intros m. rewrite commit_messages. simpl.
    rewrite evictMessage_spec. tauto.
  - apply hasJob_false. intros j. rewrite commit_jobs. simpl.
    rewrite evictJob_spec. tauto.
  - match goal with |- pollIntervalRef (commit ?x) = _ ∨ _ =>
      destruct (commit_timer x) as [Ec|Ec] end; [right|left]; exact Ec.
  - reflexivity.
Qed.

(** ** The session reset *)

(** C9 (as the code has it). A render with new props, a change of chat
    included, leaves the table of pending jobs, the poll timer, the
    failure counter and the suspended calls as they are and calls no
    collaborator, so no cancel request is sent.  Its only effect on the
    engine is to empty the transcript when [chatId] goes from a chat to
    [null]. *)
Theorem chat_switch_keeps_queue s p :
  reachable s →
  let s' := (step (ERender p) s).1 in
  pendingQueueJobs s' = pendingQueueJobs s ∧
  pollIntervalRef s' = pollIntervalRef s ∧
  pollFailureCountRef s' = pollFailureCountRef s ∧
  tasks s' = tasks s ∧
  (step (ERender p) s).2 = [] ∧
  messages s' =
    (if bool_decide (prevChatIdRef s ≠ None ∧ chatId p = None)
     then [] else messages s).
Proof.
  intros Hreach s'. pose proof (reachable_Inv s Hreach) as Hs.
  unfold s'. rewrite step_handle. simpl handle.
  assert (effectDep (render p s).1 = length (pendingQueueJobs (render p s).1))
    as Hdep.
  { unfold render. simpl. destruct (_ && _); simpl; apply (inv_dep s Hs). }
  cbn [fst snd]. rewrite (commit_settled _ Hdep).
  unfold render. simpl.
  destruct (decide (prevChatIdRef s ≠ None)) as [H1|H1];
    destruct (decide (chatId p = None)) as [H2|H2];
    destruct (decide (0 < length (messages s))) as [H3|H3];
    rewrite ?(bool_decide_true _ H1), ?(bool_decide_false _ H1),
      ?(bool_decide_true _ H2), ?(bool_decide_false _ H2),
      ?(bool_decide_true _ H3), ?(bool_decide_false _ H3); simpl;
    repeat split;
    try (rewrite bool_decide_true by tauto);
    try (rewrite bool_decide_false by tauto); try reflexivity.
  destruct (messages s); [reflexivity|simpl in H3; lia].
Qed.

(** ** The user id of each request *)

Lemma UidsFrom_mono U U' s :
  (∀ u, u ∈ U → u ∈ U') → UidsFrom U s → UidsFrom U' s.
Proof. intros Hsub (Ht & Hp). split; eauto. Qed.

Lemma UidsFrom_commit U s : UidsFrom U s → UidsFrom U (commit s).
Proof.
  intros (Ht & Hp). split.
  - rewrite commit_tasks. exact Ht.
  - intros k. destruct (commit_timer s) as [E|E]; rewrite E; [done|auto].
Qed.

(** What a turn may do to the suspended calls and the timer. *)
Lemma UidsFrom_turn U s s' :
  UidsFrom U s →
  (∀ h t, tasks s' !! h = Some t →
          tasks s !! h = Some t ∨ ∀ u, taskUid t = Some u → u ∈ U) →
  (∀ k, pollIntervalRef s' = Some k →
        pollIntervalRef s = Some k ∨ pf_uid k ∈ U) →
  UidsFrom U s'.
Proof.
  intros (Ht & Hp) Htasks Htimer. split.
  - intros h t u Hl Hu. destruct (Htasks h t Hl) as [Hold|Hnew]; eauto.
  - intros k Hk. destruct (Htimer k Hk) as [Hold|Hnew]; eauto.
Qed.

Lemma requestsUse_nil U o : requestsUse U o [].
Proof. repeat split; intros b Hb; inversion Hb. Qed.

Lemma requestsUse_app U o l1 l2 :
  requestsUse U o l1 → requestsUse U o l2 → requestsUse U o (l1 ++ l2).
Proof.
  intros (A1 & B1 & C1) (A2 & B2 & C2).
  repeat split; intros b Hb; apply elem_of_app in Hb as [Hb|Hb]; auto.
Qed.

Lemma requestsUse_mono U U' o effs :
  (∀ u, u ∈ U → u ∈ U') → requestsUse U o effs → requestsUse U' o effs.
Proof. intros Hsub (A & B & C). repeat split; auto. Qed.

(** Effects that are no request at all. *)
Lemma requestsUse_quiet U o effs :
  count isNetworkCall effs = 0 → requestsUse U o effs.
Proof.
  intros Hc.
  assert (∀ e, e ∈ effs → isNetworkCall e = false) as Hq.
  { intros e He. destruct (isNetworkCall e) eqn:E; [|reflexivity].
    exfalso. unfold count in Hc.
    assert (e ∈ filter (λ e, isNetworkCall e) effs) as Hin
      by (apply list_elem_of_filter; split; [rewrite E; exact I|exact He]).
    destruct (filter _ effs); [inversion Hin|discriminate]. }
  repeat split; intros b Hb; apply Hq in Hb; discriminate.
Qed.

Lemma reconcile_quiet k queue s :
  count isNetworkCall (reconcile k queue s).2 = 0.
Proof.
  unfold reconcile. destruct (_ || _); [|reflexivity]. simpl.
  rewrite count_app.
  assert (∀ l : list PendingQueueMessage,
            count isNetworkCall
              ((λ _, Toast "Queued message failed" None ToastError) <$> l) = 0)
    as -> by (induction l; [reflexivity|assumption]).
  case_bool_decide; reflexivity.
Qed.

Lemma reconcile_tasks k queue s : tasks (reconcile k queue s).1 = tasks s.
Proof. unfold reconcile. destruct (_ || _); reflexivity. Qed.

Lemma handle_uids U ev s :
  UidsFrom U s →
  UidsFrom (U ++ submittedUids [ev]) (handle ev s).1 ∧
  requestsUse U (user_id <$> user (props s)) (handle ev s).2.
Proof.
  intros HU. pose proof HU as (Ht & Hp).
  assert (∀ s', UidsFrom U s' → UidsFrom (U ++ submittedUids [ev]) s') as Hmono
    by (intros s'; apply UidsFrom_mono; intros u Hu; apply elem_of_app; auto).
  destruct ev; simpl handle.
  - split; [|apply requestsUse_nil]. apply Hmono.
    apply (UidsFrom_turn U s); auto; unfold render; simpl;
      destruct (_ && _); simpl; auto.
  - split; [|apply requestsUse_quiet; reflexivity]. apply Hmono.
    apply (UidsFrom_turn U s); simpl; auto.
  - split; [|apply requestsUse_nil]. apply Hmono.
    apply (UidsFrom_turn U s); simpl; auto.
  - unfold submit. destruct uid as [uid|];
      [destruct (truthy (Some uid))|];
      try (split; [|apply requestsUse_nil]; apply Hmono;
           apply (UidsFrom_turn U s); simpl; auto; fail).
    split; [|apply requestsUse_quiet; reflexivity]. cbv zeta. simpl fst.
    split.
    + intros h t u. simpl. rewrite lookup_insert. case_decide.
      * intros Heq Hu. simplify_eq. simpl in Hu. simplify_eq.
        apply elem_of_app. right. simpl. left.
      * intros Hl Hu. apply elem_of_app. left. eauto.
    + intros k Hk. simpl in Hk. apply elem_of_app. left. auto.
  - split.
    + apply Hmono. apply (UidsFrom_turn U s); simpl; auto.
      intros h t. rewrite lookup_insert. case_decide; [|auto].
      intros Heq. simplify_eq. right. intros u Hu. discriminate.
    + repeat split; intros b Hb; apply list_elem_of_singleton in Hb;
        simplify_eq. reflexivity.
  - destruct (pollIntervalRef s) as [k|] eqn:Ek;
      [|split; [apply Hmono, HU|apply requestsUse_nil]].
    unfold pollTick. repeat case_bool_decide; simpl.
    + split; [|apply requestsUse_nil]. apply Hmono.
      apply (UidsFrom_turn U s); simpl; auto. intros k' Hk'. discriminate.
    + split; [apply Hmono, HU|apply requestsUse_nil].
    + split.
      * apply Hmono. apply (UidsFrom_turn U s); simpl; auto.
        intros h t. rewrite lookup_insert. case_decide; [|auto].
        intros Heq. simplify_eq. right. intros u Hu. simpl in Hu.
        simplify_eq. auto.
      * repeat split; intros b Hb; apply list_elem_of_singleton in Hb;
          simplify_eq. simpl. auto.
  - destruct (tasks s !! h) as [t|] eqn:Hl;
      [|split; [apply Hmono, HU|apply requestsUse_nil]].
    destruct (resume t o (take h s)) as [r|] eqn:Hr;
      [|split; [apply Hmono, HU|apply requestsUse_nil]].
    simpl.
    assert (∀ k chat atts, taskUid t = Some (sf_uid k) →
              UidsFrom U (submit_enqueue k chat atts (take h s)).1 ∧
              requestsUse U (user_id <$> user (props s))
                (submit_enqueue k chat atts (take h s)).2) as Henq.
    { intros k chat atts Hk. split.
      - apply (UidsFrom_turn U s); simpl; auto.
        intros h' t'. rewrite lookup_insert. case_decide.
        + intros Heq. simplify_eq. right. intros u Hu. simpl in Hu.
          simplify_eq. eauto.
        + rewrite lookup_delete_Some. tauto.
      - repeat split; intros b Hb; apply list_elem_of_singleton in Hb;
          simplify_eq. simpl. eauto. }
    assert (∀ s', tasks s' = delete h (tasks s) →
              (pollIntervalRef s' = pollIntervalRef s
               ∨ pollIntervalRef s' = None) →
              UidsFrom U s') as Hdone.
    { intros s' Et Ep. apply (UidsFrom_turn U s); auto.
      - intros h' t'. rewrite Et, lookup_delete_Some. tauto.
      - intros k' Hk'. destruct Ep as [Ep|Ep]; rewrite Ep in Hk'; [auto|done]. }
    assert (∀ s0 t', tasks s0 = delete h (tasks s) →
              pollIntervalRef s0 = pollIntervalRef s →
              nextTask s0 = nextTask s →
              taskUid t' = taskUid t →
              UidsFrom U (suspend t' s0)) as Hnext.
    { intros s0 t' Et Ep En Hk. apply (UidsFrom_turn U s); simpl; auto.
      - intros h' t''. rewrite Et, lookup_insert. case_decide.
        + intros Heq. simplify_eq. right. intros u Hu. rewrite Hk in Hu. eauto.
        + rewrite lookup_delete_Some. tauto.
      - rewrite Ep. auto. }
    destruct t as [k|k|k chat|k chat|k|]; destruct o; simpl in Hr;
      try discriminate; injection Hr as <-.
    + unfold submit_after_limits. destruct allowed; simpl.
      * split; [|apply requestsUse_nil]. apply Hmono, Hnext; reflexivity.
      * split; [|apply requestsUse_quiet; reflexivity].
        apply Hmono, Hdone; simpl; auto.
    + split; [|apply requestsUse_quiet; reflexivity].
      apply Hmono, Hdone; simpl; auto.
    + destruct (submit_after_chat_cases k currentChatId (take h s))
        as [(_ & effs & -> & _ & Hq)|(chat & -> & _ & _ & [(_ & ->)|(_ & ->)])].
      * split; [|apply requestsUse_quiet; exact Hq].
        apply Hmono, Hdone; simpl; auto.
      * split; [|apply requestsUse_nil]. apply Hmono, Hnext; reflexivity.
      * destruct (Henq k chat [] eq_refl) as (A & B). split; [apply Hmono, A|exact B].
    + split; [|apply requestsUse_quiet; reflexivity].
      apply Hmono, Hdone; simpl; auto.
    + unfold submit_after_uploads. destruct attachments as [atts|].
      * destruct (Henq k chat atts eq_refl) as (A & B).
        split; [apply Hmono, A|exact B].
      * split; [|apply requestsUse_quiet; reflexivity].
        apply Hmono, Hdone; simpl; auto.
    + split; [|apply requestsUse_quiet; reflexivity].
      apply Hmono, Hdone; simpl; auto.
    + unfold submit_after_enqueue.
      assert (∀ e, UidsFrom (U ++ submittedUids [EResume h (EnqueueReply r0)])
                     (submit_catch k e (take h s)).1 ∧
                   requestsUse U (user_id <$> user (props s))
                     (submit_catch k e (take h s)).2) as Hcatch.
      { intros e. split; [|apply requestsUse_quiet; reflexivity].
        apply Hmono, Hdone; simpl; auto. }
      destruct (postJson r0) as [e|resp]; [apply Hcatch|].
      destruct (er_queue resp) as [q|]; [|apply Hcatch].
      destruct (_ || _); [apply Hcatch|].
      split.
      * apply Hmono. simpl. apply (UidsFrom_turn U s); simpl.
        -- exact HU.
        -- intros h' t'. unfold armPolling. simpl.
           destruct (pollIntervalRef s); simpl;
             rewrite lookup_delete_Some; tauto.
        -- intros k'. unfold armPolling. simpl.
           destruct (pollIntervalRef s) eqn:Ek; simpl; [rewrite Ek; auto|].
           intros Heq. simplify_eq. right. simpl.
           apply (Ht h (AwaitEnqueue k chat)); auto.
      * apply requestsUse_quiet. simpl. case_bool_decide; reflexivity.
    + destruct (tickFails r0) eqn:Hfail.
      * destruct (tickFails_catch k r0 (take h s) Hfail) as (e & ->).
        unfold pollTick_catch. simpl. case_bool_decide; simpl.
        -- split; [|apply requestsUse_quiet; reflexivity].
           apply Hmono, Hdone; simpl; auto.
        -- split; [|apply requestsUse_quiet; reflexivity].
           apply Hmono, Hdone; simpl; auto.
      * destruct (tickSucceeds_reconcile k r0 (take h s) Hfail) as (queue & ->).
        split; [|apply requestsUse_quiet, reconcile_quiet].
        apply Hmono, Hdone.
        -- rewrite reconcile_tasks. reflexivity.
        -- left. rewrite reconcile_timer. reflexivity.
    + unfold cancel_after_reply. destruct (postJson r0); simpl.
      * split; [|apply requestsUse_quiet; reflexivity].
        apply Hmono, Hdone; simpl; auto.
      * split; [|apply requestsUse_nil]. apply Hmono, Hdone; simpl; auto.
  - split; [|apply requestsUse_nil]. apply Hmono.
    apply (UidsFrom_turn U s); simpl; auto.
Qed.

Lemma step_uids U ev s :
  UidsFrom U s →
  UidsFrom (U ++ submittedUids [ev]) (step ev s).1 ∧
  requestsUse U (user_id <$> user (props s)) (step ev s).2.
Proof.
  intros HU. rewrite step_handle. simpl.
  destruct (handle_uids U ev s HU) as (A & B).
  split; [apply UidsFrom_commit, A|exact B].
Qed.

(** Only a render changes the props. *)
Lemma step_props ev s :
  props (step ev s).1 =
  match ev with ERender p => p | _ => props s end.
Proof.
  rewrite step_handle. simpl. rewrite commit_props.
  destruct ev; simpl handle; try reflexivity.
  - unfold render. simpl. destruct (_ && _); reflexivity.
  - unfold submit. destruct uid as [uid|]; [|reflexivity].
    destruct (truthy (Some uid)); reflexivity.
  - destruct (pollIntervalRef s) as [k|]; [|reflexivity].
    unfold pollTick. repeat case_bool_decide; reflexivity.
  - destruct (tasks s !! h) as [t|] eqn:Hl; [|reflexivity].
    destruct (resume t o (take h s)) as [r|] eqn:Hr; [|reflexivity].
    simpl.
    destruct t as [k|k|k chat|k chat|k|]; destruct o; simpl in Hr;
      try discriminate; injection Hr as <-; try reflexivity.
    + unfold submit_after_limits. destruct allowed; reflexivity.
    + destruct (submit_after_chat_cases k currentChatId (take h s))
        as [(_ & effs & -> & _)|(chat & -> & _ & _ & [(_ & ->)|(_ & ->)])];
        reflexivity.
    + unfold submit_after_uploads. destruct attachments; reflexivity.
    + unfold submit_after_enqueue. destruct (postJson r0); [reflexivity|].
      destruct (er_queue _); [|reflexivity].
      destruct (_ || _); [reflexivity|]. simpl. unfold armPolling. simpl.
      destruct (pollIntervalRef s); reflexivity.
    + unfold pollTick_after_status, pollTick_catch, reconcile.
      destruct (postJson r0); [case_bool_decide; reflexivity|].
      destruct (sr_success _); simpl; [|case_bool_decide; reflexivity].
      destruct (_ || _); reflexivity.
    + unfold cancel_after_reply. destruct (postJson r0); reflexivity.
Qed.

Lemma submittedUids_cons ev evs :
  submittedUids (ev :: evs) = submittedUids [ev] ++ submittedUids evs.
Proof. unfold submittedUids. simpl. destruct ev; try destruct uid; reflexivity. Qed.

Lemma renderedProps_cons ev evs :
  renderedProps (ev :: evs) = renderedProps [ev] ++ renderedProps evs.
Proof. unfold renderedProps. simpl. destruct ev; reflexivity. Qed.

(** A session whose props never name a user: every request of the trace
    carries a user id resolved for one of its submissions, except the
    cancel requests, which carry none. *)
Lemma run_uids evs U s :
  UidsFrom U s → user (props s) = None →
  Forall (λ p, user p = None) (renderedProps evs) →
  UidsFrom (U ++ submittedUids evs) (run evs s).1 ∧
  requestsUse (U ++ submittedUids evs) None (run evs s).2.
Proof.
  revert U s. induction evs as [|ev evs IH]; intros U s HU Hguest Hprops.
  - simpl. split; [|apply requestsUse_nil].
    eapply UidsFrom_mono; [|exact HU]. intros u Hu. apply elem_of_app. auto.
  - rewrite renderedProps_cons in Hprops.
    apply Forall_app in Hprops as (Hp1 & Hp2).
    destruct (step_uids U ev s HU) as (A & B). rewrite Hguest in B.
    assert (user (props (step ev s).1) = None) as Hguest'.
    { rewrite step_props. destruct ev; try exact Hguest.
      unfold renderedProps in Hp1. simpl in Hp1.
      apply Forall_cons in Hp1 as (Hp1 & _). exact Hp1. }
    rewrite submittedUids_cons, app_assoc. cbn [run].
    destruct (step ev s) as [s1 e1]. cbn [fst snd] in A, B, Hguest'.
    destruct (IH _ s1 A Hguest' Hp2) as (A2 & B2).
    destruct (run evs s1) as [s2 e2]. cbn [fst snd] in A2, B2 |- *.
    split; [exact A2|].
    apply requestsUse_app; [|exact B2].
    eapply requestsUse_mono; [|exact B]. intros u Hu.
    apply elem_of_app. left. apply elem_of_app. left. exact Hu.
Qed.

(** C10. The cancel request sends [user?.id], the id of the user profile
    in the props, which is undefined when there is no profile; enqueue
    and status requests send the id that the guest-id lookup resolved
    for a submission.  So in a session without a user profile every
    cancel request goes out without a user id, while every enqueue and
    status request carries one resolved for a submission of that
    session. *)
Theorem cancel_sends_profile_id p initialMessages draftValue evs :
  (∀ q s, (step (ECancel q) s).2 =
          [PostCancel {| cb_queueId := q;
                         cb_userId := user_id <$> user (props s);
                         cb_isAuthenticated := isAuthenticated s |}]) ∧
  (user p = None →
   Forall (λ p', user p' = None) (renderedProps evs) →
   let effs := (run evs (mount p initialMessages draftValue)).2 in
   (∀ b, PostCancel b ∈ effs → cb_userId b = None) ∧
   (∀ b, PostEnqueue b ∈ effs → eb_userId b ∈ submittedUids evs) ∧
   (∀ b, PostStatus b ∈ effs → sb_userId b ∈ submittedUids evs)).
Proof.
  split; [intros q s; rewrite step_handle; reflexivity|].
  intros Hguest Hprops effs.
  assert (UidsFrom [] (mount p initialMessages draftValue)) as H0.
  { split; simpl; [intros h t u Hl|intros k Hk]; [|discriminate].
    rewrite lookup_empty in Hl. discriminate. }
  destruct (run_uids evs [] _ H0 Hguest Hprops) as (_ & A & B & C).
  simpl in A, B, C. auto.
Qed.

(** * Further properties of the hook *)

(** ** How a turn changes the table *)

Lemma attachServerId_entryData c q l :
  entryData <$> attachServerId c q l = entryData <$> l.
Proof.
  unfold attachServerId. rewrite <- list_fmap_compose.
  apply list_fmap_ext. intros i j _. simpl. case_bool_decide; reflexivity.
Qed.

(** X1. No turn reorders the table or rewrites the client id, prompt
    text, creation time or attachments of an entry: what a turn leaves
    is, on these fields, a subsequence of what it found, with at most the
    entry of a new submission appended at the end. *)
Theorem table_entries_are_stable ev s :
  entryData <$> pendingQueueJobs (step ev s).1 `sublist_of`
  (entryData <$> pendingQueueJobs s) ++
  match ev with
  | ESubmit (Some _) now created => [entryData (queueMessageOf now created s)]
  | _ => []
  end.
Proof.
  destruct (step_jobs ev s)
    as [Hsub|[(uid & now & created & -> & _ & ->)
             |(h & k & chat & r & resp & q & -> & _ & _ & _ & _ & _ & ->)]].
  - apply sublist_inserts_r. by apply fmap_sublist.
  - rewrite fmap_app. reflexivity.
  - rewrite attachServerId_entryData, app_nil_r. reflexivity.
Qed.

(** X2. Along every trace from the mount, an entry whose local status is
    "processing" has a server id. *)
Theorem processing_has_server_id p initialMessages draftValue evs job :
  job ∈ pendingQueueJobs (run evs (mount p initialMessages draftValue)).1 →
  status job = StProcessing → queueId job ≠ None.
Proof.
  assert (∀ evs s,
            (∀ j, j ∈ pendingQueueJobs s → status j = StProcessing →
                  queueId j ≠ None) →
            ∀ j, j ∈ pendingQueueJobs (run evs s).1 →
                 status j = StProcessing → queueId j ≠ None) as Hrun.
  { clear. induction evs as [|ev evs IH]; intros s Hs; [exact Hs|].
    cbn [run]. pose proof (step_jobs ev s) as Hstep.
    destruct (step ev s) as [s1 e1]. cbn [fst] in Hstep.
    specialize (IH s1). destruct (run evs s1) as [s2 e2]. cbn [fst] in *.
    apply IH. intros j Hj Hst.
    destruct Hstep
      as [Hsub|[(uid & now & created & _ & _ & E)
               |(h & k & chat & r & resp & q & _ & _ & _ & _ & _ & _ & E)]].
    - apply Hs; [eapply elem_of_sublist; eauto|exact Hst].
    - rewrite E in Hj. apply elem_of_app in Hj as [Hj|Hj]; [auto|].
      apply list_elem_of_singleton in Hj. subst j. discriminate.
    - rewrite E in Hj.
      apply attachServerId_elem in Hj as [(_ & ->)|(Hj & _)]; [done|auto]. }
  apply Hrun. intros j Hj. inversion Hj.
Qed.

(** X3. Once an entry has a server id, nothing rewrites it: after any
    turn of a session, an entry under the same client id is the very
    same entry, server id and status included.  Sessions are those whose
    submissions get optimistic ids not yet in the table. *)
Theorem server_id_is_write_once s ev job job' :
  reachable s → fresh ev s →
  job ∈ pendingQueueJobs s → queueId job ≠ None →
  job' ∈ pendingQueueJobs (step ev s).1 → clientId job' = clientId job →
  job' = job.
Proof.
  intros Hreach Hfresh Hjob Hq Hjob' Hid.
  pose proof (reachable_Inv s Hreach) as Hs.
  destruct (step_jobs ev s)
    as [Hsub|[(uid & now & created & -> & _ & E)
             |(h & k & chat & r & resp & q & -> & Hl & _ & _ & _ & _ & E)]].
  - eapply same_clientId; eauto. eapply elem_of_sublist; eauto.
  - rewrite E in Hjob'. apply elem_of_app in Hjob' as [Hjob'|Hjob'].
    + eapply same_clientId; eauto.
    + apply list_elem_of_singleton in Hjob'. subst job'. simpl in Hid.
      exfalso. apply Hfresh. rewrite Hid. apply list_elem_of_fmap. eauto.
  - rewrite E in Hjob'.
    apply attachServerId_elem in Hjob' as [(Hc & _)|(Hjob' & _)].
    + exfalso.
      destruct (inv_task_job s Hs h _ k Hl eq_refl) as (job0 & Hin0 & Hid0 & Hq0).
      assert (job0 = job) as -> by (eapply same_clientId; eauto; congruence).
      contradiction.
    + eapply same_clientId; eauto.
Qed.

(** X4. While a [submit] call waits at an [await], its entry is in the
    table and has no server id yet, in a session whose submissions get
    optimistic ids not yet in the table. *)
Theorem waiting_submission_keeps_its_entry s h t k :
  reachable s → tasks s !! h = Some t → frame_of t = Some k →
  ∃ job, job ∈ pendingQueueJobs s ∧ clientId job = sf_optimisticId k
         ∧ queueId job = None.
Proof. intros Hreach. apply (inv_task_job s (reachable_Inv s Hreach)). Qed.

(** X5. Between turns the failure counter is below the ceiling. *)
Theorem failure_counter_below_ceiling s :
  reachable s → pollFailureCountRef s < MAX_QUEUE_POLL_FAILURES.
Proof. intros Hreach. apply (inv_count s (reachable_Inv s Hreach)). Qed.

(** X6. No entry of the table has the empty string as its server id. *)
Theorem server_ids_are_not_empty s job :
  reachable s → job ∈ pendingQueueJobs s → queueId job ≠ Some "".
Proof. intros Hreach. apply (inv_server_id s (reachable_Inv s Hreach)). Qed.

(** ** What a successful tick keeps and reports *)

Lemma terminal_cases st :
  terminal st = true ↔ st = completed ∨ st = failed ∨ st = cancelled.
Proof. destruct st; simpl; split; intros H; try discriminate; auto;
  destruct H as [H|[H|H]]; discriminate. Qed.

Lemma verdict_keep_iff queue job :
  verdict (list_to_set (qs_id <$> completedOf queue))
          (list_to_set (qs_id <$> failedOf queue)) job = Keep
  ↔ ¬ reportedTerminal queue job.
Proof.
  unfold verdict, reportedTerminal.
  destruct (queueId job) as [q|] eqn:Hq;
    [|split; [intros _ (q & item & Habs & _); discriminate|reflexivity]].
  simpl. destruct (decide (q = "")) as [->|Hne].
  { simpl. split; [|reflexivity].
    intros _ (q & item & Heq & Hne & _). congruence. }
  rewrite (bool_decide_false _ Hne). simpl.
  assert (q ∈ (list_to_set (qs_id <$> failedOf queue) : gset string)
          ∨ q ∈ (list_to_set (qs_id <$> completedOf queue) : gset string)
          ↔ ∃ item, item ∈ queue ∧ qs_id item = q
                    ∧ terminal (qs_status item) = true) as Hset.
  { rewrite !elem_of_list_to_set, !list_elem_of_fmap. split.
    - intros [(item & -> & Hin)|(item & -> & Hin)].
      + apply failedOf_elem in Hin as (Hin & Hst). exists item.
        repeat split; auto. apply terminal_cases. tauto.
      + apply completedOf_elem in Hin as (Hin & Hst). exists item.
        repeat split; auto. apply terminal_cases. tauto.
    - intros (item & Hin & <- & Hst). apply terminal_cases in Hst.
      destruct Hst as [Hst|Hst].
      + right. exists item. split; [reflexivity|].
        apply completedOf_elem. auto.
      + left. exists item. split; [reflexivity|]. apply failedOf_elem. auto. }
  split.
  - intros Hkeep (q' & item & Heq & _ & Hin & Hid & Hst).
    injection Heq as <-.
    assert (∃ item, item ∈ queue ∧ qs_id item = q
                    ∧ terminal (qs_status item) = true) as Hex by eauto.
    apply Hset in Hex. repeat case_bool_decide; try discriminate.
    destruct Hex; contradiction.
  - intros Hnot. repeat case_bool_decide; try reflexivity; exfalso;
      apply Hnot.
    + destruct (proj1 Hset) as (item & ? & ? & ?); [left; assumption|].
      exists q, item. auto.
    + destruct (proj1 Hset) as (item & ? & ? & ?); [right; assumption|].
      exists q, item. auto.
Qed.

Lemma no_terminal_item queue :
  bool_decide (0 < length (completedOf queue))
  || bool_decide (0 < length (failedOf queue)) = false →
  ∀ item, item ∈ queue → terminal (qs_status item) = false.
Proof.
  intros Hnone item Hin. apply orb_false_iff in Hnone as (Hc & Hf).
  apply bool_decide_eq_false in Hc, Hf.
  destruct (terminal (qs_status item)) eqn:Hst; [|reflexivity].
  exfalso. apply terminal_cases in Hst. destruct Hst as [Hst|Hst].
  - apply Hc. apply (elem_length_pos item). apply completedOf_elem. auto.
  - apply Hf. apply (elem_length_pos item). apply failedOf_elem. auto.
Qed.

Lemma reconcile_keeps k queue s job :
  job ∈ pendingQueueJobs (reconcile k queue s).1 ↔
  job ∈ pendingQueueJobs s ∧ ¬ reportedTerminal queue job.
Proof.
  unfold reconcile. destruct (_ || _) eqn:Hany; simpl.
  - rewrite list_elem_of_filter, verdict_keep_iff. tauto.
  - split; [|tauto]. intros Hin. split; [exact Hin|].
    intros (q & item & _ & _ & Hitem & _ & Hst).
    rewrite (no_terminal_item queue Hany item Hitem) in Hst. discriminate.
Qed.

(** X7. After a tick whose status request succeeds, an entry is in the
    table exactly when it was there before and the reply does not report
    its server id as completed, failed or cancelled.  Entries without a
    server id, entries the reply does not mention and entries it reports
    as pending or processing all stay, unchanged and in their order. *)
Theorem successful_tick_keeps_the_rest s h k r job :
  tasks s !! h = Some (AwaitStatus k) → tickFails r = false →
  ∃ statusResponse, postJson r = inr statusResponse ∧
  (job ∈ pendingQueueJobs (step (EResume h (StatusReply r)) s).1 ↔
   job ∈ pendingQueueJobs s
   ∧ ¬ reportedTerminal (sr_queue statusResponse) job) ∧
  pendingQueueJobs (step (EResume h (StatusReply r)) s).1
    `sublist_of` pendingQueueJobs s.
Proof.
  intros Hl Hfail. rewrite (step_after_status s h k r Hl). cbn [fst].
  rewrite commit_jobs. unfold tickFails, pollTick_after_status in *.
  destruct (postJson r) as [e|resp]; [discriminate|].
  exists resp. split; [reflexivity|]. rewrite Hfail.
  split; [apply (reconcile_keeps k _ (take h s))
         |apply (reconcile_sublist k _ (take h s))].
Qed.

Lemma verdict_failed_iff queue job :
  verdict (list_to_set (qs_id <$> completedOf queue))
          (list_to_set (qs_id <$> failedOf queue)) job = DropFailed
  ↔ reportedFailed queue job = true.
Proof.
  unfold verdict, reportedFailed.
  destruct (queueId job) as [q|]; [|split; discriminate].
  simpl. destruct (bool_decide (q = "")); simpl; [split; discriminate|].
  assert (q ∈ (list_to_set (qs_id <$> failedOf queue) : gset string) ↔
          existsb (λ item, bool_decide (qs_id item = q)
                           && (bool_decide (qs_status item = failed)
                               || bool_decide (qs_status item = cancelled)))
            queue = true) as Hset.
  { rewrite elem_of_list_to_set, list_elem_of_fmap, existsb_exists. split.
    - intros (item & -> & Hin). apply failedOf_elem in Hin as (Hin & Hst).
      exists item. split; [by apply list_elem_of_In|].
      rewrite bool_decide_true by reflexivity. simpl.
      apply orb_true_iff. destruct Hst as [Hst|Hst];
        [left|right]; by apply bool_decide_eq_true.
    - intros (item & Hin & Hb). apply andb_true_iff in Hb as (Hid & Hst).
      apply bool_decide_eq_true in Hid. apply orb_true_iff in Hst.
      exists item. split; [done|]. apply failedOf_elem.
      split; [by apply list_elem_of_In|].
      destruct Hst as [Hst|Hst]; apply bool_decide_eq_true in Hst; auto. }
  case_bool_decide as Hin.
  - split; [intros _; by apply Hset|reflexivity].
  - split.
    + case_bool_decide; discriminate.
    + intros Hb. apply Hset in Hb. contradiction.
Qed.

Lemma count_toasts_fmap (l : list PendingQueueMessage) :
  count isToast
    ((λ _, Toast "Queued message failed" None ToastError) <$> l) = length l.
Proof.
  induction l as [|j l IH]; [reflexivity|].
  unfold count in *. rewrite fmap_cons, filter_cons_True by exact I.
  simpl. rewrite IH. reflexivity.
Qed.

Lemma filter_none {A} (P : A → Prop) `{!∀ x, Decision (P x)} (l : list A) :
  (∀ x, x ∈ l → ¬ P x) → filter P l = [].
Proof.
  induction l as [|x l IH]; intros Hnone; [reflexivity|].
  rewrite filter_cons_False by (apply Hnone; left).
  apply IH. intros y Hy. apply Hnone. by right.
Qed.

(** X8. A tick whose status request succeeds notifies once for every
    entry of the table whose server id the reply reports as failed or
    cancelled, with the title "Queued message failed", and for no other
    entry; an id reported both as failed and as completed counts as
    failed. *)
Theorem one_failure_toast_per_failed_entry s h k r :
  tasks s !! h = Some (AwaitStatus k) → tickFails r = false →
  ∃ statusResponse, postJson r = inr statusResponse ∧
  let effs := (step (EResume h (StatusReply r)) s).2 in
  count isToast effs =
    length (filter (λ job, reportedFailed (sr_queue statusResponse) job)
              (pendingQueueJobs s)) ∧
  ∀ title description st,
    Toast title description st ∈ effs →
    title = "Queued message failed" ∧ st = ToastError.
Proof.
  intros Hl Hfail. rewrite (step_after_status s h k r Hl). cbn [snd].
  unfold tickFails, pollTick_after_status in *.
  destruct (postJson r) as [e|resp]; [discriminate|].
  exists resp. split; [reflexivity|]. rewrite Hfail. cbv zeta.
  unfold reconcile. destruct (_ || _) eqn:Hany; cbn [snd].
  - split.
    + rewrite count_app, count_toasts_fmap.
      assert (count isToast
                (if bool_decide (0 < length (completedOf (sr_queue resp)))
                 then [Regenerate
                         {| rb_chatId := pf_currentChatId k;
                            rb_userId := pf_uid k;
                            rb_model := pf_selectedModel k;
                            rb_isAuthenticated := pf_isAuthenticated k;
                            rb_systemPrompt := pf_systemPrompt k |}]
                 else []) = 0) as -> by (case_bool_decide; reflexivity).
      rewrite Nat.add_0_l. simpl. f_equal.
      apply list_filter_iff. intros job.
      rewrite verdict_failed_iff. destruct (reportedFailed _ job); simpl;
        split; auto; try discriminate; intros [].
    + intros title d st Hin. apply elem_of_app in Hin as [Hin|Hin].
      * case_bool_decide; [|inversion Hin].
        apply list_elem_of_singleton in Hin. discriminate.
      * apply list_elem_of_fmap in Hin as (j & Heq & _).
        injection Heq as -> -> ->. auto.
  - split; [|intros title d st Hin; inversion Hin].
    rewrite filter_none; [reflexivity|].
    intros job _ Hrep. apply Is_true_true in Hrep.
    apply verdict_failed_iff in Hrep. unfold verdict in Hrep.
    destruct (queueId job) as [q|]; [|discriminate].
    destruct (negb (truthy (Some q))); [discriminate|].
    case_bool_decide as Hin; [|case_bool_decide; discriminate].
    apply elem_of_list_to_set, list_elem_of_fmap in Hin as (item & _ & Hin).
    apply orb_false_iff in Hany as (_ & Hf).
    apply bool_decide_eq_false in Hf. apply Hf.
    apply (elem_length_pos item), Hin.
Qed.

(** ** The status request, cancellation and renders *)

Lemma queueIdsOf_all l :
  (∀ job, job ∈ l → queueId job ≠ Some "") →
  queueIdsOf l = omap queueId l.
Proof.
  induction l as [|j l IH]; intros Hne; [reflexivity|].
  assert (queueId j ≠ Some "") as Hj by (apply Hne; left).
  assert (queueIdsOf l = omap queueId l) as IH'
    by (apply IH; intros; apply Hne; by right).
  unfold queueIdsOf in *. csimpl. rewrite IH'.
  destruct (queueId j) as [q|]; simpl; [|reflexivity].
  rewrite bool_decide_false by congruence. reflexivity.
Qed.

(** X9. In a session whose submissions get optimistic ids not yet in
    the table: while the timer is armed, a tick that starts asks the status
    endpoint about exactly the server ids held in the table, in table
    order, on behalf of the user id of the submission that armed the
    timer; when no entry has a server id yet it makes no request.
    Either way it leaves table, transcript and timer as they are. *)
Theorem tick_asks_about_the_table s k :
  reachable s → pollIntervalRef s = Some k →
  (step ETimer s).2 =
    (if bool_decide (omap queueId (pendingQueueJobs s) = []) then []
     else [PostStatus
             {| sb_userId := pf_uid k;
                sb_isAuthenticated := pf_isAuthenticated k;
                sb_queueIds := omap queueId (pendingQueueJobs s) |}]) ∧
  pendingQueueJobs (step ETimer s).1 = pendingQueueJobs s ∧
  messages (step ETimer s).1 = messages s ∧
  pollIntervalRef (step ETimer s).1 = Some k.
Proof.
  intros Hreach Hk. pose proof (reachable_Inv s Hreach) as Hs.
  assert (pendingQueueJobs s ≠ []) as Hne
    by (apply (inv_armed s Hs); congruence).
  rewrite step_handle. simpl handle. rewrite Hk. unfold pollTick.
  rewrite (queueIdsOf_all _ (inv_server_id s Hs)).
  rewrite (bool_decide_false (length (pendingQueueJobs s) = 0))
    by (intros Hz; apply Hne; by apply length_zero_iff_nil).
  destruct (omap queueId (pendingQueueJobs s)) as [|q l] eqn:Eq.
  - rewrite bool_decide_true by reflexivity. rewrite bool_decide_true by done.
    cbn [fst snd]. rewrite commit_settled by apply (inv_dep s Hs). auto.
  - rewrite bool_decide_false by (simpl; lia).
    rewrite bool_decide_false by done. cbn [fst snd].
    rewrite commit_settled by apply (inv_dep s Hs). simpl. auto.
Qed.

Lemma filter_all {A} (P : A → Prop) `{!∀ x, Decision (P x)} (l : list A) :
  (∀ x, x ∈ l → P x) → filter P l = l.
Proof.
  induction l as [|x l IH]; intros Hall; [reflexivity|].
  rewrite filter_cons_True by (apply Hall; left).
  f_equal. apply IH. intros y Hy. apply Hall. by right.
Qed.

(** X10. Cancelling a server id that no entry of the table carries
    changes neither table nor transcript, and still posts the cancel
    request. *)
Theorem cancel_of_unknown_id s q :
  (∀ job, job ∈ pendingQueueJobs s → queueId job ≠ Some q) →
  pendingQueueJobs (step (ECancel q) s).1 = pendingQueueJobs s ∧
  messages (step (ECancel q) s).1 = messages s ∧
  (step (ECancel q) s).2 =
    [PostCancel {| cb_queueId := q;
                   cb_userId := user_id <$> user (props s);
                   cb_isAuthenticated := isAuthenticated s |}].
Proof.
  intros Hnone. rewrite step_handle. cbn [fst snd].
  rewrite commit_jobs, commit_messages. simpl.
  rewrite filter_all by exact Hnone. auto.
Qed.

(** The table after a segment of [submit] other than its head. *)
Lemma resume_submit_jobs t k o s r :
  frame_of t = Some k → resume t o s = Some r →
  pendingQueueJobs r.1 = pendingQueueJobs s
  ∨ pendingQueueJobs r.1 = evictJob (sf_optimisticId k) (pendingQueueJobs s)
  ∨ ∃ q, pendingQueueJobs r.1 =
         attachServerId (sf_optimisticId k) q (pendingQueueJobs s).
Proof.
  intros Hf Hr.
  destruct t as [k'|k'|k' chat|k' chat|k'|]; simpl in Hf; simplify_eq;
    destruct o; simpl in Hr; try discriminate; injection Hr as <-.
  - unfold submit_after_limits. destruct allowed; auto.
  - auto.
  - destruct (submit_after_chat_cases k currentChatId s)
      as [(_ & effs & -> & _)|(chat & -> & _ & _ & [(_ & ->)|(_ & ->)])]; auto.
  - auto.
  - unfold submit_after_uploads. destruct attachments; auto.
  - auto.
  - unfold submit_after_enqueue. destruct (postJson r0); [auto|].
    destruct (er_queue e) as [q|]; [|auto].
    destruct (_ || _); [auto|]. right. right. exists q. simpl.
    unfold armPolling. simpl. destruct (pollIntervalRef s); reflexivity.
Qed.

(** X11. An entry without a server id is out of reach of everything but
    its own [submit] call: after any turn it is still in the table as it
    was, unless the turn resumes the [submit] call that created it. *)
Theorem entry_without_server_id_is_owned ev s job :
  job ∈ pendingQueueJobs s → queueId job = None →
  job ∈ pendingQueueJobs (step ev s).1
  ∨ ∃ h t k o, ev = EResume h o ∧ tasks s !! h = Some t
               ∧ frame_of t = Some k ∧ sf_optimisticId k = clientId job.
Proof.
  intros Hjob Hq. rewrite step_handle. cbn [fst]. rewrite commit_jobs.
  destruct ev; simpl handle.
  - left. unfold render. simpl. destruct (_ && _); exact Hjob.
  - left. exact Hjob.
  - left. exact Hjob.
  - left. unfold submit. destruct uid as [uid|]; [|exact Hjob].
    destruct (truthy (Some uid)); [|exact Hjob].
    simpl. apply elem_of_app. left. exact Hjob.
  - left. simpl. apply list_elem_of_filter. split; [congruence|exact Hjob].
  - left. destruct (pollIntervalRef s) as [k|]; [|exact Hjob].
    unfold pollTick. repeat case_bool_decide; exact Hjob.
  - destruct (tasks s !! h) as [t|] eqn:Hl; [|left; exact Hjob].
    destruct (resume t o (take h s)) as [r|] eqn:Hr; [|left; exact Hjob].
    simpl. destruct (frame_of t) as [k|] eqn:Hf.
    + destruct (decide (sf_optimisticId k = clientId job)) as [Heq|Hne];
        [right; eauto 10|]. left.
      destruct (resume_submit_jobs t k o (take h s) r Hf Hr)
        as [->|[->|(q & ->)]].
      * exact Hjob.
      * apply evictJob_spec. split; [exact Hjob|congruence].
      * apply attachServerId_other; [exact Hjob|congruence].
    + left. destruct t; simpl in Hf; try discriminate;
        destruct o; simpl in Hr; try discriminate; injection Hr as <-.
      * destruct (tickFails r0) eqn:Hfail.
        -- destruct (tickFails_catch k r0 (take h s) Hfail) as (e & ->).
           unfold pollTick_catch. simpl. case_bool_decide; exact Hjob.
        -- destruct (tickSucceeds_reconcile k r0 (take h s) Hfail)
             as (queue & ->).
           apply reconcile_keeps. split; [exact Hjob|].
           intros (q & item & Habs & _). congruence.
      * unfold cancel_after_reply. destruct (postJson r0); exact Hjob.
  - left. exact Hjob.
Qed.

(** X12. Rendering again with the same props changes nothing: the reset
    of the transcript fires on the render in which [chatId] becomes
    [null], not on the renders that follow. *)
Theorem render_twice_is_render_once s p :
  reachable s →
  step (ERender p) (step (ERender p) s).1 = ((step (ERender p) s).1, []).
Proof.
  intros Hreach. pose proof (reachable_Inv s Hreach) as Hs.
  assert (effectDep (render p s).1 = length (pendingQueueJobs (render p s).1))
    as Hdep.
  { unfold render. simpl. destruct (_ && _); simpl; apply (inv_dep s Hs). }
  assert (step (ERender p) s = ((render p s).1, [])) as E1.
  { rewrite step_handle. simpl handle. rewrite (commit_settled _ Hdep).
    reflexivity. }
  assert (render p (render p s).1 = ((render p s).1, [])) as E2.
  { unfold render. destruct s. simpl.
    destruct (decide (prevChatIdRef0 ≠ None)) as [H1|H1];
      destruct (decide (chatId p = None)) as [H2|H2];
      destruct (decide (0 < length messages0)) as [H3|H3];
      rewrite ?(bool_decide_true _ H1), ?(bool_decide_false _ H1),
        ?(bool_decide_true _ H2), ?(bool_decide_false _ H2),
        ?(bool_decide_true _ H3), ?(bool_decide_false _ H3); simpl;
      rewrite ?(bool_decide_true _ H2), ?(bool_decide_false _ H2),
        ?(bool_decide_true _ H3), ?(bool_decide_false _ H3),
        ?andb_false_r; simpl;
      try reflexivity;
      try (rewrite H2; rewrite bool_decide_false by (intros Hn; done);
           reflexivity). }
  rewrite E1. cbn [fst]. rewrite step_handle.
  change (handle (ERender p) (render p s).1)
    with (render p (render p s).1).
  rewrite E2. cbn [fst snd]. rewrite (commit_settled _ Hdep). reflexivity.
Qed.

(** ** Whole submissions *)

Lemma commit_isSubmitting s : isSubmitting (commit s) = isSubmitting s.
Proof. unfold commit. repeat case_bool_decide; reflexivity. Qed.

(** A segment of [submit] either returns, through the [finally], or
    waits for a later call. *)
Lemma resume_submit_shape t k o s r :
  frame_of t = Some k → resume t o s = Some r →
  (nextTask r.1 = nextTask s ∧ isSubmitting r.1 = false)
  ∨ (∃ t', r.1 = suspend t' s ∧ frame_of t' = Some k
           ∧ awaitsLeft t' < awaitsLeft t).
Proof.
  intros Hf Hr.
  destruct t as [k'|k'|k' chat|k' chat|k'|]; simpl in Hf; simplify_eq;
    destruct o; simpl in Hr; try discriminate; injection Hr as <-.
  - unfold submit_after_limits. destruct allowed; [right|left; auto].
    exists (AwaitChat k). simpl. auto.
  - left. auto.
  - destruct (submit_after_chat_cases k currentChatId s)
      as [(_ & effs & -> & _)|(chat & -> & _ & _ & [(_ & ->)|(_ & ->)])].
    + left. auto.
    + right. exists (AwaitUploads k chat). simpl. auto.
    + right. exists (AwaitEnqueue k chat). simpl. auto.
  - left. auto.
  - unfold submit_after_uploads. destruct attachments; [right|left; auto].
    exists (AwaitEnqueue k chat). simpl. auto.
  - left. auto.
  - left. unfold submit_after_enqueue. destruct (postJson r0); [auto|].
    destruct (er_queue e); [|auto]. destruct (_ || _); [auto|].
    simpl. unfold armPolling. simpl. destruct (pollIntervalRef s); auto.
Qed.

Lemma answer_resumes env t k s :
  frame_of t = Some k →
  ∃ o r, answer env t = Some o ∧ resume t o s = Some r.
Proof.
  intros Hf. destruct t; simpl in Hf; try discriminate; simpl.
  - destruct (checkLimitsAndNotify env); simpl; eauto.
  - destruct (ensureChatExists env); simpl; eauto.
  - destruct (handleFileUploads env); simpl; eauto.
  - eauto.
Qed.

Lemma settle_returns env fuel t k s :
  frame_of t = Some k → awaitsLeft t ≤ fuel →
  isSubmitting
    (settle fuel env (nextTask s) (commit (suspend t s))).1 = false.
Proof.
  revert t s. induction fuel as [|fuel IH]; intros t s Hf Hfuel.
  { destruct t; simpl in Hf, Hfuel; try discriminate; lia. }
  destruct (answer_resumes env t k
              (take (nextTask s) (commit (suspend t s))) Hf)
    as (o & r & Ha & Hr).
  rewrite (settle_last fuel env t s o r Ha Hr).
  destruct (resume_submit_shape t k o _ r Hf Hr)
    as [(Hn & Hdone)|(t' & Er & Hf' & Hless)].
  - simpl in Hn. rewrite commit_nextTask in Hn. simpl in Hn.
    rewrite Hn, bool_decide_true by reflexivity. cbn [fst].
    rewrite commit_isSubmitting. exact Hdone.
  - rewrite Er. cbn [suspend nextTask take]. rewrite commit_nextTask.
    cbn [suspend nextTask]. rewrite bool_decide_false by lia.
    pose proof (IH t' (take (nextTask s) (commit (suspend t s))) Hf') as H.
    cbn [take nextTask] in H. rewrite commit_nextTask in H.
    cbn [suspend nextTask] in H.
    destruct (settle fuel env _ _) as [s2 e2]. apply H. lia.
Qed.

(** X13. Once the guest-id lookup of a [submit] call has resolved,
    [isSubmitting] is [false] when the call has returned, however it
    ends: no guest id, a gate that says no, a collaborator that throws,
    an enqueue that is refused or throws, or success.  Only a lookup
    that itself rejects leaves [isSubmitting] set: line 216 is before
    the [try], so the [finally] does not run; that call changes nothing
    else and has no effect. *)
Theorem submission_always_clears_isSubmitting env uid now created reason s :
  isSubmitting (submission env uid now created s).1 = false ∧
  isSubmitting (step (ESubmitThrows reason) s).1 = true ∧
  messages (step (ESubmitThrows reason) s).1 = messages s ∧
  pendingQueueJobs (step (ESubmitThrows reason) s).1 = pendingQueueJobs s ∧
  input (step (ESubmitThrows reason) s).1 = input s ∧
  (step (ESubmitThrows reason) s).2 = [].
Proof.
  split.
  2: { rewrite step_handle. cbn [fst snd]. simpl handle.
       rewrite commit_isSubmitting, commit_messages, commit_jobs.
       unfold commit. repeat case_bool_decide; repeat split; reflexivity. }
  unfold submission. rewrite step_handle. simpl handle. unfold submit.
  destruct uid as [uid|];
    [destruct (truthy (Some uid))|]; cbv zeta; cbn [fst snd];
    rewrite commit_nextTask.
  - simpl nextTask. rewrite bool_decide_false by lia.
    match goal with
    | |- context [settle 4 env _ (commit (suspend (AwaitLimits ?k) ?s0))] =>
        pose proof (settle_returns env 4 (AwaitLimits k) k s0 eq_refl) as H
    end.
    simpl nextTask in H. destruct (settle _ _ _ _) as [s2 e2].
    apply H. simpl. lia.
  - simpl nextTask. rewrite bool_decide_true by reflexivity.
    cbn [fst]. rewrite commit_isSubmitting. reflexivity.
  - simpl nextTask. rewrite bool_decide_true by reflexivity.
    cbn [fst]. rewrite commit_isSubmitting. reflexivity.
Qed.









Lemma commit_input s : input (commit s) = input s.
Proof. unfold commit. repeat case_bool_decide; reflexivity. Qed.

Lemma commit_hasSent s :
  hasSentFirstMessageRef (commit s) = hasSentFirstMessageRef s.
Proof. unfold commit. repeat case_bool_decide; reflexivity. Qed.

(** No segment of [submit] writes anything but the empty string to the
    input, and none resets [hasSentFirstMessageRef]. *)
Lemma resume_submit_input t k o s r :
  frame_of t = Some k → resume t o s = Some r →
  (input r.1 = input s ∨ input r.1 = "")
  ∧ hasSentFirstMessageRef r.1 = hasSentFirstMessageRef s.
Proof.
  intros Hf Hr.
  destruct t as [k'|k'|k' chat|k' chat|k'|]; simpl in Hf; simplify_eq;
    destruct o; simpl in Hr; try discriminate; injection Hr as <-.
  - unfold submit_after_limits. destruct allowed; simpl; auto.
  - simpl; auto.
  - destruct (submit_after_chat_cases k currentChatId s)
      as [(_ & effs & -> & _)|(chat & -> & _ & _ & [(_ & ->)|(_ & ->)])];
      simpl; auto.
  - simpl; auto.
  - unfold submit_after_uploads. destruct attachments; simpl; auto.
  - simpl; auto.
  - unfold submit_after_enqueue. destruct (postJson r0); [simpl; auto|].
    destruct (er_queue e); [|simpl; auto]. destruct (_ || _); [simpl; auto|].
    simpl. unfold armPolling. simpl. destruct (pollIntervalRef s); auto.
Qed.

Lemma settle_input env fuel t k s :
  frame_of t = Some k → input s = "" → hasSentFirstMessageRef s = true →
  let r := settle fuel env (nextTask s) (commit (suspend t s)) in
  input r.1 = "" ∧ hasSentFirstMessageRef r.1 = true.
Proof.
  cbv zeta.
  revert t s. induction fuel as [|fuel IH]; intros t s Hf Hi Hs.
  { simpl. rewrite commit_input, commit_hasSent. auto. }
  destruct (answer_resumes env t k
              (take (nextTask s) (commit (suspend t s))) Hf)
    as (o & r & Ha & Hr).
  rewrite (settle_last fuel env t s o r Ha Hr).
  destruct (resume_submit_input t k o _ r Hf Hr) as (Hin & Hsent).
  simpl in Hin, Hsent. rewrite commit_input in Hin.
  rewrite commit_hasSent in Hsent. simpl in Hin, Hsent.
  assert (input r.1 = "") as Hi' by (destruct Hin; congruence).
  assert (hasSentFirstMessageRef r.1 = true) as Hs' by congruence.
  destruct (resume_submit_shape t k o _ r Hf Hr)
    as [(Hn & _)|(t' & Er & Hf' & _)].
  - simpl in Hn. rewrite commit_nextTask in Hn. simpl in Hn.
    rewrite Hn, bool_decide_true by reflexivity. cbn [fst].
    rewrite commit_input, commit_hasSent. auto.
  - rewrite Er. cbn [suspend nextTask take]. rewrite commit_nextTask.
    cbn [suspend nextTask]. rewrite bool_decide_false by lia.
    rewrite Er in Hi', Hs'. simpl in Hi', Hs'.
    rewrite commit_input in Hi'. rewrite commit_hasSent in Hs'.
    simpl in Hi', Hs'.
    pose proof (IH t' (take (nextTask s) (commit (suspend t s))) Hf') as H.
    cbn [take nextTask input hasSentFirstMessageRef] in H.
    rewrite commit_nextTask, commit_input, commit_hasSent in H.
    cbn [suspend nextTask input hasSentFirstMessageRef] in H.
    destruct (settle fuel env _ _) as [s2 e2]. apply H; assumption.
Qed.

(** X15. A submission with a guest id empties the input and the picked
    files first and never gives the text back: however the call ends,
    also when a gate turns it down or the enqueue request fails, the
    input is empty afterwards, [hasSentFirstMessageRef] is set, and the
    first effect is [setFiles([])]. *)
Theorem submission_never_restores_input env uid now created s :
  uid ≠ "" →
  let r := submission env (Some uid) now created s in
  input r.1 = "" ∧ hasSentFirstMessageRef r.1 = true
  ∧ ∃ rest, r.2 = SetFiles [] :: rest.
Proof.
  intros Huid. cbv zeta.
  unfold submission. rewrite step_handle. simpl handle. unfold submit.
  unfold truthy. rewrite (bool_decide_false (uid = "")) by exact Huid.
  cbv zeta; cbn [fst snd negb]. rewrite commit_nextTask.
  simpl nextTask. rewrite bool_decide_false by lia.
  match goal with
  | |- context [settle 4 env _ (commit (suspend (AwaitLimits ?k) ?s0))] =>
      pose proof (settle_input env 4 (AwaitLimits k) k s0 eq_refl
                    eq_refl eq_refl) as H
  end.
  cbv zeta in H. simpl nextTask in H.
  destruct (settle _ _ _ _) as [s2 e2]. cbn [fst snd].
  destruct H as (Hi & Hs). repeat split; [exact Hi|exact Hs|].
  eexists. reflexivity.
Qed.

(** X16. Without a guest id (none, or the empty string) a submission
    does nothing: no optimistic message, no table entry, no effect, no
    suspended call; input, timer and failure counter are as before on a
    state of a session. *)
Theorem submission_without_user_id env uid now created s :
  reachable s → truthy uid = false →
  let r := submission env uid now created s in
  r.2 = [] ∧ messages r.1 = messages s
  ∧ pendingQueueJobs r.1 = pendingQueueJobs s ∧ input r.1 = input s
  ∧ pollIntervalRef r.1 = pollIntervalRef s
  ∧ pollFailureCountRef r.1 = pollFailureCountRef s
  ∧ tasks r.1 = tasks s ∧ isSubmitting r.1 = false.
Proof.
  intros Hreach Hu. cbv zeta.
  pose proof (inv_dep _ (reachable_Inv _ Hreach)) as Hdep.
  assert (submit uid now created s
          = (setIsSubmitting false (setIsSubmitting true s), [])) as E.
  { unfold submit. destruct uid; [rewrite Hu|]; reflexivity. }
  unfold submission. rewrite step_handle. simpl handle. rewrite E.
  cbn [fst snd].
  rewrite commit_settled by (simpl; congruence).
  simpl. rewrite bool_decide_true by reflexivity. simpl. auto 10.
Qed.

(** ** [handleSuggestion], [handleReload] and [handleError] *)

(** A segment of [handleSuggestion] touches the transcript and
    [isSubmitting] only. *)
Lemma suggestion_resume_queue t o s s' acts t' :
  suggestion_resume t o s = Some (s', acts, t') →
  pendingQueueJobs s' = pendingQueueJobs s ∧
  pollIntervalRef s' = pollIntervalRef s ∧
  pollFailureCountRef s' = pollFailureCountRef s ∧
  tasks s' = tasks s ∧ input s' = input s.
Proof.
  intros Hr.
  destruct t as [k|k uid|k uid|k]; destruct o; simpl in Hr;
    try discriminate;
    repeat match goal with
           | H : context [match ?x with _ => _ end] |- _ => destruct x
           end;
    injection Hr as <- _ _; auto.
Qed.

(** A segment of [handleSuggestion] that returns leaves no optimistic
    message and has reset [isSubmitting]; one that waits leaves the
    transcript alone. *)
Lemma suggestion_resume_transcript t o s s' acts t' :
  suggestion_resume t o s = Some (s', acts, t') →
  match t' with
  | None =>
      messages s' = evictMessage (gf_optimisticId (suggestionFrame t))
                      (messages s)
      ∧ isSubmitting s' = false
  | Some next =>
      messages s' = messages s ∧ isSubmitting s' = isSubmitting s
      ∧ suggestionFrame next = suggestionFrame t
  end.
Proof.
  intros Hr.
  destruct t as [k|k uid|k uid|k]; destruct o; simpl in Hr;
    try discriminate;
    repeat match goal with
           | H : context [match ?x with _ => _ end] |- _ => destruct x
           end;
    injection Hr as <- _ <-; simpl; auto.
Qed.

Lemma suggestion_resume_progress t o s r :
  suggestion_resume t o s = Some r →
  suggestionAwaits r.2 < suggestionAwaits (Some t).
Proof.
  intros Hr.
  destruct t as [k|k uid|k uid|k]; destruct o; simpl in Hr;
    try discriminate;
    repeat match goal with
           | H : context [match ?x with _ => _ end] |- _ => destruct x
           end;
    injection Hr as <-; simpl; lia.
Qed.

Lemma suggestionAnswer_resumes env t s :
  ∃ r, suggestion_resume t (suggestionAnswer env t) s = Some r.
Proof.
  destruct t; simpl;
    [destruct (getOrCreateGuestUserId env)|destruct (suggestionLimits env)
    |destruct (suggestionChat env)|destruct (sendMessage env)];
    simpl; eauto.
Qed.

Lemma suggestion_settle_returns env fuel t s :
  suggestionAwaits (Some t) ≤ fuel →
  let r := suggestion_settle fuel env (Some t) s in
  messages r.1 = evictMessage (gf_optimisticId (suggestionFrame t))
                   (messages s)
  ∧ isSubmitting r.1 = false
  ∧ pendingQueueJobs r.1 = pendingQueueJobs s
  ∧ pollIntervalRef r.1 = pollIntervalRef s
  ∧ pollFailureCountRef r.1 = pollFailureCountRef s
  ∧ tasks r.1 = tasks s ∧ input r.1 = input s.
Proof.
  revert t s. induction fuel as [|fuel IH]; intros t s Hfuel; cbv zeta.
  { destruct t; simpl in Hfuel; lia. }
  cbn [suggestion_settle].
  destruct (suggestionAnswer_resumes env t s) as ([[s1 a1] t1] & Hr).
  rewrite Hr.
  pose proof (suggestion_resume_queue _ _ _ _ _ _ Hr) as (Q1 & Q2 & Q3 & Q4 & Q5).
  pose proof (suggestion_resume_transcript _ _ _ _ _ _ Hr) as Htr.
  pose proof (suggestion_resume_progress _ _ _ _ Hr) as Hless. cbn [snd] in Hless.
  destruct t1 as [next|].
  - destruct Htr as (Hm & Hsub & Hframe).
    specialize (IH next s1). cbv zeta in IH.
    destruct (suggestion_settle fuel env (Some next) s1) as [s2 a2].
    cbn [fst] in *. destruct IH as (I1 & I2 & I3 & I4 & I5 & I6 & I7); [lia|].
    rewrite I1, I2, I3, I4, I5, I6, I7, Hframe, Hm. auto 10.
  - destruct Htr as (Hm & Hsub).
    destruct fuel; cbn [suggestion_settle fst]; auto 10.
Qed.

Lemma evictMessage_app_new c l m :
  msg_id m = c → evictMessage c (l ++ [m]) = evictMessage c l.
Proof.
  intros Hid. unfold evictMessage. rewrite filter_app.
  rewrite (filter_cons_False _ m) by (intros Hne; by apply Hne).
  rewrite filter_nil, app_nil_r. reflexivity.
Qed.

(** X17. However [handleSuggestion] ends (no guest id, the limit check
    or the chat bootstrap saying no, a collaborator throwing, or the
    message sent), no message with its optimistic id is left in the
    transcript and [isSubmitting] is [false]; and it never touches the
    table of pending jobs, the poll timer, the failure counter or the
    input. *)
Theorem suggestion_leaves_no_trace env suggestion now s :
  let r := handleSuggestion env suggestion now s in
  messages r.1 = evictMessage (optimisticIdAt now) (messages s) ∧
  hasMessage (optimisticIdAt now) r.1 = false ∧
  isSubmitting r.1 = false ∧
  pendingQueueJobs r.1 = pendingQueueJobs s ∧
  pollIntervalRef r.1 = pollIntervalRef s ∧
  pollFailureCountRef r.1 = pollFailureCountRef s ∧
  input r.1 = input s.
Proof.
  cbv zeta. unfold handleSuggestion, suggestion_head. cbv zeta.
  match goal with
  | |- context [suggestion_settle 4 env (Some ?t) ?s0] =>
      pose proof (suggestion_settle_returns env 4 t s0) as H
  end.
  cbv zeta in H. destruct (suggestion_settle 4 env _ _) as [s2 a2].
  cbn [fst snd] in *.
  destruct H as (H1 & H2 & H3 & H4 & H5 & _ & H7); [simpl; lia|].
  simpl in H1, H3, H4, H5, H7.
  rewrite evictMessage_app_new in H1 by reflexivity.
  repeat split; auto.
  apply hasMessage_false. intros m. rewrite H1, evictMessage_spec. tauto.
Qed.

(** X18. [handleSuggestion] calls [sendMessage] at most once, and it
    does so exactly when the guest-id lookup gives a non-empty id, the
    limit check allows and the chat bootstrap gives a non-empty chat id.
    The call carries the suggestion text, that user id and chat id, and
    always [SYSTEM_PROMPT_DEFAULT] as system prompt, whatever prompt the
    user profile has. *)
Theorem suggestion_sends_when_gates_pass env suggestion now s :
  filter (λ a, isSendMessage a) (handleSuggestion env suggestion now s).2 =
  match getOrCreateGuestUserId env, suggestionLimits env, suggestionChat env
  with
  | Fulfilled (Some uid), Fulfilled true, Fulfilled (Some chat) =>
      if bool_decide (uid = "") || bool_decide (chat = "") then []
      else [inr (SendMessage suggestion
                   {| rb_chatId := chat; rb_userId := uid;
                      rb_model := selectedModel (props s);
                      rb_isAuthenticated := isAuthenticated s;
                      rb_systemPrompt := SYSTEM_PROMPT_DEFAULT |})]
  | _, _, _ => []
  end.
Proof.
  unfold handleSuggestion, suggestion_head. cbv zeta.
  destruct env as [u l c x]. simpl.
  destruct u as [[uid|]|e]; [destruct (bool_decide (uid = "")) eqn:Eu| |];
    (destruct l as [[|]|e']);
    (destruct c as [[chat|]|e'']; [destruct (bool_decide (chat = "")) eqn:Ec| |]);
    (destruct x as [[]|e''']); simpl; rewrite ?Eu; simpl; rewrite ?Ec; simpl;
    reflexivity.
Qed.

(** X19. The only notification [handleSuggestion] can emit is the one
    titled "Failed to send suggestion", at most once; it is emitted only
    when a collaborator threw, and always when [sendMessage] was called
    and threw.  A gate that merely says no ends the call silently. *)
Theorem suggestion_toast_means_throw env suggestion now s :
  let acts := (handleSuggestion env suggestion now s).2 in
  (filter (λ a, isActToast a) acts = []
   ∨ filter (λ a, isActToast a) acts =
       [inl (Toast "Failed to send suggestion" None ToastError)]) ∧
  (filter (λ a, isActToast a) acts ≠ [] →
   (∃ e, getOrCreateGuestUserId env = Threw e)
   ∨ (∃ e, suggestionLimits env = Threw e)
   ∨ (∃ e, suggestionChat env = Threw e)
   ∨ (∃ e, sendMessage env = Threw e)) ∧
  (filter (λ a, isSendMessage a) acts ≠ [] →
   (∃ e, sendMessage env = Threw e) →
   filter (λ a, isActToast a) acts ≠ []).
Proof.
  cbv zeta. unfold handleSuggestion, suggestion_head. cbv zeta.
  destruct env as [u l c x]. simpl.
  destruct u as [[uid|]|e]; [destruct (bool_decide (uid = "")) eqn:Eu| |];
    (destruct l as [[|]|e']);
    (destruct c as [[chat|]|e'']; [destruct (bool_decide (chat = "")) eqn:Ec| |]);
    (destruct x as [[]|e''']); simpl; rewrite ?Eu; simpl; rewrite ?Ec; simpl;
    (split; [auto|split]);
    try (intros Hq; exfalso; apply Hq; reflexivity);
    try (intros _; eauto 10; fail);
    try (intros _ (e0 & He0); discriminate He0);
    try (intros _ _; discriminate).
Qed.

Lemma or_else_idempotent a fallback :
  or_else (Some (or_else a fallback)) fallback = or_else a fallback.
Proof.
  unfold or_else. destruct a as [x|].
  - destruct (decide (x = "")) as [->|Hx].
    + rewrite (bool_decide_true ("" = "")) by reflexivity.
      case_bool_decide; congruence.
    + rewrite !(bool_decide_false (x = "")) by exact Hx. reflexivity.
  - case_bool_decide; congruence.
Qed.

(** X20. [handleReload] asks for a regeneration exactly when the
    guest-id lookup gives a non-empty id.  The request carries that id,
    the [chatId] prop as it is ([null] included) and the system prompt
    that a submission captures at the same moment: the second fallback
    to [SYSTEM_PROMPT_DEFAULT] never changes it. *)
Theorem reload_sends_the_session_prompt uid s :
  handleReload uid s =
  match uid with
  | Some id =>
      if bool_decide (id = "") then []
      else [inr (Reload {| lb_chatId := chatId (props s); lb_userId := id;
                           lb_model := selectedModel (props s);
                           lb_isAuthenticated := isAuthenticated s;
                           lb_systemPrompt := systemPrompt s |})]
  | None => []
  end.
Proof.
  unfold handleReload, systemPrompt. rewrite or_else_idempotent.
  destruct uid as [id|]; [|reflexivity]. simpl.
  case_bool_decide; reflexivity.
Qed.

(** X21. The notification of [handleError] never has an empty title and
    never shows the raw messages "An error occurred" or "fetch failed";
    any other non-empty message is shown as it is. *)
Theorem error_title_is_presentable message :
  errorTitle message ≠ "" ∧
  errorTitle message ≠ "An error occurred" ∧
  errorTitle message ≠ "fetch failed" ∧
  (message ≠ "" → message ≠ "An error occurred" → message ≠ "fetch failed" →
   errorTitle message = message).
Proof.
  unfold errorTitle, or_else.
  destruct (decide (message = "")) as [->|Hne].
  - vm_compute. repeat split; try discriminate. intros H; by destruct H.
  - rewrite (bool_decide_false _ Hne).
    destruct (decide (message = "An error occurred")) as [->|H1];
      [vm_compute; repeat split; try discriminate; intros _ H; by destruct H|].
    destruct (decide (message = "fetch failed")) as [->|H2];
      [vm_compute; repeat split; try discriminate; intros _ _ H; by destruct H|].
    rewrite (bool_decide_false _ H1), (bool_decide_false _ H2). simpl.
    repeat split; auto.
Qed.


End Engine.

(** * The properties on the example sessions *)

Lemma after_reachable evs :
  freshTrace exampleMaxLength examplePrompt evs session0 = true →
  reachable exampleMaxLength examplePrompt
    (after exampleMaxLength examplePrompt evs).
Proof. intros H. apply reachable_run; [apply reachable_mount|exact H]. Qed.

(** C1, on "Hello" enqueued as [q1] and reported completed by the first
    tick. *)
Lemma terminal_job_absent_after_tick_witness :
  let s := after exampleMaxLength examplePrompt (helloEnqueued ++ [ETimer]) in
  let ev := EResume 3 (StatusReply
              (statusOk [{| qs_id := "q1"; qs_status := completed |}])) in
  hasJob (clientId helloJob) (step exampleMaxLength examplePrompt ev s).1 = false ∧
  hasMessage (clientId helloJob)
    (step exampleMaxLength examplePrompt ev s).1 = false ∧
  messages (step exampleMaxLength examplePrompt ev s).1 = messages s ∧
  ¬ evicts exampleMaxLength examplePrompt ev s (clientId helloJob).
Proof.
  intros s ev.
  eapply (terminal_job_absent_after_tick exampleMaxLength examplePrompt
            s 3 _ _ helloJob "q1").
  - apply after_reachable. vm_compute. reflexivity.
  - vm_compute. reflexivity.
  - vm_compute. left.
  - reflexivity.
  - exists {| sr_success := true;
              sr_queue := [{| qs_id := "q1"; qs_status := completed |}];
              sr_error := None |}, {| qs_id := "q1"; qs_status := completed |}.
    split; [reflexivity|]. split; [reflexivity|]. split; [left|].
    split; reflexivity.
Defined.

(** Against C1 as the specification words it: the tick that reports [q1]
    completed does not evict the optimistic message of "Hello".  The
    message left the transcript two turns earlier, when the enqueue
    request came back and [submit] ran its last segment. *)
Lemma tick_evicts_no_optimistic_message :
  let s := after exampleMaxLength examplePrompt (helloEnqueued ++ [ETimer]) in
  let tick := EResume 3 (StatusReply
                (statusOk [{| qs_id := "q1"; qs_status := completed |}])) in
  helloJob ∈ pendingQueueJobs s ∧
  ¬ evicts exampleMaxLength examplePrompt tick s (clientId helloJob) ∧
  evicts exampleMaxLength examplePrompt (EResume 2 (enqueued "q1" "pending"))
    (after exampleMaxLength examplePrompt helloSubmitted) (clientId helloJob).
Proof.
  split; [vm_compute; left|]. split.
  - intros (Hpresent & _). vm_compute in Hpresent. discriminate.
  - split; vm_compute; reflexivity.
Qed.

(** C3, on a submission that the rate limit turns down. *)
Lemma gate_failure_evicts_without_enqueue_witness :
  let s := after exampleMaxLength examplePrompt [EInputChange "Hello"] in
  let r := submission exampleMaxLength examplePrompt limitReached
             (Some "guest-1") 1700000000000 [] s in
  hasMessage (optimisticIdAt 1700000000000) r.1 = false ∧
  hasJob (optimisticIdAt 1700000000000) r.1 = false ∧
  count isPostEnqueue r.2 = 0.
Proof.
  intros s.
  apply (gate_failure_evicts_without_enqueue exampleMaxLength examplePrompt
           limitReached (Some "guest-1") 1700000000000 [] s).
  - reflexivity.
  - left. reflexivity.
Defined.

(** The length gate counts UTF-16 code units, as [input.length] does:
    with a ceiling of 5, the prompt "héllo" (five units in six bytes) is
    enqueued and "héllos" is turned down. *)
Example length_gate_counts_code_units :
  let submitted (prompt : string) :=
    submission 5 examplePrompt accepting (Some "guest-1") 1700000000000 []
      (after 5 examplePrompt [EInputChange prompt]) in
  jsLength "héllo" = 5 ∧ String.length "héllo" = 6 ∧
  jsLength "€" = 1 ∧ jsLength "😀" = 2 ∧
  count isPostEnqueue (submitted "héllo").2 = 1 ∧
  count isPostEnqueue (submitted "héllos").2 = 0 ∧
  hasJob (optimisticIdAt 1700000000000) (submitted "héllos").1 = false.
Proof. repeat split; vm_compute; reflexivity. Qed.

(** C4, on the turn in which "Hello" is enqueued as [q1]. *)
Lemma poll_timer_follows_table_witness :
  let s := after exampleMaxLength examplePrompt helloSubmitted in
  let ev := EResume 2 (enqueued "q1" "pending") in
  let s' := (step exampleMaxLength examplePrompt ev s).1 in
  (pollIntervalRef s ≠ None → pendingQueueJobs s ≠ []) ∧
  (enqueueSucceeds ev s → pollIntervalRef s' ≠ None) ∧
  (((∃ job, job ∈ pendingQueueJobs s ∧ queueId job ≠ None) →
    pollIntervalRef s ≠ None) →
   ¬ ceilingReached ev s →
   (∃ job, job ∈ pendingQueueJobs s' ∧ queueId job ≠ None) →
   pollIntervalRef s' ≠ None) ∧
  (pollIntervalRef s ≠ None →
   (pollIntervalRef s' = None ↔
    pendingQueueJobs s' = [] ∨ ceilingReached ev s)) ∧
  (pollIntervalRef s = None → pollIntervalRef s' ≠ None →
   enqueueSucceeds ev s).
Proof.
  intros s ev.
  apply (poll_timer_follows_table exampleMaxLength examplePrompt s ev).
  - apply after_reachable. vm_compute. reflexivity.
  - exact I.
Defined.

(** Against C4 as the specification words it, in both directions.
    "Hello" is reported completed while a second prompt still waits at
    its first gate: the timer stays armed although no entry of the table
    has a server id.  And after five failed ticks the entry of [q1] is
    still in the table, with its server id, while the timer is off. *)
Lemma timer_armed_without_server_id :
  let s := after exampleMaxLength examplePrompt
             (helloEnqueued ++ secondSubmitted ++
              [ETimer;
               EResume 4 (StatusReply
                 (statusOk [{| qs_id := "q1"; qs_status := completed |}]))]) in
  let s5 := after exampleMaxLength examplePrompt
              (helloEnqueued ++ failedTicks 5 3) in
  ¬ (pollIntervalRef s ≠ None ↔
     ∃ job, job ∈ pendingQueueJobs s ∧ queueId job ≠ None) ∧
  ¬ (pollIntervalRef s5 ≠ None ↔
     ∃ job, job ∈ pendingQueueJobs s5 ∧ queueId job ≠ None).
Proof.
  intros s s5. split.
  - intros (Hfwd & _).
    destruct Hfwd as (job & Hin & Hq); [vm_compute; discriminate|].
    vm_compute in Hin. apply list_elem_of_singleton in Hin. subst job.
    apply Hq. reflexivity.
  - intros (_ & Hbwd). apply Hbwd; [|vm_compute; reflexivity].
    exists helloJob. split; [vm_compute; left|discriminate].
Qed.

(** C5, on a successful tick after two failed ones. *)
Lemma failure_counter_after_tick_witness :
  let s := after exampleMaxLength examplePrompt
             (helloEnqueued ++ failedTicks 2 3 ++ [ETimer]) in
  let r := statusOk [{| qs_id := "q1"; qs_status := processing |}] in
  let s' := (step exampleMaxLength examplePrompt
               (EResume 5 (StatusReply r)) s).1 in
  (tickFails r = true →
   pollFailureCountRef s' =
   if bool_decide (MAX_QUEUE_POLL_FAILURES ≤ pollFailureCountRef s + 1)
   then 0 else pollFailureCountRef s + 1) ∧
  (tickFails r = false →
   pollFailureCountRef s' =
   if bool_decide (pendingQueueJobs s ≠ [] ∧ pendingQueueJobs s' = [])
   then 0 else pollFailureCountRef s).
Proof.
  intros s r.
  eapply (failure_counter_after_tick exampleMaxLength examplePrompt s 5 _ r).
  - apply after_reachable. vm_compute. reflexivity.
  - vm_compute. reflexivity.
Defined.

(** Against C5 as the specification words it: two ticks fail, the third
    one round-trips and reports [q1] as processing.  The counter is 2
    before that successful tick and still 2 after it. *)
Lemma successful_tick_keeps_failure_count :
  let s := after exampleMaxLength examplePrompt
             (helloEnqueued ++ failedTicks 2 3 ++ [ETimer]) in
  let r := statusOk [{| qs_id := "q1"; qs_status := processing |}] in
  tickFails r = false ∧
  pollFailureCountRef s = 2 ∧
  pollFailureCountRef
    (step exampleMaxLength examplePrompt (EResume 5 (StatusReply r)) s).1 = 2.
Proof. repeat split; vm_compute; reflexivity. Qed.

(** C6, on the fifth failing tick of the session of "Hello". *)
Lemma failure_ceiling_pauses_polling_witness :
  let s := after exampleMaxLength examplePrompt
             (helloEnqueued ++ failedTicks 4 3 ++ [ETimer]) in
  let ev := EResume 7 (StatusReply offline) in
  let s' := (step exampleMaxLength examplePrompt ev s).1 in
  let effs := (step exampleMaxLength examplePrompt ev s).2 in
  pollIntervalRef s' = None ∧
  pollFailureCountRef s' = 0 ∧
  pendingQueueJobs s' = pendingQueueJobs s ∧
  count isToast effs = 1 ∧
  Toast "Queue updates paused"
    (Some "Stopped polling after repeated failures.") ToastWarning ∈ effs ∧
  count isNetworkCall effs = 0 ∧
  step exampleMaxLength examplePrompt ETimer s' = (s', []) ∧
  (∀ ev', pollIntervalRef (step exampleMaxLength examplePrompt ev' s').1 ≠ None →
          enqueueSucceeds ev' s').
Proof.
  intros s ev.
  eapply (failure_ceiling_pauses_polling exampleMaxLength examplePrompt
            s 7 _ offline).
  - apply after_reachable. vm_compute. reflexivity.
  - vm_compute. reflexivity.
  - reflexivity.
  - vm_compute. lia.
Defined.

(** Against C6 as the specification words it: after five failed ticks
    the timer is off, but not for good.  A second prompt is enqueued as
    [q2]; that arms a new timer, and its first tick asks the status
    endpoint about [q1] and [q2]. *)
Lemma polling_resumes_after_ceiling :
  let s5 := after exampleMaxLength examplePrompt
              (helloEnqueued ++ failedTicks 5 3) in
  let later := run exampleMaxLength examplePrompt
                 (secondEnqueued 8 ++ [ETimer]) s5 in
  pollIntervalRef s5 = None ∧
  pollIntervalRef later.1 ≠ None ∧
  count isNetworkCall later.2 = 2 ∧
  PostStatus {| sb_userId := "guest-1"; sb_isAuthenticated := false;
                sb_queueIds := ["q1"; "q2"] |} ∈ later.2.
Proof.
  split; [vm_compute; reflexivity|].
  split; [vm_compute; discriminate|].
  split; [vm_compute; reflexivity|].
  vm_compute. repeat (first [left|right]).
Qed.

(** C7, on the cancellation of "Hello" enqueued as [q1]. *)
Lemma cancel_removes_before_reply_witness :
  let s := after exampleMaxLength examplePrompt helloEnqueued in
  let s1 := (step exampleMaxLength examplePrompt (ECancel "q1") s).1 in
  hasJob (clientId helloJob) s1 = false ∧
  messages s1 = messages s ∧
  hasMessage (clientId helloJob) s = false ∧
  hasMessage (clientId helloJob) s1 = false ∧
  (step exampleMaxLength examplePrompt (ECancel "q1") s).2 =
    [PostCancel {| cb_queueId := "q1";
                   cb_userId := user_id <$> user (props s);
                   cb_isAuthenticated := isAuthenticated s |}] ∧
  tasks s1 !! nextTask s = Some AwaitCancel ∧
  ∀ r,
    let reply := EResume (nextTask s) (CancelReply r) in
    pendingQueueJobs (step exampleMaxLength examplePrompt reply s1).1
      = pendingQueueJobs s1 ∧
    messages (step exampleMaxLength examplePrompt reply s1).1 = messages s1 ∧
    ∀ e, postJson r = inl e →
      (step exampleMaxLength examplePrompt reply s1).2 =
        [ConsoleError "Failed to cancel queue job" e;
         Toast "Failed to cancel job" None ToastError].
Proof.
  intros s.
  apply (cancel_removes_before_reply exampleMaxLength examplePrompt
           s helloJob "q1").
  - apply after_reachable. vm_compute. reflexivity.
  - vm_compute. left.
  - reflexivity.
Defined.

(** Against C7 as the specification words it: "Hello", enqueued as [q1],
    is cancelled.  The cancellation removes no optimistic message: none
    is in the transcript when the handler runs (it left two turns
    earlier, when the enqueue request came back), and the handler leaves
    the transcript as it is.  Then the server answers with status 200
    and the body [{success: false, error: "Queue job not found"}]: the
    remote cancel has failed, and nothing is notified. *)
Lemma failed_cancel_is_not_notified :
  let s := after exampleMaxLength examplePrompt helloEnqueued in
  let s1 := (step exampleMaxLength examplePrompt (ECancel "q1") s).1 in
  let reply :=
    EResume 3 (CancelReply
      (OkJson {| cr_success := false;
                 cr_error := Some "Queue job not found" |})) in
  helloJob ∈ pendingQueueJobs s ∧
  ¬ evicts exampleMaxLength examplePrompt (ECancel "q1") s (clientId helloJob) ∧
  messages s1 = messages s ∧
  evicts exampleMaxLength examplePrompt (EResume 2 (enqueued "q1" "pending"))
    (after exampleMaxLength examplePrompt helloSubmitted) (clientId helloJob) ∧
  tasks s1 !! 3 = Some AwaitCancel ∧
  (step exampleMaxLength examplePrompt reply s1).2 = [] ∧
  pendingQueueJobs (step exampleMaxLength examplePrompt reply s1).1 = [].
Proof.
  split; [vm_compute; left|]. split.
  - intros (Hpresent & _). vm_compute in Hpresent. discriminate.
  - split; [vm_compute; reflexivity|].
    split; [split; vm_compute; reflexivity|].
    split; [vm_compute; reflexivity|].
    split; vm_compute; reflexivity.
Qed.

(** C8, on the reply [{success: false, error: "rate limited"}]. *)
Lemma refused_enqueue_evicts_witness :
  let s := after exampleMaxLength examplePrompt helloSubmitted in
  let ev := EResume 2 (EnqueueReply (refused "rate limited")) in
  let s' := (step exampleMaxLength examplePrompt ev s).1 in
  hasMessage (clientId helloJob) s' = false ∧
  hasJob (clientId helloJob) s' = false ∧
  (pollIntervalRef s' = pollIntervalRef s ∨ pollIntervalRef s' = None) ∧
  Toast "Failed to queue message" None ToastError
    ∈ (step exampleMaxLength examplePrompt ev s).2.
Proof.
  intros s ev s'.
  assert (∃ k chat, tasks s !! 2 = Some (AwaitEnqueue k chat)
                    ∧ sf_optimisticId k = clientId helloJob)
    as (k & chat & Hl & Hid) by (eexists _, _; vm_compute; split; reflexivity).
  destruct (refused_enqueue_evicts exampleMaxLength examplePrompt
              s 2 k chat (refused "rate limited") _ Hl eq_refl eq_refl)
    as (Hm & Hj & Ht & He).
  rewrite Hid in Hm, Hj. fold ev in Hm, Hj, Ht, He. fold s' in Hm, Hj, Ht.
  repeat split; try assumption.
  rewrite He. right. right. left.
Defined.

(** Against C8 as the specification words it: the enqueue endpoint
    answers [{success: false, error: "rate limited"}].  No notification
    carries "rate limited"; the only one shown is titled
    "Failed to queue message", and the server's words go to the
    console. *)
Lemma refused_enqueue_toast_is_generic :
  let effs := (step exampleMaxLength examplePrompt
                 (EResume 2 (EnqueueReply (refused "rate limited")))
                 (after exampleMaxLength examplePrompt helloSubmitted)).2 in
  ¬ (∃ description st, Toast "rate limited" description st ∈ effs) ∧
  filter (λ e, isToast e) effs =
    [Toast "Failed to queue message" None ToastError] ∧
  ConsoleError "Failed to process queued submit" "rate limited" ∈ effs.
Proof.
  split; [|split].
  - intros (d & st & Hin). vm_compute in Hin.
    repeat (apply elem_of_cons in Hin as [Hin|Hin]; [discriminate|]).
    inversion Hin.
  - vm_compute. reflexivity.
  - vm_compute. left.
Qed.

(** C9, on leaving the chat of "Hello" for a new one. *)
Lemma chat_switch_keeps_queue_witness :
  let s := after exampleMaxLength examplePrompt
             (helloEnqueued ++ [ERender inChat]) in
  let s' := (step exampleMaxLength examplePrompt (ERender guest) s).1 in
  pendingQueueJobs s' = pendingQueueJobs s ∧
  pollIntervalRef s' = pollIntervalRef s ∧
  pollFailureCountRef s' = pollFailureCountRef s ∧
  tasks s' = tasks s ∧
  (step exampleMaxLength examplePrompt (ERender guest) s).2 = [] ∧
  messages s' =
    (if bool_decide (prevChatIdRef s ≠ None ∧ chatId guest = None)
     then [] else messages s).
Proof.
  intros s.
  apply (chat_switch_keeps_queue exampleMaxLength examplePrompt s guest).
  apply after_reachable. vm_compute. reflexivity.
Defined.

(** Against C9 as the specification words it: "Hello" is enqueued as
    [q1] in chat [chat-1], then the user leaves for a new chat.  The
    timer is still armed, the entry of [q1] is still in the table, and
    the next tick still asks the status endpoint about it. *)
Lemma chat_switch_leaves_timer_and_table :
  let s := after exampleMaxLength examplePrompt
             (helloEnqueued ++ [ERender inChat; ERender guest]) in
  pollIntervalRef s ≠ None ∧
  pendingQueueJobs s = [helloJob] ∧
  (step exampleMaxLength examplePrompt ETimer s).2 =
    [PostStatus {| sb_userId := "guest-1"; sb_isAuthenticated := false;
                   sb_queueIds := ["q1"] |}].
Proof.
  split; [vm_compute; discriminate|]. split; vm_compute; reflexivity.
Qed.

(** C10, on a guest who submits "Hello", is polled once and cancels. *)
Lemma cancel_sends_profile_id_witness :
  let evs := helloEnqueued ++ [ETimer; ECancel "q1"] in
  let effs := seen exampleMaxLength examplePrompt evs in
  (∀ b, PostCancel b ∈ effs → cb_userId b = None) ∧
  (∀ b, PostEnqueue b ∈ effs → eb_userId b ∈ submittedUids evs) ∧
  (∀ b, PostStatus b ∈ effs → sb_userId b ∈ submittedUids evs).
Proof.
  intros evs.
  apply (proj2 (cancel_sends_profile_id exampleMaxLength examplePrompt
                  guest [] "" evs)).
  - reflexivity.
  - vm_compute. repeat constructor.
Defined.

(** The three requests of that session: the guest id on enqueue and on
    status, no user id on cancel. *)
Example guest_requests :
  filter (λ e, isNetworkCall e)
    (seen exampleMaxLength examplePrompt
       (helloEnqueued ++ [ETimer; ECancel "q1"])) =
  [PostEnqueue
     {| eb_userId := "guest-1"; eb_chatId := "chat-1";
        eb_model := "gpt-4.1-nano"; eb_isAuthenticated := false;
        eb_systemPrompt := examplePrompt; eb_enableSearch := false;
        eb_messages :=
          [{| msg_id := "optimistic-1700000000000"; msg_role := RoleUser;
              msg_parts := []; msg_createdAt := 0; msg_content := "Hello";
              msg_experimental_attachments := None |}];
        eb_attachments := [] |};
   PostStatus {| sb_userId := "guest-1"; sb_isAuthenticated := false;
                 sb_queueIds := ["q1"] |};
   PostCancel {| cb_queueId := "q1"; cb_userId := None;
                 cb_isAuthenticated := false |}].
Proof. vm_compute. reflexivity. Qed.

(** Scenario A of the specification: "Hello" is enqueued as [q1], the
    first tick reports it completed; table and transcript are empty
    afterwards and one regeneration is requested. *)
Example scenario_A :
  let r := run exampleMaxLength examplePrompt
             (helloEnqueued ++
              [ETimer;
               EResume 3 (StatusReply
                 (statusOk [{| qs_id := "q1"; qs_status := completed |}]))])
             session0 in
  pendingQueueJobs (after exampleMaxLength examplePrompt helloEnqueued)
    = [helloJob] ∧
  pendingQueueJobs r.1 = [] ∧ messages r.1 = [] ∧
  count isRegenerate r.2 = 1.
Proof. repeat split; vm_compute; reflexivity. Qed.

(** ** Further properties on the example sessions *)

(** X2, on "Hello" enqueued as [q1] and reported as processing by the
    enqueue endpoint. *)
Lemma processing_has_server_id_witness :
  let evs := helloSubmitted ++ [EResume 2 (enqueued "q1" "processing")] in
  let job := {| clientId := "optimistic-1700000000000"; queueId := Some "q1";
                status := StProcessing; content := "Hello";
                createdAt := 1700000000000; optimisticAttachments := [] |} in
  job ∈ pendingQueueJobs
          (run exampleMaxLength examplePrompt evs (mount guest [] "")).1 ∧
  queueId job ≠ None.
Proof.
  intros evs job.
  assert (job ∈ pendingQueueJobs
                  (run exampleMaxLength examplePrompt evs (mount guest [] "")).1)
    as Hin by (vm_compute; left).
  split; [exact Hin|].
  exact (processing_has_server_id exampleMaxLength examplePrompt
           guest [] "" evs job Hin eq_refl).
Defined.

(** X3, on a tick that reports [q1] as processing. *)
Lemma server_id_is_write_once_witness :
  let s := after exampleMaxLength examplePrompt (helloEnqueued ++ [ETimer]) in
  let ev := EResume 3 (StatusReply
              (statusOk [{| qs_id := "q1"; qs_status := processing |}])) in
  helloJob ∈ pendingQueueJobs s ∧
  ∀ job', job' ∈ pendingQueueJobs (step exampleMaxLength examplePrompt ev s).1 →
          clientId job' = clientId helloJob → job' = helloJob.
Proof.
  intros s ev. split; [vm_compute; left|]. intros job' Hin Hid.
  apply (server_id_is_write_once exampleMaxLength examplePrompt
           s ev helloJob job').
  - apply after_reachable. vm_compute. reflexivity.
  - exact I.
  - vm_compute. left.
  - discriminate.
  - exact Hin.
  - exact Hid.
Defined.

(** X4, on the submission of "Hello" waiting for the enqueue reply. *)
Lemma waiting_submission_keeps_its_entry_witness :
  let s := after exampleMaxLength examplePrompt helloSubmitted in
  ∃ job, job ∈ pendingQueueJobs s
         ∧ clientId job = "optimistic-1700000000000" ∧ queueId job = None.
Proof.
  intros s.
  assert (∃ k chat, tasks s !! 2 = Some (AwaitEnqueue k chat)
                    ∧ sf_optimisticId k = "optimistic-1700000000000")
    as (k & chat & Hl & Hid) by (eexists _, _; vm_compute; split; reflexivity).
  rewrite <- Hid.
  apply (waiting_submission_keeps_its_entry exampleMaxLength examplePrompt
           s 2 (AwaitEnqueue k chat) k).
  - apply after_reachable. vm_compute. reflexivity.
  - exact Hl.
  - reflexivity.
Defined.

(** X5, after four failed ticks. *)
Lemma failure_counter_below_ceiling_witness :
  pollFailureCountRef
    (after exampleMaxLength examplePrompt (helloEnqueued ++ failedTicks 4 3))
  < MAX_QUEUE_POLL_FAILURES.
Proof.
  apply (failure_counter_below_ceiling exampleMaxLength examplePrompt).
  apply after_reachable. vm_compute. reflexivity.
Defined.

(** X6, on "Hello" enqueued as [q1]. *)
Lemma server_ids_are_not_empty_witness :
  helloJob ∈ pendingQueueJobs (after exampleMaxLength examplePrompt helloEnqueued)
  ∧ queueId helloJob ≠ Some "".
Proof.
  assert (helloJob ∈ pendingQueueJobs
            (after exampleMaxLength examplePrompt helloEnqueued))
    as Hin by (vm_compute; left).
  split; [exact Hin|].
  apply (server_ids_are_not_empty exampleMaxLength examplePrompt
           (after exampleMaxLength examplePrompt helloEnqueued) helloJob);
    [|exact Hin].
  apply after_reachable. vm_compute. reflexivity.
Defined.

(** X7, on a tick that reports [q1] as processing. *)
Lemma successful_tick_keeps_the_rest_witness :
  let s := after exampleMaxLength examplePrompt (helloEnqueued ++ [ETimer]) in
  let r := statusOk [{| qs_id := "q1"; qs_status := processing |}] in
  let s' := (step exampleMaxLength examplePrompt
               (EResume 3 (StatusReply r)) s).1 in
  ∃ statusResponse, postJson r = inr statusResponse ∧
  (helloJob ∈ pendingQueueJobs s' ↔
   helloJob ∈ pendingQueueJobs s
   ∧ ¬ reportedTerminal (sr_queue statusResponse) helloJob) ∧
  pendingQueueJobs s' `sublist_of` pendingQueueJobs s.
Proof.
  intros s r.
  eapply (successful_tick_keeps_the_rest exampleMaxLength examplePrompt
            s 3 _ r helloJob).
  - vm_compute. reflexivity.
  - reflexivity.
Defined.

(** X8, on a tick that reports [q1] as failed. *)
Lemma one_failure_toast_per_failed_entry_witness :
  let s := after exampleMaxLength examplePrompt (helloEnqueued ++ [ETimer]) in
  let r := statusOk [{| qs_id := "q1"; qs_status := failed |}] in
  ∃ statusResponse, postJson r = inr statusResponse ∧
  let effs := (step exampleMaxLength examplePrompt
                 (EResume 3 (StatusReply r)) s).2 in
  count isToast effs =
    length (filter (λ job, reportedFailed (sr_queue statusResponse) job)
              (pendingQueueJobs s)) ∧
  ∀ title description st,
    Toast title description st ∈ effs →
    title = "Queued message failed" ∧ st = ToastError.
Proof.
  intros s r.
  eapply (one_failure_toast_per_failed_entry exampleMaxLength examplePrompt
            s 3 _ r).
  - vm_compute. reflexivity.
  - reflexivity.
Defined.

(** X9, on the first tick after "Hello" is enqueued as [q1]. *)
Lemma tick_asks_about_the_table_witness :
  let s := after exampleMaxLength examplePrompt helloEnqueued in
  let k := helloFrame examplePrompt in
  (step exampleMaxLength examplePrompt ETimer s).2 =
    (if bool_decide (omap queueId (pendingQueueJobs s) = []) then []
     else [PostStatus
             {| sb_userId := pf_uid k;
                sb_isAuthenticated := pf_isAuthenticated k;
                sb_queueIds := omap queueId (pendingQueueJobs s) |}]) ∧
  pendingQueueJobs (step exampleMaxLength examplePrompt ETimer s).1
    = pendingQueueJobs s ∧
  messages (step exampleMaxLength examplePrompt ETimer s).1 = messages s ∧
  pollIntervalRef (step exampleMaxLength examplePrompt ETimer s).1 = Some k.
Proof.
  intros s k.
  apply (tick_asks_about_the_table exampleMaxLength examplePrompt s k).
  - apply after_reachable. vm_compute. reflexivity.
  - vm_compute. reflexivity.
Defined.

(** X10, on the cancellation of [q9] while only [q1] is in the table. *)
Lemma cancel_of_unknown_id_witness :
  let s := after exampleMaxLength examplePrompt helloEnqueued in
  pendingQueueJobs (step exampleMaxLength examplePrompt (ECancel "q9") s).1
    = pendingQueueJobs s ∧
  messages (step exampleMaxLength examplePrompt (ECancel "q9") s).1
    = messages s ∧
  (step exampleMaxLength examplePrompt (ECancel "q9") s).2 =
    [PostCancel {| cb_queueId := "q9";
                   cb_userId := user_id <$> user (props s);
                   cb_isAuthenticated := isAuthenticated s |}].
Proof.
  intros s.
  apply (cancel_of_unknown_id exampleMaxLength examplePrompt s "q9").
  intros job Hin. vm_compute in Hin.
  apply list_elem_of_singleton in Hin. subst job. discriminate.
Defined.

(** X11, on a tick that starts while "Hello" waits at its first gate. *)
Lemma entry_without_server_id_is_owned_witness :
  let s := after exampleMaxLength examplePrompt
             [EInputChange "Hello";
              ESubmit (Some "guest-1") 1700000000000 []] in
  helloWaiting ∈ pendingQueueJobs (step exampleMaxLength examplePrompt ETimer s).1
  ∨ ∃ h t k o, ETimer = EResume h o ∧ tasks s !! h = Some t
               ∧ frame_of t = Some k
               ∧ sf_optimisticId k = clientId helloWaiting.
Proof.
  intros s.
  apply (entry_without_server_id_is_owned exampleMaxLength examplePrompt
           ETimer s helloWaiting).
  - vm_compute. left.
  - reflexivity.
Defined.

(** X12, on leaving the chat of "Hello" for a new one. *)
Lemma render_twice_is_render_once_witness :
  let s := after exampleMaxLength examplePrompt
             (helloEnqueued ++ [ERender inChat]) in
  step exampleMaxLength examplePrompt (ERender guest)
    (step exampleMaxLength examplePrompt (ERender guest) s).1 =
  ((step exampleMaxLength examplePrompt (ERender guest) s).1, []).
Proof.
  intros s.
  apply (render_twice_is_render_once exampleMaxLength examplePrompt s guest).
  apply after_reachable. vm_compute. reflexivity.
Defined.

(** X13 at work: a limit check that rejects ends in the [catch] and the
    [finally]; a guest-id lookup that rejects ends in neither. *)
Example thrown_limit_check_and_thrown_lookup :
  let s := after exampleMaxLength examplePrompt [EInputChange "Hello"] in
  let r := submission exampleMaxLength examplePrompt limitCheckThrows
             (Some "guest-1") 1700000000000 [] s in
  isSubmitting r.1 = false ∧ pendingQueueJobs r.1 = [] ∧ messages r.1 = [] ∧
  r.2 = [SetFiles [];
         ConsoleError "Failed to process queued submit" "Failed to fetch";
         CleanupOptimisticAttachments [];
         Toast "Failed to queue message" None ToastError] ∧
  isSubmitting
    (step exampleMaxLength examplePrompt (ESubmitThrows "Failed to fetch") s).1
    = true.
Proof. repeat split; vm_compute; reflexivity. Qed.


(** X15, on a submission of "Hello" that the rate limit turns down. *)
Lemma submission_never_restores_input_witness :
  let s := after exampleMaxLength examplePrompt [EInputChange "Hello"] in
  let r := submission exampleMaxLength examplePrompt limitReached
             (Some "guest-1") 1700000000000 [] s in
  input s = "Hello" ∧ input r.1 = "" ∧ hasSentFirstMessageRef r.1 = true
  ∧ ∃ rest, r.2 = SetFiles [] :: rest.
Proof.
  intros s r. split; [reflexivity|].
  apply (submission_never_restores_input exampleMaxLength examplePrompt
           limitReached "guest-1" 1700000000000 [] s).
  discriminate.
Defined.

(** X16, on a submission of "Hello" for which no guest id could be
    made. *)
Lemma submission_without_user_id_witness :
  let s := after exampleMaxLength examplePrompt [EInputChange "Hello"] in
  let r := submission exampleMaxLength examplePrompt accepting
             None 1700000000000 [] s in
  r.2 = [] ∧ messages r.1 = messages s
  ∧ pendingQueueJobs r.1 = pendingQueueJobs s ∧ input r.1 = input s
  ∧ pollIntervalRef r.1 = pollIntervalRef s
  ∧ pollFailureCountRef r.1 = pollFailureCountRef s
  ∧ tasks r.1 = tasks s ∧ isSubmitting r.1 = false.
Proof.
  intros s.
  apply (submission_without_user_id exampleMaxLength examplePrompt
           accepting None 1700000000000 [] s).
  - apply after_reachable. vm_compute. reflexivity.
  - reflexivity.
Defined.
